(** * ShortsAI Producer: the production orchestrator

    A shallow embedding of the workflow component [App] and of the
    functions of [services/geminiService.ts], and the properties of the
    design document stated and proved about them.

    Layout:
    - [Js]: the JavaScript idioms the code relies on (truthiness,
      [padStart], [includes], decimal printing);
    - [Json]: values produced by [JSON.parse], own properties, spread;
    - [GeminiService]: [fetchTrendingNews], [generateIdeation] and
      [generateScriptPackage] as functions of the gateway's response;
    - the interfaces of [types.ts];
    - [Async]: asynchronous functions as programs over effects and
      awaited calls, with an executable interpreter;
    - the operations of [App];
    - projections of traces, the declared shapes as a reading of parsed
      values, and sample states and environments;
    - [Media], [Earlier], [DataView] and [Speech]: the image, video and
      speech functions of the service, and the earlier copy of its
      image functions;
    - the properties. *)

From Stdlib Require Import String Ascii.
From stdpp Require Import base option list strings pretty gmap.

Set Warnings "-register-all".
Local Open Scope string_scope.

(** ** JavaScript idioms *)

Module Js.

(** Strings are sequences of characters; [String.prototype.padStart]
    with a one-character filler. *)
Fixpoint repeat_char (c : ascii) (n : nat) : string :=
  match n with
  | O => EmptyString
  | S n' => String c (repeat_char c n')
  end.

Definition padStart (targetLength : nat) (fill : ascii) (s : string) : string :=
  repeat_char fill (targetLength - String.length s) ++ s.

(** [Number.prototype.toString] on a non-negative integer. *)
Definition toString (n : nat) : string := pretty n.

(** Truthiness of an optional string: [undefined], [null] and the empty
    string are falsy. *)
Definition truthy (v : option string) : bool :=
  match v with
  | Some (String _ _) => true
  | Some EmptyString => false
  | None => false
  end.

Fixpoint startsWith (needle s : string) : bool :=
  match needle, s with
  | EmptyString, _ => true
  | String a needle', String b s' => if Ascii.eqb a b then startsWith needle' s' else false
  | String _ _, EmptyString => false
  end.

(** [String.prototype.includes]. *)
Fixpoint includes (needle s : string) : bool :=
  startsWith needle s ||
  match s with
  | EmptyString => false
  | String _ s' => includes needle s'
  end.

(** White space of the ASCII range, as matched by [\s]. *)
Definition is_space (c : ascii) : bool :=
  let n := nat_of_ascii c in
  (n =? 32)%nat || ((9 <=? n)%nat && (n <=? 13)%nat).

(** [s.replace(/\s+/g, '_')]: every maximal run of white space becomes
    one underscore. *)
Fixpoint collapse_spaces (in_run : bool) (s : string) : string :=
  match s with
  | EmptyString => EmptyString
  | String c s' =>
      if is_space c
      then (if in_run then collapse_spaces true s'
            else String "_"%char (collapse_spaces true s'))
      else String c (collapse_spaces false s')
  end.

(** Exceptions: the constructor's name and the [message] property. *)
Record Exn := mkExn { exn_name : string; exn_message : option string }.

Definition Error (msg : string) : Exn := mkExn "Error" (Some msg).
Definition TypeError (msg : string) : Exn := mkExn "TypeError" (Some msg).
Definition SyntaxError (msg : string) : Exn := mkExn "SyntaxError" (Some msg).

(** How a promise settles, and how a [try] block completes. *)
Inductive Outcome (A : Type) : Type :=
| Resolved (a : A)
| Rejected (e : Exn).
Arguments Resolved {A} a.
Arguments Rejected {A} e.

Definition is_resolved {A} (o : Outcome A) : bool :=
  match o with Resolved _ => true | Rejected _ => false end.

#[export] Instance Outcome_ret : MRet Outcome := fun A a => Resolved a.
#[export] Instance Outcome_bind : MBind Outcome := fun A B f o =>
  match o with
  | Resolved a => f a
  | Rejected e => Rejected e
  end.

(** [try { body } catch (e) { handler }] around a computation that has
    already completed. *)
Definition try_catch {A} (body : Outcome A) (handler : Exn -> Outcome A) : Outcome A :=
  match body with
  | Resolved a => Resolved a
  | Rejected e => handler e
  end.

End Js.

Export Js.

(** ** JSON values *)

Module Json.

(** What [JSON.parse] builds.  Numbers are kept as written: no
    operation of the program inspects them.  An object is the ordered
    list of its own properties. *)
Inductive json : Type :=
| JNull
| JBool (b : bool)
| JNum (literal : string)
| JStr (s : string)
| JArr (items : list json)
| JObj (props : list (string * json)).

(** [o[k]] on own properties. *)
Fixpoint get_prop (k : string) (o : list (string * json)) : option json :=
  match o with
  | [] => None
  | (k', v) :: o' => if String.eqb k k' then Some v else get_prop k o'
  end.

(** Defining property [k]: an existing property keeps its place and
    takes the new value, a new one is appended. *)
Fixpoint set_prop (k : string) (v : json) (o : list (string * json)) : list (string * json) :=
  match o with
  | [] => [(k, v)]
  | (k', v') :: o' =>
      if String.eqb k k' then (k, v) :: o' else (k', v') :: set_prop k v o'
  end.

Fixpoint chars (s : string) : list json :=
  match s with
  | EmptyString => []
  | String c s' => JStr (String c EmptyString) :: chars s'
  end.

Definition indexed (l : list json) : list (string * json) :=
  imap (fun i x => (Js.toString i, x)) l.

(** The own enumerable properties copied by [{...v}]: those of an
    object, the indices of an array or of a string, none for the other
    primitives and for [null]. *)
Definition spread (v : json) : list (string * json) :=
  match v with
  | JObj o => o
  | JArr l => indexed l
  | JStr s => indexed (chars s)
  | JNull | JBool _ | JNum _ => []
  end.

(** [v.map(f)]: only arrays have a callable [map]; on [null] the
    property access itself throws, on everything else the call does. *)
Definition array_map (expr : string) (v : json) (f : json -> nat -> json) : Outcome (list json) :=
  match v with
  | JArr l => Resolved (imap (fun idx item => f item idx) l)
  | JNull => Rejected (TypeError ("Cannot read properties of null (reading 'map')"))
  | _ => Rejected (TypeError (expr ++ ".map is not a function"))
  end.

(** The result of [JSON.parse(text)]: a value, or a thrown
    [SyntaxError]. *)
Inductive Parse : Type :=
| Unparseable
| Parsed (data : json).

(** [response.text] as the program sees it.  The text is only ever
    handed to [JSON.parse], so a non-empty text is represented by what
    [JSON.parse] makes of it; an [undefined] or empty text is falsy and
    makes [response.text || fallback] choose the fallback literal. *)
Inductive ResponseText : Type :=
| NoText
| Text (p : Parse).

Definition JSON_parse (p : Parse) : Outcome json :=
  match p with
  | Parsed data => Resolved data
  | Unparseable => Rejected (SyntaxError "Unexpected token in JSON")
  end.

(** [JSON.parse(response.text || fallback)], for the two fallback
    literals of the program, ["[]"] and ["{}"], given by their values. *)
Definition parse_text_or (text : ResponseText) (fallback : json) : Outcome json :=
  match text with
  | NoText => Resolved fallback
  | Text p => JSON_parse p
  end.

End Json.

Export Json.

(** ** services/geminiService.ts: the text-returning functions

    Each function awaits one [generateContent] call and then works on
    [response.text]; it is given here as a function of that text.  A
    rejection of the call itself reaches the caller unchanged. *)

Module GeminiService.

(** [{ ...item, id: `news-${idx}` }] and its two siblings. *)
Definition with_id (tag : string) (item : json) (idx : nat) : json :=
  JObj (set_prop "id" (JStr (tag ++ "-" ++ Js.toString idx)) (spread item)).

Definition fetchTrendingNews (text : ResponseText) : Outcome (list json) :=
  try_catch
    (data ← parse_text_or text (JArr []);
     array_map "data" data (with_id "news"))
    (fun e => Resolved []).

Definition generateIdeation (text : ResponseText) : Outcome (list json) :=
  data ← parse_text_or text (JArr []);
  array_map "JSON.parse(...)" data (with_id "idea").

(** [data.segments]: reading a property of [null] throws; an array or a
    primitive has no such property. *)
Definition data_segments (data : json) : Outcome (option json) :=
  match data with
  | JObj o => Resolved (get_prop "segments" o)
  | JNull => Rejected (TypeError "Cannot read properties of null (reading 'segments')")
  | _ => Resolved None
  end.

(** [undefined.map] throws as well. *)
Definition segments_map (segments : option json) (f : json -> nat -> json) : Outcome (list json) :=
  match segments with
  | Some v => array_map "data.segments" v f
  | None => Rejected (TypeError "Cannot read properties of undefined (reading 'map')")
  end.

Definition generateScriptPackage (text : ResponseText) : Outcome json :=
  data ← parse_text_or text (JObj []);
  segments ← data_segments data;
  mapped ← segments_map segments (with_id "seg");
  mret (JObj (set_prop "segments" (JArr mapped) (spread data))).

End GeminiService.

(** ** types.ts *)

Inductive Step : Type := NEWS | IDEATION | SCRIPT | REF_IMAGE | PRODUCTION.

Module NewsItem.
Record t := mk { id : string; title : string; snippet : string; url : string }.
End NewsItem.

Module IdeationItem.
Record t := mk { id : string; title : string; description : string }.
End IdeationItem.

(** An optional property holds [None] when it is [undefined] or [null]:
    the program only tests such properties for truthiness. *)
Module ScriptSegment.
Record t := mk {
  id : string;
  timestamp : string;
  text : string;
  imagePrompt : string;
  imageUrl : option string;
  videoUrl : option string;
  isGenerating : option bool;
  isVideoGenerating : option bool
}.
End ScriptSegment.

(** [Partial<ScriptSegment>]: per property, [None] when the object
    literal does not name it, [Some v] when it names it with value [v]
    (so [videoUrl: null] is [Some None]). *)
Module Updates.
Record t := mk {
  id : option string;
  timestamp : option string;
  text : option string;
  imagePrompt : option string;
  imageUrl : option (option string);
  videoUrl : option (option string);
  isGenerating : option (option bool);
  isVideoGenerating : option (option bool)
}.

(** The object literals of the program name only the last four
    properties. *)
Definition literal (imageUrl videoUrl : option (option string))
    (isGenerating isVideoGenerating : option (option bool)) : t :=
  mk None None None None imageUrl videoUrl isGenerating isVideoGenerating.
End Updates.

(** [{ ...s, ...updates }] *)
Definition merge (s : ScriptSegment.t) (updates : Updates.t) : ScriptSegment.t :=
  ScriptSegment.mk
    (default (ScriptSegment.id s) (Updates.id updates))
    (default (ScriptSegment.timestamp s) (Updates.timestamp updates))
    (default (ScriptSegment.text s) (Updates.text updates))
    (default (ScriptSegment.imagePrompt s) (Updates.imagePrompt updates))
    (default (ScriptSegment.imageUrl s) (Updates.imageUrl updates))
    (default (ScriptSegment.videoUrl s) (Updates.videoUrl updates))
    (default (ScriptSegment.isGenerating s) (Updates.isGenerating updates))
    (default (ScriptSegment.isVideoGenerating s) (Updates.isVideoGenerating updates)).

Module ScriptPackage.
Record t := mk {
  title : string;
  description : string;
  tags : list string;
  cta : string;
  thumbnailPrompt : string;
  thumbnailUrl : option string;
  audioUrl : option string;
  isAudioGenerating : option bool;
  mainRefPrompt : string;
  fullScriptPara : string;
  segments : list ScriptSegment.t
}.

(** [{ ...pkg, segments }], [{ ...pkg, isAudioGenerating }],
    [{ ...pkg, audioUrl, isAudioGenerating }], [{ ...pkg, thumbnailUrl }] *)
Definition with_segments (segs : list ScriptSegment.t) (p : t) : t :=
  mk (title p) (description p) (tags p) (cta p) (thumbnailPrompt p)
     (thumbnailUrl p) (audioUrl p) (isAudioGenerating p)
     (mainRefPrompt p) (fullScriptPara p) segs.

Definition with_isAudioGenerating (b : bool) (p : t) : t :=
  mk (title p) (description p) (tags p) (cta p) (thumbnailPrompt p)
     (thumbnailUrl p) (audioUrl p) (Some b)
     (mainRefPrompt p) (fullScriptPara p) (segments p).

Definition with_audio (audioUrl : string) (b : bool) (p : t) : t :=
  mk (title p) (description p) (tags p) (cta p) (thumbnailPrompt p)
     (thumbnailUrl p) (Some audioUrl) (Some b)
     (mainRefPrompt p) (fullScriptPara p) (segments p).

Definition with_thumbnailUrl (thumbUrl : string) (p : t) : t :=
  mk (title p) (description p) (tags p) (cta p) (thumbnailPrompt p)
     (Some thumbUrl) (audioUrl p) (isAudioGenerating p)
     (mainRefPrompt p) (fullScriptPara p) (segments p).
End ScriptPackage.

Module RefImage.
Record t := mk { id : string; url : string }.
End RefImage.

Module UploadedFile.
Record t := mk { base64 : string; mimeType : string; previewUrl : string }.
End UploadedFile.

Module WorkflowState.
Record t := mk {
  step : Step;
  selectedNews : option NewsItem.t;
  ideationOptions : list IdeationItem.t;
  selectedIdea : option IdeationItem.t;
  scriptPackage : option ScriptPackage.t;
  refImages : list RefImage.t;
  selectedRefImageUrl : option string;
  needsApiKey : option bool
}.

Definition with_selectedNews (item : NewsItem.t) (s : t) : t :=
  mk (step s) (Some item) (ideationOptions s) (selectedIdea s)
     (scriptPackage s) (refImages s) (selectedRefImageUrl s) (needsApiKey s).

Definition with_ideation (ideas : list IdeationItem.t) (s : t) : t :=
  mk IDEATION (selectedNews s) ideas (selectedIdea s)
     (scriptPackage s) (refImages s) (selectedRefImageUrl s) (needsApiKey s).

Definition with_selectedIdea (idea : IdeationItem.t) (s : t) : t :=
  mk (step s) (selectedNews s) (ideationOptions s) (Some idea)
     (scriptPackage s) (refImages s) (selectedRefImageUrl s) (needsApiKey s).

Definition with_script (pkg : ScriptPackage.t) (s : t) : t :=
  mk SCRIPT (selectedNews s) (ideationOptions s) (selectedIdea s)
     (Some pkg) (refImages s) (selectedRefImageUrl s) (needsApiKey s).

Definition with_refImages (imgs : list RefImage.t) (s : t) : t :=
  mk REF_IMAGE (selectedNews s) (ideationOptions s) (selectedIdea s)
     (scriptPackage s) imgs (selectedRefImageUrl s) (needsApiKey s).

Definition with_production (url : string) (s : t) : t :=
  mk PRODUCTION (selectedNews s) (ideationOptions s) (selectedIdea s)
     (scriptPackage s) (refImages s) (Some url) (needsApiKey s).

Definition with_scriptPackage (pkg : ScriptPackage.t) (s : t) : t :=
  mk (step s) (selectedNews s) (ideationOptions s) (selectedIdea s)
     (Some pkg) (refImages s) (selectedRefImageUrl s) (needsApiKey s).

Definition with_needsApiKey (b : bool) (s : t) : t :=
  mk (step s) (selectedNews s) (ideationOptions s) (selectedIdea s)
     (scriptPackage s) (refImages s) (selectedRefImageUrl s) (Some b).

(** [useState<WorkflowState>({ step: 'NEWS', ideationOptions: [], refImages: [] })] *)
Definition initial : t := mk NEWS None [] None None [] None None.
End WorkflowState.

(** ** The component's state, effects and awaited calls *)

(** The five [useState] cells of [App]. *)
Module AppState.
Record t := mk {
  state : WorkflowState.t;
  loading : bool;
  exporting : bool;
  news : list NewsItem.t;
  manualRef : option UploadedFile.t
}.

Definition initial : t := mk WorkflowState.initial false false [] None.
End AppState.

(** Binary payloads and the archive under construction: [zip.file(name,
    content)] defines or replaces the file entry [name].  Directory
    entries that the library derives from the path of a file are not
    files and are left out. *)
Definition Blob := string.

Inductive ZipContent : Type :=
| ZBlob (b : Blob)
| ZText (s : string)
| ZJson (j : json).

Abbreviation JSZip := (gmap string ZipContent).

Definition zip_file (name : string) (content : ZipContent) (zip : JSZip) : JSZip :=
  <[name := content]> zip.

(** The [Response] of [fetch]: its [ok] flag and what [blob()] settles to. *)
Module FetchResponse.
Record t := mk { ok : bool; blob : Outcome Blob }.
End FetchResponse.

(** Synchronous effects of the component. *)
Inductive Effect : Type :=
| SetState (updater : WorkflowState.t -> WorkflowState.t)
| SetLoading (b : bool)
| SetExporting (b : bool)
| SetNews (trending : list NewsItem.t)
| SetManualRef (file : UploadedFile.t)
| Alert (msg : string)
| ConsoleError (msg : string) (e : Exn)
| Download (filename : string) (content : Blob).

(** Promise-returning calls into the service module and the browser,
    indexed by the type they resolve with.  [HasSelectedApiKey] is
    [window.aistudio?.hasSelectedApiKey()], which is [undefined] when
    [window.aistudio] is. *)
Inductive Call : Type -> Type :=
| FetchTrendingNews : Call (list NewsItem.t)
| GenerateIdeation (newsTitle newsSnippet : string) : Call (list IdeationItem.t)
| GenerateScriptPackage (ideaTitle ideaDescription : string) : Call ScriptPackage.t
| GenerateRefImages (prompt : string) : Call (list string)
| GenerateSceneImage (refBase64 prompt : string) : Call string
| GenerateThumbnail (prompt : string) : Call string
| GenerateSpeech (text : string) : Call string
| GenerateSceneVideo (imageBase64 prompt : string) : Call string
| HasSelectedApiKey : Call (option bool)
| OpenSelectKey : Call unit
| Fetch (url : string) : Call FetchResponse.t
| GenerateAsync (zip : JSZip) : Call Blob.

(** ** Asynchronous functions

    An [async] function is a program that returns, throws, performs an
    effect, awaits a call (and resumes with how it settled), or starts a
    call whose [then]/[catch] callbacks run later without being awaited. *)
Inductive Async (A : Type) : Type :=
| Ret (a : A)
| Throw (e : Exn)
| Do (eff : Effect) (k : Async A)
| Await {R : Type} (c : Call R) (k : Outcome R -> Async A)
| Spawn {R : Type} (c : Call R) (settled : Outcome R -> list Effect) (k : Async A).
Arguments Ret {A} a.
Arguments Throw {A} e.
Arguments Do {A} eff k.
Arguments Await {A R} c k.
Arguments Spawn {A R} c settled k.

Fixpoint bind {A B} (p : Async A) (f : A -> Async B) : Async B :=
  match p with
  | Ret a => f a
  | Throw e => Throw e
  | Do eff k => Do eff (bind k f)
  | Await c k => Await c (fun o => bind (k o) f)
  | Spawn c h k => Spawn c h (bind k f)
  end.

#[export] Instance Async_ret : MRet Async := fun A a => Ret a.
#[export] Instance Async_bind : MBind Async := fun A B f p => bind p f.

(** Run [p] to completion and hand back how it completed; the result
    never throws. *)
Fixpoint attempt {A} (p : Async A) : Async (Outcome A) :=
  match p with
  | Ret a => Ret (Resolved a)
  | Throw e => Ret (Rejected e)
  | Do eff k => Do eff (attempt k)
  | Await c k => Await c (fun o => attempt (k o))
  | Spawn c h k => Spawn c h (attempt k)
  end.

Definition complete {A} (o : Outcome A) : Async A :=
  match o with
  | Resolved a => Ret a
  | Rejected e => Throw e
  end.

(** [await c] *)
Definition await {R} (c : Call R) : Async R := Await c complete.

Definition perform (eff : Effect) : Async unit := Do eff (Ret tt).

(** [try { body } catch (e) { handler e }] *)
Definition try_catch_async {A} (body : Async A) (handler : Exn -> Async A) : Async A :=
  o ← attempt body;
  match o with
  | Resolved a => Ret a
  | Rejected e => handler e
  end.

(** [try { body } finally { cleanup }] *)
Definition try_finally {A} (body : Async A) (cleanup : Async unit) : Async A :=
  o ← attempt body;
  cleanup;;
  complete o.

(** [Promise.all] over promises created in list order.  Every branch
    runs whether or not another one rejects, and the result rejects as
    soon as one branch does.  The branches of this program each define
    an archive entry of their own, so they are run one after the other
    here, which reaches the same archive as any interleaving of their
    completions. *)
Fixpoint promise_all {A} (ps : list (Async A)) : Async (list A) :=
  match ps with
  | [] => Ret []
  | p :: ps' =>
      o ← attempt p;
      os ← attempt (promise_all ps');
      match o, os with
      | Resolved a, Resolved l => Ret (a :: l)
      | Rejected e, _ => Throw e
      | Resolved _, Rejected e => Throw e
      end
  end.

(** ** Running a program *)

Definition apply_effect (eff : Effect) (st : AppState.t) : AppState.t :=
  match eff with
  | SetState f =>
      AppState.mk (f (AppState.state st)) (AppState.loading st)
        (AppState.exporting st) (AppState.news st) (AppState.manualRef st)
  | SetLoading b =>
      AppState.mk (AppState.state st) b
        (AppState.exporting st) (AppState.news st) (AppState.manualRef st)
  | SetExporting b =>
      AppState.mk (AppState.state st) (AppState.loading st)
        b (AppState.news st) (AppState.manualRef st)
  | SetNews l =>
      AppState.mk (AppState.state st) (AppState.loading st)
        (AppState.exporting st) l (AppState.manualRef st)
  | SetManualRef f =>
      AppState.mk (AppState.state st) (AppState.loading st)
        (AppState.exporting st) (AppState.news st) (Some f)
  | Alert _ | ConsoleError _ _ | Download _ _ => st
  end.

(** What an observer sees: effects as they happen, calls as they are
    issued (with the state of the component at that moment) and as they
    settle, and calls started without being awaited. *)
Inductive Event : Type :=
| Performed (eff : Effect)
| Issued {R : Type} (c : Call R) (st : AppState.t)
| Settled {R : Type} (c : Call R) (o : Outcome R)
| Started {R : Type} (c : Call R) (settled : Outcome R -> list Effect).

(** The environment decides how the [n]-th awaited call settles. *)
Definition Env := nat -> forall R, Call R -> Outcome R.

Module Run.
Record t (A : Type) := mk {
  trace : list Event;
  final : AppState.t;
  result : Outcome A;
  awaited : nat
}.
Arguments mk {A} trace final result awaited.
Arguments trace {A} _.
Arguments final {A} _.
Arguments result {A} _.
Arguments awaited {A} _.

Definition after {A} (evs : list Event) (r : t A) : t A :=
  mk (evs ++ trace r) (final r) (result r) (awaited r).
End Run.

(** [run env n p st]: the program [p] from state [st], its awaited calls
    numbered from [n].  Callbacks of calls that are not awaited stay in
    the trace, to be applied whenever their promise settles. *)
Fixpoint run {A} (env : Env) (n : nat) (p : Async A) (st : AppState.t) : Run.t A :=
  match p with
  | Ret a => Run.mk [] st (Resolved a) n
  | Throw e => Run.mk [] st (Rejected e) n
  | Do eff k => Run.after [Performed eff] (run env n k (apply_effect eff st))
  | Await c k =>
      let o := env n _ c in
      Run.after [Issued c st; Settled c o] (run env (S n) (k o) st)
  | Spawn c h k => Run.after [Started c h] (run env n k st)
  end.

(** ** The operations of [App]

    An operation closes over the [state] of the render that created it;
    that snapshot is its first argument wherever the code reads [state]
    directly.  Updaters passed to [setState] receive the current state
    instead. *)

Module App.

Definition setState (updater : WorkflowState.t -> WorkflowState.t) : Async unit :=
  perform (SetState updater).

(** [prev => prev.scriptPackage ? { ...prev, scriptPackage: f(prev.scriptPackage) } : prev] *)
Definition on_package (f : ScriptPackage.t -> ScriptPackage.t)
    (prev : WorkflowState.t) : WorkflowState.t :=
  match WorkflowState.scriptPackage prev with
  | Some pkg => WorkflowState.with_scriptPackage (f pkg) prev
  | None => prev
  end.

(** The updater of [updateSegment]. *)
Definition segment_updater (id : string) (updates : Updates.t)
    (prev : WorkflowState.t) : WorkflowState.t :=
  on_package
    (fun pkg =>
       ScriptPackage.with_segments
         ((fun s => if String.eqb (ScriptSegment.id s) id then merge s updates else s)
            <$> ScriptPackage.segments pkg)
         pkg)
    prev.

Definition updateSegment (id : string) (updates : Updates.t) : Async unit :=
  setState (segment_updater id updates).

Definition loadNews : Async unit :=
  perform (SetLoading true);;
  try_finally
    (try_catch_async
       (trending ← await FetchTrendingNews;
        perform (SetNews trending))
       (fun e => perform (Alert "Failed to fetch news.")))
    (perform (SetLoading false)).

Definition selectNews (item : NewsItem.t) : Async unit :=
  perform (SetLoading true);;
  setState (WorkflowState.with_selectedNews item);;
  try_finally
    (try_catch_async
       (ideas ← await (GenerateIdeation (NewsItem.title item) (NewsItem.snippet item));
        setState (WorkflowState.with_ideation ideas))
       (fun e => perform (Alert "Failed to generate ideas.")))
    (perform (SetLoading false)).

Definition selectIdea (idea : IdeationItem.t) : Async unit :=
  perform (SetLoading true);;
  setState (WorkflowState.with_selectedIdea idea);;
  try_finally
    (try_catch_async
       (pkg ← await (GenerateScriptPackage (IdeationItem.title idea)
                       (IdeationItem.description idea));
        setState (WorkflowState.with_script pkg))
       (fun e => perform (Alert "Failed to generate script.")))
    (perform (SetLoading false)).

Definition generateReferenceImages (state : WorkflowState.t) : Async unit :=
  match WorkflowState.scriptPackage state with
  | None => Ret tt
  | Some pkg =>
      perform (SetLoading true);;
      try_finally
        (try_catch_async
           (urls ← await (GenerateRefImages (ScriptPackage.mainRefPrompt pkg));
            setState
              (WorkflowState.with_refImages
                 (imap (fun i url => RefImage.mk ("ref-" ++ Js.toString i) url) urls)))
           (fun e => perform (Alert "Failed to generate style variations.")))
        (perform (SetLoading false))
  end.

(** The scene loop of [generateProductionAssets], over the copy of the
    segments taken from the snapshot. *)
Fixpoint generateScenes (refUrl : string) (segments : list ScriptSegment.t) : Async unit :=
  match segments with
  | [] => Ret tt
  | seg :: rest =>
      updateSegment (ScriptSegment.id seg) (Updates.literal None None (Some (Some true)) None);;
      try_catch_async
        (imageUrl ← await (GenerateSceneImage refUrl (ScriptSegment.imagePrompt seg));
         updateSegment (ScriptSegment.id seg)
           (Updates.literal (Some (Some imageUrl)) None (Some (Some false)) None))
        (fun e =>
           updateSegment (ScriptSegment.id seg)
             (Updates.literal None None (Some (Some false)) None));;
      generateScenes refUrl rest
  end.

(** The [then] and [catch] callbacks of the narration promise. *)
Definition speech_settled (o : Outcome string) : list Effect :=
  match o with
  | Resolved audioUrl =>
      [SetState (on_package (ScriptPackage.with_audio audioUrl false))]
  | Rejected err =>
      [ConsoleError "Audio failed" err;
       SetState (on_package (ScriptPackage.with_isAudioGenerating false))]
  end.

Definition generateProductionAssets (state : WorkflowState.t) (refUrl : string) : Async unit :=
  match WorkflowState.scriptPackage state with
  | None => Ret tt
  | Some pkg =>
      setState (on_package (ScriptPackage.with_isAudioGenerating true));;
      Spawn (GenerateSpeech (ScriptPackage.fullScriptPara pkg)) speech_settled (Ret tt);;
      try_catch_async
        (thumbUrl ← await (GenerateThumbnail (ScriptPackage.thumbnailPrompt pkg));
         setState (on_package (ScriptPackage.with_thumbnailUrl thumbUrl)))
        (fun e => perform (ConsoleError "Thumbnail failed" e));;
      generateScenes refUrl (ScriptPackage.segments pkg)
  end.

(** [generateProductionAssets(url)] is called without [await]: it runs up
    to its first suspension inside [selectRefImage] and on its own from
    there; it has no uncaught exception to lose. *)
Definition selectRefImage (state : WorkflowState.t) (url : string) : Async unit :=
  setState (WorkflowState.with_production url);;
  generateProductionAssets state url.

Definition handleManualRefSelect (state : WorkflowState.t) (file : UploadedFile.t) : Async unit :=
  perform (SetManualRef file);;
  selectRefImage state (UploadedFile.base64 file).

Definition entity_not_found (e : Exn) : bool :=
  match exn_message e with
  | Some m => Js.includes "Requested entity was not found" m
  | None => false
  end.

Definition animateScene (segment : ScriptSegment.t) : Async unit :=
  match ScriptSegment.imageUrl segment with
  | Some (String c u) =>
      hasKey ← await HasSelectedApiKey;
      match hasKey with
      | Some true =>
          updateSegment (ScriptSegment.id segment)
            (Updates.literal None None None (Some (Some true)));;
          try_catch_async
            (videoUrl ← await (GenerateSceneVideo (String c u) (ScriptSegment.imagePrompt segment));
             updateSegment (ScriptSegment.id segment)
               (Updates.literal None (Some (Some videoUrl)) None (Some (Some false))))
            (fun e =>
               perform (ConsoleError "Animation failed" e);;
               (if entity_not_found e
                then setState (WorkflowState.with_needsApiKey true)
                else perform (Alert "Animation failed. Check API key billing."));;
               updateSegment (ScriptSegment.id segment)
                 (Updates.literal None None None (Some (Some false))))
      | Some false | None => setState (WorkflowState.with_needsApiKey true)
      end
  | Some EmptyString | None => Ret tt
  end.

Definition regenerateScene (state : WorkflowState.t) (segment : ScriptSegment.t) : Async unit :=
  match WorkflowState.selectedRefImageUrl state with
  | Some (String c u) =>
      updateSegment (ScriptSegment.id segment) (Updates.literal None None (Some (Some true)) None);;
      try_catch_async
        (imageUrl ← await (GenerateSceneImage (String c u) (ScriptSegment.imagePrompt segment));
         updateSegment (ScriptSegment.id segment)
           (Updates.literal (Some (Some imageUrl)) (Some None) (Some (Some false)) None))
        (fun e =>
           updateSegment (ScriptSegment.id segment)
             (Updates.literal None None (Some (Some false)) None))
  | Some EmptyString | None => Ret tt
  end.

(** *** Export *)

Definition fetchAsBlob (url : string) : Async Blob :=
  response ← await (Fetch url);
  if FetchResponse.ok response
  then complete (FetchResponse.blob response)
  else Throw (Error ("Failed to fetch " ++ url)).

Definition segment_index (i : nat) : string :=
  Js.padStart 2 "0"%char (Js.toString (i + 1)).

Definition motion_name (i : nat) : string :=
  "scenes/segment_" ++ segment_index i ++ "_motion.mp4".

Definition frame_name (i : nat) : string :=
  "scenes/segment_" ++ segment_index i ++ "_frame.png".

(** The callback mapped over the segments: what it does to the archive
    once its download has arrived. *)
Definition add_segment (i : nat) (seg : ScriptSegment.t) : Async (JSZip -> JSZip) :=
  match ScriptSegment.videoUrl seg with
  | Some (String c u) =>
      videoBlob ← fetchAsBlob (String c u);
      Ret (zip_file (motion_name i) (ZBlob videoBlob))
  | Some EmptyString | None =>
      match ScriptSegment.imageUrl seg with
      | Some (String c u) =>
          imageBlob ← fetchAsBlob (String c u);
          Ret (zip_file (frame_name i) (ZBlob imageBlob))
      | Some EmptyString | None => Ret (fun zip => zip)
      end
  end.

Definition add_optional (url : option string) (name : string) (zip : JSZip) : Async JSZip :=
  match url with
  | Some (String c u) =>
      blob ← fetchAsBlob (String c u);
      Ret (zip_file name (ZBlob blob) zip)
  | Some EmptyString | None => Ret zip
  end.

(** The object handed to [JSON.stringify(meta, null, 2)]; [now] is
    [new Date().toISOString()]. *)
Definition meta (pkg : ScriptPackage.t) (now : string) : json :=
  JObj [("title", JStr (ScriptPackage.title pkg));
        ("description", JStr (ScriptPackage.description pkg));
        ("tags", JArr (JStr <$> ScriptPackage.tags pkg));
        ("script", JStr (ScriptPackage.fullScriptPara pkg));
        ("cta", JStr (ScriptPackage.cta pkg));
        ("productionDate", JStr now)].

Definition archive_name (pkg : ScriptPackage.t) : string :=
  "ShortsAI_Production_" ++ Js.collapse_spaces false (ScriptPackage.title pkg) ++ ".zip".

(** The body of the [try] block: everything up to the archive that is
    handed to [zip.generateAsync]. *)
Definition assemble (pkg : ScriptPackage.t) (now : string) : Async JSZip :=
  zip ← add_optional (ScriptPackage.audioUrl pkg) "narration.wav" ∅;
  zip ← add_optional (ScriptPackage.thumbnailUrl pkg) "thumbnail.png" zip;
  additions ← promise_all (imap add_segment (ScriptPackage.segments pkg));
  let zip := foldl (fun z add => add z) zip additions in
  let zip := zip_file "production_metadata.json" (ZJson (meta pkg now)) zip in
  Ret (zip_file "full_script.txt" (ZText (ScriptPackage.fullScriptPara pkg)) zip).

Definition downloadProduction (state : WorkflowState.t) (now : string) : Async unit :=
  match WorkflowState.scriptPackage state with
  | None => Ret tt
  | Some pkg =>
      perform (SetExporting true);;
      try_finally
        (try_catch_async
           (zip ← assemble pkg now;
            zipContent ← await (GenerateAsync zip);
            perform (Download (archive_name pkg) zipContent))
           (fun err =>
              perform (ConsoleError "ZIP Generation error:" err);;
              perform (Alert "Failed to bundle assets into a ZIP file. Try individual exports.")))
        (perform (SetExporting false))
  end.

Definition openApiKeyDialog : Async unit :=
  await OpenSelectKey;;
  setState
    (fun prev =>
       WorkflowState.mk (WorkflowState.step prev) (WorkflowState.selectedNews prev)
         (WorkflowState.ideationOptions prev) (WorkflowState.selectedIdea prev)
         (WorkflowState.scriptPackage prev) (WorkflowState.refImages prev)
         (WorkflowState.selectedRefImageUrl prev) (Some false)).

End App.

(** * Observations, readings and sample data

    What the statements below are phrased with: projections of traces,
    the declared shapes read off parsed values, and concrete states and
    environments. *)

(** Sequencing: the second program starts where the first one stopped,
    and is skipped when the first one throws. *)
Definition then_run {A B} (env : Env) (r : Run.t A) (f : A -> Async B) : Run.t B :=
  match Run.result r with
  | Resolved a => Run.after (Run.trace r) (run env (Run.awaited r) (f a) (Run.final r))
  | Rejected e => Run.mk (Run.trace r) (Run.final r) (Rejected e) (Run.awaited r)
  end.

(** The declared shapes of [types.ts] as a reading of run-time values

    The service functions are typed [Promise<ScriptPackage>] and the
    like, and nothing checks the parsed value against that type.  The
    component is modelled on values of the declared shape; [Typed] reads
    such a value off a parsed one, and fails on any other. *)
Module Typed.

Definition string_of (v : option json) : option string :=
  match v with
  | Some (JStr s) => Some s
  | _ => None
  end.

(** [p?: string | null] *)
Definition optional_string_of (v : option json) : option (option string) :=
  match v with
  | None | Some JNull => Some None
  | Some (JStr s) => Some (Some s)
  | Some _ => None
  end.

(** [p?: boolean] *)
Definition optional_bool_of (v : option json) : option (option bool) :=
  match v with
  | None => Some None
  | Some (JBool b) => Some (Some b)
  | Some _ => None
  end.

Definition strings_of (v : option json) : option (list string) :=
  match v with
  | Some (JArr l) => mapM (fun x => string_of (Some x)) l
  | _ => None
  end.

Definition segment_of (v : json) : option ScriptSegment.t :=
  match v with
  | JObj o =>
      id ← string_of (get_prop "id" o);
      timestamp ← string_of (get_prop "timestamp" o);
      text ← string_of (get_prop "text" o);
      imagePrompt ← string_of (get_prop "imagePrompt" o);
      imageUrl ← optional_string_of (get_prop "imageUrl" o);
      videoUrl ← optional_string_of (get_prop "videoUrl" o);
      isGenerating ← optional_bool_of (get_prop "isGenerating" o);
      isVideoGenerating ← optional_bool_of (get_prop "isVideoGenerating" o);
      Some (ScriptSegment.mk id timestamp text imagePrompt imageUrl videoUrl
              isGenerating isVideoGenerating)
  | _ => None
  end.

Definition segments_of (v : option json) : option (list ScriptSegment.t) :=
  match v with
  | Some (JArr l) => mapM segment_of l
  | _ => None
  end.

Definition package_of (v : json) : option ScriptPackage.t :=
  match v with
  | JObj o =>
      title ← string_of (get_prop "title" o);
      description ← string_of (get_prop "description" o);
      tags ← strings_of (get_prop "tags" o);
      cta ← string_of (get_prop "cta" o);
      thumbnailPrompt ← string_of (get_prop "thumbnailPrompt" o);
      thumbnailUrl ← optional_string_of (get_prop "thumbnailUrl" o);
      audioUrl ← optional_string_of (get_prop "audioUrl" o);
      isAudioGenerating ← optional_bool_of (get_prop "isAudioGenerating" o);
      mainRefPrompt ← string_of (get_prop "mainRefPrompt" o);
      fullScriptPara ← string_of (get_prop "fullScriptPara" o);
      segments ← segments_of (get_prop "segments" o);
      Some (ScriptPackage.mk title description tags cta thumbnailPrompt thumbnailUrl
              audioUrl isAudioGenerating mainRefPrompt fullScriptPara segments)
  | _ => None
  end.

End Typed.

(** [pkg.segments] of a run-time package. *)
Definition json_segments (pkg : json) : option (list json) :=
  match pkg with
  | JObj o =>
      match get_prop "segments" o with
      | Some (JArr l) => Some l
      | _ => None
      end
  | _ => None
  end.

(** A news response whose second item carries an [id] of its own. *)
Definition sample_news : ResponseText :=
  Text (Parsed (JArr [JObj [("title", JStr "Chips"); ("snippet", JStr "Faster"); ("url", JStr "u0")];
                      JObj [("id", JStr "from-gateway"); ("title", JStr "Robots")]])).

Definition raw_segment (timestamp text imagePrompt : string) : json :=
  JObj [("timestamp", JStr timestamp); ("text", JStr text); ("imagePrompt", JStr imagePrompt)].

(** A response of the declared shape with three segments instead of ten. *)
Definition three_segment_response : ResponseText :=
  Text (Parsed (JObj [("title", JStr "Chips");
                      ("description", JStr "About chips");
                      ("tags", JArr [JStr "tech"]);
                      ("cta", JStr "Subscribe");
                      ("thumbnailPrompt", JStr "a chip");
                      ("fullScriptPara", JStr "One. Two. Three.");
                      ("mainRefPrompt", JStr "a lab");
                      ("segments", JArr [raw_segment "00" "One." "lab";
                                         raw_segment "03" "Two." "chip";
                                         raw_segment "06" "Three." "wafer"])])).

Definition three_segment_package : ScriptPackage.t :=
  ScriptPackage.mk "Chips" "About chips" ["tech"] "Subscribe" "a chip" None None None
    "a lab" "One. Two. Three."
    [ScriptSegment.mk "seg-0" "00" "One." "lab" None None None None;
     ScriptSegment.mk "seg-1" "03" "Two." "chip" None None None None;
     ScriptSegment.mk "seg-2" "06" "Three." "wafer" None None None None].

Definition sample_idea : IdeationItem.t := IdeationItem.mk "idea-0" "Chips" "Why chips matter".

(** An environment in which script generation resolves with [pkg] and
    every other call is rejected. *)
Definition script_env (pkg : ScriptPackage.t) : Env :=
  fun n R c =>
    match c in Call R return Outcome R with
    | GenerateScriptPackage _ _ => Resolved pkg
    | _ => Rejected (Error "unavailable")
    end.

(** The package of a state of the component. *)
Definition packaged (st : AppState.t) : option ScriptPackage.t :=
  WorkflowState.scriptPackage (AppState.state st).

(** The states at which the program issued its awaited calls. *)
Definition states_at_issue (tr : list Event) : list AppState.t :=
  omap (fun ev => match ev with Issued _ st => Some st | _ => None end) tr.

(** The function [updateSegment] maps over the segments. *)
Definition update_one (id : string) (updates : Updates.t) (s : ScriptSegment.t) : ScriptSegment.t :=
  if String.eqb (ScriptSegment.id s) id then merge s updates else s.

(** The object literals passed to [updateSegment]. *)
Definition generating (b : bool) : Updates.t :=
  Updates.literal None None (Some (Some b)) None.

Definition regenerated (imageUrl : string) : Updates.t :=
  Updates.literal (Some (Some imageUrl)) (Some None) (Some (Some false)) None.

(** The states the component goes through: one after each effect. *)
Fixpoint states_after (st : AppState.t) (tr : list Event) : list AppState.t :=
  match tr with
  | [] => []
  | Performed eff :: tr' =>
      let st' := apply_effect eff st in
      st' :: states_after st' tr'
  | _ :: tr' => states_after st tr'
  end.

(** A production state: two segments with images, the first one
    animated, narration and thumbnail generated. *)
Definition animated_segment : ScriptSegment.t :=
  ScriptSegment.mk "seg-0" "00" "One." "lab" (Some "data:frame-0") (Some "https://video/0")
    (Some false) (Some false).

Definition still_segment : ScriptSegment.t :=
  ScriptSegment.mk "seg-1" "03" "Two." "chip" (Some "data:frame-1") None (Some false) None.

Definition sample_package : ScriptPackage.t :=
  ScriptPackage.mk "Chips" "About chips" ["tech"] "Subscribe" "a chip"
    (Some "data:thumb") (Some "blob:narration") (Some false)
    "a lab" "One. Two."
    [animated_segment; still_segment].

Definition production_workflow : WorkflowState.t :=
  WorkflowState.mk PRODUCTION None [] None (Some sample_package) [] (Some "data:ref") None.

Definition production_state : AppState.t :=
  AppState.mk production_workflow false false [] None.

(** Scene-image calls settle with [o]; every other call is rejected. *)
Definition scene_env (o : Outcome string) : Env :=
  fun n R c =>
    match c in Call R return Outcome R with
    | GenerateSceneImage _ _ => o
    | _ => Rejected (Error "unavailable")
    end.

(** A segment whose image is still being generated. *)
Definition segment_without_image : ScriptSegment.t :=
  ScriptSegment.mk "seg-2" "06" "Three." "wafer" None None (Some true) None.

(** In the news step no ideas have been published yet: this holds of the
    initial state and is kept by every updater of the component. *)
Definition news_without_ideas (s : WorkflowState.t) : Prop :=
  WorkflowState.step s = NEWS -> WorkflowState.ideationOptions s = [].

(** Ideation is rejected; every other call as well. *)
Definition offline : Env := fun n R c => Rejected (Error "Failed to fetch").

Definition sample_item : NewsItem.t := NewsItem.mk "news-0" "Chips" "Faster chips" "https://news/0".

(** The update a scene makes when its call has settled. *)
Definition scene_result (o : Outcome string) : Updates.t :=
  match o with
  | Resolved imageUrl => Updates.literal (Some (Some imageUrl)) None (Some (Some false)) None
  | Rejected _ => generating false
  end.

(** The scene-image calls of a trace, as they are issued and settled. *)
Inductive SceneEvent : Type :=
| SceneIssued (refUrl prompt : string)
| SceneSettled (refUrl prompt : string) (resolved : bool).

Definition scene_event (ev : Event) : option SceneEvent :=
  match ev with
  | Issued c _ =>
      match c with
      | GenerateSceneImage r p => Some (SceneIssued r p)
      | _ => None
      end
  | Settled c o =>
      match c in Call R return Outcome R -> option SceneEvent with
      | GenerateSceneImage r p => fun o => Some (SceneSettled r p (is_resolved o))
      | _ => fun _ => None
      end o
  | _ => None
  end.

Definition scene_events (tr : list Event) : list SceneEvent := omap scene_event tr.

(** What the loop over [segs], its calls numbered from [n], makes of one
    segment [s] of the package. *)
Fixpoint scenes_on (env : Env) (refUrl : string) (n : nat)
    (segs : list ScriptSegment.t) (s : ScriptSegment.t) : ScriptSegment.t :=
  match segs with
  | [] => s
  | seg :: rest =>
      let o := env n _ (GenerateSceneImage refUrl (ScriptSegment.imagePrompt seg)) in
      scenes_on env refUrl (S n) rest
        (update_one (ScriptSegment.id seg) (scene_result o)
           (update_one (ScriptSegment.id seg) (generating true) s))
  end.

Definition scene_marks (env : Env) (refUrl : string) (n : nat)
    (segs : list ScriptSegment.t) : list SceneEvent :=
  concat (imap (fun i seg =>
                  let prompt := ScriptSegment.imagePrompt seg in
                  [SceneIssued refUrl prompt;
                   SceneSettled refUrl prompt
                     (is_resolved (env (n + i) _ (GenerateSceneImage refUrl prompt)))])
            segs).

Fixpoint last_char (s : string) : option ascii :=
  match s with
  | EmptyString => None
  | String c s' =>
      match last_char s' with
      | None => Some c
      | Some d => Some d
      end
  end.

(** The four entries that are not scenes. *)
Definition fixed_names : list string :=
  ["narration.wav"; "thumbnail.png"; "production_metadata.json"; "full_script.txt"].

(** A download succeeded when [fetch] resolved with an [ok] response
    whose body could be read. *)
Definition fetch_ok (o : Outcome FetchResponse.t) : bool :=
  match o with
  | Resolved r => FetchResponse.ok r && is_resolved (FetchResponse.blob r)
  | Rejected _ => false
  end.

Definition fetched_url (ev : Event) : option string :=
  match ev with
  | Issued c _ =>
      match c with
      | Fetch url => Some url
      | _ => None
      end
  | _ => None
  end.

Definition failed_fetch (ev : Event) : option string :=
  match ev with
  | Settled c o =>
      match c in Call R return Outcome R -> option string with
      | Fetch url => fun o => if fetch_ok o then None else Some url
      | _ => fun _ => None
      end o
  | _ => None
  end.

Definition archive_failure (ev : Event) : option Exn :=
  match ev with
  | Settled c o =>
      match c in Call R return Outcome R -> option Exn with
      | GenerateAsync _ => fun o => match o with Rejected e => Some e | Resolved _ => None end
      | _ => fun _ => None
      end o
  | _ => None
  end.

Definition archived_zip (ev : Event) : option JSZip :=
  match ev with
  | Issued c _ =>
      match c with
      | GenerateAsync zip => Some zip
      | _ => None
      end
  | _ => None
  end.

Definition effect_of (ev : Event) : option Effect :=
  match ev with
  | Performed eff => Some eff
  | _ => None
  end.


Definition alert_of (eff : Effect) : option string :=
  match eff with
  | Alert msg => Some msg
  | _ => None
  end.

Definition fetched (tr : list Event) : list string := omap fetched_url tr.
Definition failed_fetches (tr : list Event) : list string := omap failed_fetch tr.
Definition archive_failures (tr : list Event) : list Exn := omap archive_failure tr.
Definition archived (tr : list Event) : list JSZip := omap archived_zip tr.
Definition effects (tr : list Event) : list Effect := omap effect_of tr.
Definition alerts (tr : list Event) : list string := omap alert_of (effects tr).

(** A run that only downloads: it leaves the state alone, performs no
    effect, asks for no archive, fetches only urls satisfying [P], and
    completes normally exactly when none of its downloads failed. *)
Definition downloads_only {A} (P : string -> Prop) (st : AppState.t) (r : Run.t A) : Prop :=
  Run.final r = st /\
  effects (Run.trace r) = [] /\
  archived (Run.trace r) = [] /\
  archive_failures (Run.trace r) = [] /\
  Forall P (fetched (Run.trace r)) /\
  (is_resolved (Run.result r) = true <-> failed_fetches (Run.trace r) = []).

(** What [fetchAsBlob] makes of a settled [fetch]. *)
Definition blob_of (url : string) (o : Outcome FetchResponse.t) : Outcome Blob :=
  match o with
  | Resolved r =>
      if FetchResponse.ok r then FetchResponse.blob r
      else Rejected (Error ("Failed to fetch " ++ url))
  | Rejected e => Rejected e
  end.

(** The entry a segment contributes: its motion if it has one, else its
    frame if it has one, else none. *)
Definition entry_name (i : nat) (seg : ScriptSegment.t) : option string :=
  if Js.truthy (ScriptSegment.videoUrl seg) then Some (App.motion_name i)
  else if Js.truthy (ScriptSegment.imageUrl seg) then Some (App.frame_name i)
  else None.

Definition adds_entry (i : nat) (seg : ScriptSegment.t) (add : JSZip -> JSZip) : Prop :=
  match entry_name i seg with
  | Some name => exists blob, add = zip_file name (ZBlob blob)
  | None => add = (fun zip => zip)
  end.

(** The urls a package stores. *)
Definition stored (pkg : ScriptPackage.t) (url : string) : Prop :=
  ScriptPackage.audioUrl pkg = Some url \/
  ScriptPackage.thumbnailUrl pkg = Some url \/
  exists seg, seg ∈ ScriptPackage.segments pkg /\
    (ScriptSegment.videoUrl seg = Some url \/ ScriptSegment.imageUrl seg = Some url).




Ltac in_fixed :=
  unfold fixed_names;
  repeat first [apply list_elem_of_here | apply list_elem_of_further].


(** Downloads of the urls in [bad] fail with a response that is not
    [ok]; every other download succeeds, and so does the generation of
    the archive. *)
Definition network (bad : list string) : Env :=
  fun n R c =>
    match c in Call R return Outcome R with
    | Fetch url =>
        if bool_decide (url ∈ bad)
        then Resolved (FetchResponse.mk false (Resolved EmptyString))
        else Resolved (FetchResponse.mk true (Resolved ("bytes of " ++ url)))
    | GenerateAsync _ => Resolved "archive"
    | _ => Rejected (Error "unavailable")
    end.



(** Production entered with the three-segment package: nothing has
    been generated yet. *)
Definition bare_workflow : WorkflowState.t :=
  WorkflowState.mk PRODUCTION None [] None (Some three_segment_package) [] (Some "data:ref") None.

Definition bare_state : AppState.t := AppState.mk bare_workflow false false [] None.

(** The thumbnail resolves; the scene whose prompt is [chip] is
    rejected, the other scenes resolve. *)
Definition flaky_scenes : Env :=
  fun n R c =>
    match c in Call R return Outcome R with
    | GenerateThumbnail _ => Resolved "data:thumb"
    | GenerateSceneImage _ prompt =>
        if String.eqb prompt "chip" then Rejected (Error "Scene image failed")
        else Resolved ("data:scene for " ++ prompt)
    | _ => Rejected (Error "unavailable")
    end.

(** ** The handlers of the component

    The functions the markup wires to its buttons, and [loadNews], which
    also runs whenever the step becomes [NEWS]. *)
Inductive Handler : Type :=
| LoadNews
| SelectNews (item : NewsItem.t)
| SelectIdea (idea : IdeationItem.t)
| GenerateReferenceImages
| SelectRefImage (url : string)
| HandleManualRefSelect (file : UploadedFile.t)
| AnimateScene (segment : ScriptSegment.t)
| RegenerateScene (segment : ScriptSegment.t)
| DownloadProduction (now : string)
| OpenApiKeyDialog.

Definition handle (state : WorkflowState.t) (h : Handler) : Async unit :=
  match h with
  | LoadNews => App.loadNews
  | SelectNews item => App.selectNews item
  | SelectIdea idea => App.selectIdea idea
  | GenerateReferenceImages => App.generateReferenceImages state
  | SelectRefImage url => App.selectRefImage state url
  | HandleManualRefSelect file => App.handleManualRefSelect state file
  | AnimateScene segment => App.animateScene segment
  | RegenerateScene segment => App.regenerateScene state segment
  | DownloadProduction now => App.downloadProduction state now
  | OpenApiKeyDialog => App.openApiKeyDialog
  end.

Definition replaces_script (h : Handler) : bool :=
  match h with
  | SelectIdea _ => true
  | _ => false
  end.

Definition starts_narration (h : Handler) : bool :=
  match h with
  | SelectRefImage _ | HandleManualRefSelect _ => true
  | _ => false
  end.

(** The updaters the component passes to [setState]; the indices tell
    whether the one that stores a new script package, and the ones that
    write the narration fields, are among them. *)
Inductive Updater : bool -> bool -> (WorkflowState.t -> WorkflowState.t) -> Prop :=
| U_selectedNews b a item : Updater b a (WorkflowState.with_selectedNews item)
| U_ideation b a ideas : Updater b a (WorkflowState.with_ideation ideas)
| U_selectedIdea b a idea : Updater b a (WorkflowState.with_selectedIdea idea)
| U_script a pkg : Updater true a (WorkflowState.with_script pkg)
| U_refImages b a imgs : Updater b a (WorkflowState.with_refImages imgs)
| U_production b a url : Updater b a (WorkflowState.with_production url)
| U_needsApiKey b a flag : Updater b a (WorkflowState.with_needsApiKey flag)
| U_audioFlag b flag :
    Updater b true (App.on_package (ScriptPackage.with_isAudioGenerating flag))
| U_audio b url flag : Updater b true (App.on_package (ScriptPackage.with_audio url flag))
| U_thumbnail b a url : Updater b a (App.on_package (ScriptPackage.with_thumbnailUrl url))
| U_segment b a id imageUrl videoUrl isGenerating isVideoGenerating :
    Updater b a (App.segment_updater id
                   (Updates.literal imageUrl videoUrl isGenerating isVideoGenerating)).

Definition effect_ok (P : (WorkflowState.t -> WorkflowState.t) -> Prop) (eff : Effect) : Prop :=
  match eff with
  | SetState f => P f
  | _ => True
  end.

(** Every updater a program can pass to [setState], now or in a
    callback, satisfies [P]. *)
Fixpoint all_updaters {A} (P : (WorkflowState.t -> WorkflowState.t) -> Prop)
    (p : Async A) : Prop :=
  match p with
  | Ret _ | Throw _ => True
  | Do eff k => effect_ok P eff /\ all_updaters P k
  | Await c k => forall o, all_updaters P (k o)
  | Spawn c h k => (forall o, Forall (effect_ok P) (h o)) /\ all_updaters P k
  end.

(** The state after the callbacks of a settled promise have run. *)
Definition settle (effs : list Effect) (st : AppState.t) : AppState.t :=
  foldl (fun s eff => apply_effect eff s) st effs.

(** What of a workflow state is the script: the texts of the package and
    of its segments, without the generated artifacts and flags. *)
Definition segment_script (s : ScriptSegment.t) : string * string * string * string :=
  (ScriptSegment.id s, ScriptSegment.timestamp s, ScriptSegment.text s,
   ScriptSegment.imagePrompt s).

Definition package_script (pkg : ScriptPackage.t)
    : string * string * list string * string * string * string * string
      * list (string * string * string * string) :=
  (ScriptPackage.title pkg, ScriptPackage.description pkg, ScriptPackage.tags pkg,
   ScriptPackage.cta pkg, ScriptPackage.thumbnailPrompt pkg, ScriptPackage.mainRefPrompt pkg,
   ScriptPackage.fullScriptPara pkg, segment_script <$> ScriptPackage.segments pkg).

Definition script_of (s : WorkflowState.t) :=
  package_script <$> WorkflowState.scriptPackage s.

(** Every callback recorded in a trace satisfies [Q], however its
    promise settles. *)
Fixpoint callbacks_ok (Q : list Effect -> Prop) (tr : list Event) : Prop :=
  match tr with
  | [] => True
  | Started c h :: tr' => (forall o, Q (h o)) /\ callbacks_ok Q tr'
  | _ :: tr' => callbacks_ok Q tr'
  end.

(** [settle] keeps the property [Inv] of the workflow state. *)
Definition keeps (Inv : WorkflowState.t -> Prop) (effs : list Effect) : Prop :=
  forall st, Inv (AppState.state st) -> Inv (AppState.state (settle effs st)).

(** Ideation resolves with [ideas]; every other call is rejected. *)
Definition ideas_env (ideas : list IdeationItem.t) : Env :=
  fun n R c =>
    match c in Call R return Outcome R with
    | GenerateIdeation _ _ => Resolved ideas
    | _ => Rejected (Error "unavailable")
    end.

(** The blobs the downloads of a trace delivered, each with the url it
    was fetched from. *)
Definition delivered_blob (ev : Event) : option (string * Blob) :=
  match ev with
  | Settled c o =>
      match c in Call R return Outcome R -> option (string * Blob) with
      | Fetch url => fun o =>
          match blob_of url o with
          | Resolved b => Some (url, b)
          | Rejected _ => None
          end
      | _ => fun _ => None
      end o
  | _ => None
  end.

Definition delivered (tr : list Event) : list (string * Blob) := omap delivered_blob tr.

(** The url a segment's entry is downloaded from: that of its motion if
    it has one, else that of its frame. *)
Definition entry_url (seg : ScriptSegment.t) : option string :=
  if Js.truthy (ScriptSegment.videoUrl seg) then ScriptSegment.videoUrl seg
  else if Js.truthy (ScriptSegment.imageUrl seg) then ScriptSegment.imageUrl seg
  else None.

(** [add] defines the entry of segment [i] with a blob that [got] lists
    for the segment's url. *)
Definition adds_download (got : list (string * Blob)) (i : nat) (seg : ScriptSegment.t)
    (add : JSZip -> JSZip) : Prop :=
  match entry_name i seg with
  | Some name =>
      exists url b, entry_url seg = Some url /\ (url, b) ∈ got /\ add = zip_file name (ZBlob b)
  | None => add = (fun zip => zip)
  end.

(** The part of an archive that holds a download of [url], if [url] is
    one. *)
Definition holds_download (got : list (string * Blob)) (url : option string)
    (name : string) (zip : JSZip) : Prop :=
  match url with
  | Some (String c u) => exists b, (String c u, b) ∈ got /\ zip !! name = Some (ZBlob b)
  | Some EmptyString | None => zip !! name = None
  end.

(** ** services/geminiService.ts: images and video

    As for the text-returning functions, each function is given as a
    function of what its awaited calls settle with. *)

(** A part of an answer: [inlineData] is [None] on a part without one,
    and [Some data] on a part with one, where [data] is its [data]
    property, which may be missing. *)
Module Part.
Record t := mk { inlineData : option (option string) }.
End Part.

(** [response.candidates?.[0]?.content]: missing when there is no
    candidate or the first candidate has no content; its [parts] may be
    missing as well. *)
Inductive Content : Type :=
| NoContent
| HasParts (parts : option (list Part.t)).

(** [operation.done], and
    [operation.response?.generatedVideos?.[0]?.video?.uri]. *)
Module Operation.
Record t := mk { done : bool; uri : option string }.
End Operation.

Module Media.

Definition image_url (data : string) : string := "data:image/png;base64," ++ data.

(** [s] without [prefix], if it starts with it. *)
Fixpoint without_prefix (prefix s : string) : option string :=
  match prefix, s with
  | EmptyString, _ => Some s
  | String a prefix', String b s' =>
      if Ascii.eqb a b then without_prefix prefix' s' else None
  | String _ _, EmptyString => None
  end.

(** What [/^data:image\/(png|jpeg|jpg|webp);base64,/] can match, in the
    order of its alternatives. *)
Definition image_prefixes : list string :=
  ["data:image/png;base64,"; "data:image/jpeg;base64,";
   "data:image/jpg;base64,"; "data:image/webp;base64,"].

Fixpoint strip_first (prefixes : list string) (s : string) : string :=
  match prefixes with
  | [] => s
  | prefix :: rest =>
      match without_prefix prefix s with
      | Some s' => s'
      | None => strip_first rest s
      end
  end.

(** [refBase64.replace(/^data:image\/(png|jpeg|jpg|webp);base64,/, '')] *)
Definition cleanBase64 (refBase64 : string) : string :=
  strip_first image_prefixes refBase64.

Definition has_inlineData (p : Part.t) : bool :=
  match Part.inlineData p with
  | Some _ => true
  | None => false
  end.

(** [response.candidates?.[0]?.content?.parts.find(p => p.inlineData)]:
    a missing content ends the chain with [undefined]; [find] of missing
    [parts] throws. *)
Definition find_inline (content : Content) : Outcome (option Part.t) :=
  match content with
  | NoContent => Resolved None
  | HasParts None =>
      Rejected (TypeError "Cannot read properties of undefined (reading 'find')")
  | HasParts (Some parts) => Resolved (List.find has_inlineData parts)
  end.

(** [part?.inlineData?.data] *)
Definition part_data (part : option Part.t) : option string :=
  p ← part; data ← Part.inlineData p; data.

(** [if (part?.inlineData?.data) return `data:image/png;base64,${...}`;
    throw new Error(failure)] *)
Definition image_or (failure : string) (part : option Part.t) : Outcome string :=
  match part_data part with
  | Some (String c d) => Resolved (image_url (String c d))
  | Some EmptyString | None => Rejected (Error failure)
  end.

Definition generateThumbnail (response : Outcome Content) : Outcome string :=
  content ← response;
  part ← find_inline content;
  image_or "Thumbnail failed" part.

Definition generateSceneImage (response : Outcome Content) : Outcome string :=
  content ← response;
  part ← find_inline content;
  image_or "Scene image failed" part.

(** The loop of [generateRefImages] from variation [i] on, [count]
    variations to go; [responses i] is what the call for variation [i]
    settles with. *)
Fixpoint refImages_from (responses : nat -> Outcome Content) (i count : nat)
    (results : list string) : Outcome (list string) :=
  match count with
  | 0 => Resolved results
  | S count' =>
      content ← responses i;
      part ← find_inline content;
      refImages_from responses (S i) count'
        match part_data part with
        | Some (String c d) => results ++ [image_url (String c d)]
        | Some EmptyString | None => results
        end
  end.

Definition generateRefImages (responses : nat -> Outcome Content) : Outcome (list string) :=
  refImages_from responses 0 4 [].

(** The loop [while (!operation.done)] of [generateSceneVideo]:
    [polls k] is what the [k]-th call of [getVideosOperation] settles
    with, each call coming after a wait of ten seconds.  [fuel] bounds
    the number of iterations: the result is [None] when the loop is
    still running after that many.  Otherwise it is how the loop ended,
    with the number of polls made. *)
Fixpoint poll (polls : nat -> Outcome Operation.t) (fuel made : nat)
    (operation : Operation.t) : option (Outcome Operation.t * nat) :=
  if Operation.done operation then Some (Resolved operation, made)
  else
    match fuel with
    | 0 => None
    | S fuel' =>
        match polls made with
        | Resolved next => poll polls fuel' (S made) next
        | Rejected e => Some (Rejected e, S made)
        end
    end.

(** [`${downloadLink}&key=${process.env.API_KEY}`], or the error thrown
    without a link. *)
Definition video_link (apiKey : option string) (operation : Operation.t) : Outcome string :=
  match Operation.uri operation with
  | Some (String c u) => Resolved (String c u ++ "&key=" ++ default "undefined" apiKey)
  | Some EmptyString | None => Rejected (Error "Video URI not found")
  end.

Definition generateSceneVideo (apiKey : option string) (started : Outcome Operation.t)
    (polls : nat -> Outcome Operation.t) (fuel : nat) : option (Outcome string * nat) :=
  match started with
  | Rejected e => Some (Rejected e, 0)
  | Resolved operation =>
      match poll polls fuel 0 operation with
      | Some (ended, made) => Some (ended ≫= video_link apiKey, made)
      | None => None
      end
  end.

End Media.

(** ** The earlier copy of the image functions

    It takes the first part that carries data, and treats missing
    [parts] as no parts. *)
Module Earlier.

(** [response.candidates?.[0]?.content?.parts || []] *)
Definition parts_or_empty (content : Content) : list Part.t :=
  match content with
  | HasParts (Some parts) => parts
  | HasParts None | NoContent => []
  end.

(** [for (const part of parts) if (part.inlineData?.data) return ...] *)
Fixpoint first_data (parts : list Part.t) : option string :=
  match parts with
  | [] => None
  | part :: rest =>
      match Media.part_data (Some part) with
      | Some (String c d) => Some (String c d)
      | Some EmptyString | None => first_data rest
      end
  end.

Definition image_or (failure : string) (content : Content) : Outcome string :=
  match first_data (parts_or_empty content) with
  | Some data => Resolved (Media.image_url data)
  | None => Rejected (Error failure)
  end.

Definition generateThumbnail (response : Outcome Content) : Outcome string :=
  content ← response; image_or "Thumbnail generation failed" content.

Definition generateSceneImage (response : Outcome Content) : Outcome string :=
  content ← response; image_or "No image in response" content.

End Earlier.

(** ** services/geminiService.ts: speech

    Bytes are integers from 0 to 255. *)

(** [DataView.prototype.setUint32] and [setUint16] on a buffer given as
    the list of its bytes; the value is taken modulo the width. *)
Module DataView.

Definition byte (value : Z) (k : nat) : Z :=
  Z.land (Z.shiftr value (8 * Z.of_nat k)) 255.

(** The [size] low bytes of [value] in the order they are stored. *)
Definition bytes_of (size : nat) (value : Z) (littleEndian : bool) : list Z :=
  let low_first := byte value <$> seq 0 size in
  if littleEndian then low_first else reverse low_first.

Definition store (byteOffset : nat) (bs : list Z) (buffer : list Z) : Outcome (list Z) :=
  if (byteOffset + length bs <=? length buffer)%nat
  then Resolved (take byteOffset buffer ++ bs ++ drop (byteOffset + length bs) buffer)%list
  else Rejected (mkExn "RangeError" (Some "Offset is outside the bounds of the DataView")).

Definition setUint32 (byteOffset : nat) (value : Z) (littleEndian : bool)
    (buffer : list Z) : Outcome (list Z) :=
  store byteOffset (bytes_of 4 value littleEndian) buffer.

Definition setUint16 (byteOffset : nat) (value : Z) (littleEndian : bool)
    (buffer : list Z) : Outcome (list Z) :=
  store byteOffset (bytes_of 2 value littleEndian) buffer.

(** Reading back: the number whose bytes, low byte first, are given. *)
Definition number (low_first : list Z) : Z :=
  foldr (fun b rest => b + 256 * rest)%Z 0%Z low_first.

Definition load (size byteOffset : nat) (littleEndian : bool) (buffer : list Z) : Z :=
  let stored := take size (drop byteOffset buffer) in
  number (if littleEndian then stored else reverse stored).

Definition getUint32 : nat -> bool -> list Z -> Z := load 4.
Definition getUint16 : nat -> bool -> list Z -> Z := load 2.

End DataView.

(** A [Blob] with its bytes and its type. *)
Module AudioBlob.
Record t := mk { bytes : list Z; type : string }.
End AudioBlob.

Module Speech.

(** [decodeBase64], given what [atob] makes of its argument: a string of
    characters with codes from 0 to 255, or an exception. *)
Definition decodeBase64 (atob : string -> Outcome string) (base64 : string)
    : Outcome (list Z) :=
  binaryString ← atob base64;
  Resolved ((fun c => Z.of_nat (nat_of_ascii c)) <$> list_ascii_of_string binaryString).

Definition pcmToWav (pcmData : list Z) (sampleRate : Z) : Outcome AudioBlob.t :=
  let size := Z.of_nat (length pcmData) in
  header ← DataView.setUint32 0 0x52494646 false (replicate 44 0%Z);
  header ← DataView.setUint32 4 (36 + size) true header;
  header ← DataView.setUint32 8 0x57415645 false header;
  header ← DataView.setUint32 12 0x666d7420 false header;
  header ← DataView.setUint32 16 16 true header;
  header ← DataView.setUint16 20 1 true header;
  header ← DataView.setUint16 22 1 true header;
  header ← DataView.setUint32 24 sampleRate true header;
  header ← DataView.setUint32 28 (sampleRate * 2) true header;
  header ← DataView.setUint16 32 2 true header;
  header ← DataView.setUint16 34 16 true header;
  header ← DataView.setUint32 36 0x64617461 false header;
  header ← DataView.setUint32 40 size true header;
  Resolved (AudioBlob.mk (header ++ pcmData) "audio/wav").

(** [generateSpeech], given the answer's
    [candidates?.[0]?.content?.parts?.[0]?.inlineData?.data] and the two
    browser functions it calls. *)
Definition generateSpeech (atob : string -> Outcome string)
    (createObjectURL : AudioBlob.t -> string)
    (response : Outcome (option string)) : Outcome string :=
  base64Audio ← response;
  match base64Audio with
  | Some (String c d) =>
      pcmBytes ← decodeBase64 atob (String c d);
      wavBlob ← pcmToWav pcmBytes 24000;
      Resolved (createObjectURL wavBlob)
  | Some EmptyString | None => Rejected (Error "Audio generation failed")
  end.

End Speech.

(** A key is selected; video generation settles with [o]; every other
    call is rejected. *)
Definition keyed (o : Outcome string) : Env :=
  fun n R c =>
    match c in Call R return Outcome R with
    | HasSelectedApiKey => Resolved (Some true)
    | GenerateSceneVideo _ _ => o
    | _ => Rejected (Error "unavailable")
    end.

(** An operation that is pending, one that is done, and two ways of
    answering polls: done at the third poll, and never done. *)
Definition pending_operation : Operation.t := Operation.mk false None.

Definition done_operation : Operation.t := Operation.mk true (Some "https://video/1").

Definition done_at_third_poll : nat -> Outcome Operation.t :=
  fun k => Resolved (if (k <? 2)%nat then pending_operation else done_operation).

Definition never_done : nat -> Outcome Operation.t :=
  fun k => Resolved pending_operation.

(** * Properties *)

(** ** Running composed programs *)

Section RunLaws.
Context (env : Env).

Lemma after_after {A} (xs ys : list Event) (r : Run.t A) :
  Run.after xs (Run.after ys r) = Run.after (xs ++ ys) r.
Proof. destruct r; unfold Run.after; simpl. by rewrite app_assoc. Qed.

Lemma after_nil {A} (r : Run.t A) : Run.after [] r = r.
Proof. by destruct r. Qed.

Lemma run_bind {A B} (p : Async A) (f : A -> Async B) n st :
  run env n (p ≫= f) st = then_run env (run env n p st) f.
Proof.
  unfold mbind, Async_bind, then_run.
  revert n st; induction p as [a|e|eff k IH|R c k IH|R c h k IH]; intros n st; simpl.
  - by rewrite after_nil.
  - done.
  - rewrite IH. destruct (Run.result (run env n k (apply_effect eff st))); simpl; [|done].
    by rewrite after_after.
  - rewrite IH. destruct (Run.result (run env (S n) (k (env n R c)) st)); simpl; [|done].
    by rewrite after_after.
  - rewrite IH. destruct (Run.result (run env n k st)); simpl; [|done].
    by rewrite after_after.
Qed.

Lemma run_attempt {A} (p : Async A) n st :
  run env n (attempt p) st =
  let r := run env n p st in
  Run.mk (Run.trace r) (Run.final r) (Resolved (Run.result r)) (Run.awaited r).
Proof.
  revert n st; induction p as [a|e|eff k IH|R c k IH|R c h k IH]; intros n st; simpl;
    try done; by rewrite IH.
Qed.

Lemma run_try_catch {A} (body : Async A) (handler : Exn -> Async A) n st :
  run env n (try_catch_async body handler) st =
  let r := run env n body st in
  match Run.result r with
  | Resolved a => r
  | Rejected e => Run.after (Run.trace r) (run env (Run.awaited r) (handler e) (Run.final r))
  end.
Proof.
  unfold try_catch_async. rewrite run_bind, run_attempt. unfold then_run; simpl.
  destruct (run env n body st) as [tr fin [a|e] k]; simpl; [|done].
  unfold Run.after; simpl. by rewrite app_nil_r.
Qed.

End RunLaws.

(** ** Objects *)

Lemma get_set_prop k v o : get_prop k (set_prop k v o) = Some v.
Proof.
  induction o as [|[k' v'] o IH]; simpl.
  - by rewrite String.eqb_refl.
  - destruct (String.eqb k k') eqn:E; simpl.
    + by rewrite String.eqb_refl.
    + by rewrite E.
Qed.

Lemma get_set_prop_ne k k' v o :
  k ≠ k' -> get_prop k' (set_prop k v o) = get_prop k' o.
Proof.
  intros Hne. induction o as [|[k0 v0] o IH]; simpl.
  - destruct (String.eqb k' k) eqn:E; [|done].
    apply String.eqb_eq in E. congruence.
  - destruct (String.eqb k k0) eqn:E; simpl.
    + apply String.eqb_eq in E; subst k0.
      destruct (String.eqb k' k) eqn:E'; [|done].
      apply String.eqb_eq in E'. congruence.
    + by rewrite IH.
Qed.

Lemma with_id_has_id tag item idx :
  exists props, GeminiService.with_id tag item idx = JObj props /\
    get_prop "id" props = Some (JStr (tag ++ "-" ++ Js.toString idx)).
Proof. eexists; split; [done|]. apply get_set_prop. Qed.

Lemma segment_of_id v seg :
  Typed.segment_of v = Some seg ->
  exists o, v = JObj o /\ get_prop "id" o = Some (JStr (ScriptSegment.id seg)).
Proof.
  destruct v as [| | | |?|o]; try done. simpl. intros H.
  exists o; split; [done|].
  destruct (get_prop "id" o) as [[| | |s| |]|]; try done.
  simpl in H. repeat (simplify_option_eq; try done).
Qed.

Lemma package_of_segments v pkg :
  Typed.package_of v = Some pkg ->
  exists l, json_segments v = Some l /\ mapM Typed.segment_of l = Some (ScriptPackage.segments pkg).
Proof.
  destruct v as [| | | |?|o]; try done. simpl. intros H.
  destruct (get_prop "segments" o) as [[| | | |l|]|] eqn:Hs;
    try (exfalso; simplify_option_eq; done).
  exists l; split; [done|].
  simplify_option_eq. done.
Qed.

(** ** [fetchTrendingNews] and [generateScriptPackage] *)

Lemma array_map_with_id tag expr data items :
  array_map expr data (GeminiService.with_id tag) = Resolved items ->
  exists l, data = JArr l /\ items = imap (fun idx item => GeminiService.with_id tag item idx) l.
Proof. destruct data; simpl; intros H; try discriminate. injection H as <-. eauto. Qed.

Lemma with_id_lookup tag (l : list json) idx item :
  imap (fun idx item => GeminiService.with_id tag item idx) l !! idx = Some item ->
  exists props, item = JObj props /\
    get_prop "id" props = Some (JStr (tag ++ "-" ++ Js.toString idx)).
Proof.
  rewrite list_lookup_imap. destruct (l !! idx) as [x|]; simpl; [|done].
  intros [= <-]. apply with_id_has_id.
Qed.

(** C9.  Whatever text the gateway answers with, [fetchTrendingNews]
    resolves: with the empty list when the text does not parse, and, when
    it parses to an array, with one item per element, in order.  Every
    item returned is an object whose [id] is [news-<position>], whatever
    the element was and whether or not it carried an [id] of its own. *)
Theorem fetchTrendingNews_resolves_with_positional_ids (text : ResponseText) :
  exists items, GeminiService.fetchTrendingNews text = Resolved items /\
    (text = Text Unparseable -> items = []) /\
    (forall l, text = Text (Parsed (JArr l)) -> length items = length l) /\
    (forall idx item, items !! idx = Some item ->
       exists props, item = JObj props /\
         get_prop "id" props = Some (JStr ("news-" ++ Js.toString idx))).
Proof.
  unfold GeminiService.fetchTrendingNews.
  destruct text as [|[|data]]; simpl.
  - exists []. repeat split; done.
  - exists []. repeat split; done.
  - destruct (array_map "data" data (GeminiService.with_id "news")) as [items|e] eqn:Hmap; simpl.
    + exists items. apply array_map_with_id in Hmap as (l & -> & ->).
      repeat split; try done.
      * intros l' [= <-]. apply length_imap.
      * intros idx item H. by apply with_id_lookup in H.
    + exists []. repeat split; try done.
      intros l [= ->]. discriminate.
Qed.

Lemma fetchTrendingNews_resolves_with_positional_ids_witness :
  exists items,
    GeminiService.fetchTrendingNews sample_news = Resolved items /\
    length items = 2 /\
    exists props, items !! 1 = Some (JObj props) /\
      get_prop "id" props = Some (JStr "news-1").
Proof.
  destruct (fetchTrendingNews_resolves_with_positional_ids sample_news)
    as (items & Hrun & _ & Hlen & Hid).
  exists items. split; [exact Hrun|]. split; [exact (Hlen _ eq_refl)|].
  assert (Hitem : exists item, items !! 1 = Some item).
  { vm_compute in Hrun. injection Hrun as <-. eexists; reflexivity. }
  destruct Hitem as [item Hitem].
  destruct (Hid 1 item Hitem) as (props & -> & Hprop).
  exists props. split; [exact Hitem | exact Hprop].
Defined.

(** [selectIdea] stores the package the service resolved with, as it is,
    and moves to the script step. *)
Lemma selectIdea_publishes (env : Env) n idea st pkg :
  env n _ (GenerateScriptPackage (IdeationItem.title idea) (IdeationItem.description idea))
    = Resolved pkg ->
  AppState.state (Run.final (run env n (App.selectIdea idea) st))
    = WorkflowState.with_script pkg (WorkflowState.with_selectedIdea idea (AppState.state st)).
Proof. intros H. simpl. rewrite H. done. Qed.

(** What [generateScriptPackage] resolves with. *)
Lemma generateScriptPackage_resolved text j :
  GeminiService.generateScriptPackage text = Resolved j ->
  exists props raw,
    text = Text (Parsed (JObj props)) /\
    get_prop "segments" props = Some (JArr raw) /\
    j = JObj (set_prop "segments"
                (JArr (imap (fun idx s => GeminiService.with_id "seg" s idx) raw)) props).
Proof.
  unfold GeminiService.generateScriptPackage.
  destruct text as [|[|data]]; simpl; try discriminate.
  destruct data as [| | | | |props]; simpl; try discriminate.
  destruct (get_prop "segments" props) as [[| | | |raw|]|] eqn:Hs; simpl; try discriminate.
  intros [= <-]. by exists props, raw.
Qed.

(** Read at its declared type, a generated package has one segment per
    segment of the response, with the positional ids. *)
Lemma generated_package_segments props raw pkg :
  Typed.package_of
    (JObj (set_prop "segments"
             (JArr (imap (fun idx s => GeminiService.with_id "seg" s idx) raw)) props))
  = Some pkg ->
  length (ScriptPackage.segments pkg) = length raw /\
  forall idx seg, ScriptPackage.segments pkg !! idx = Some seg ->
    ScriptSegment.id seg = "seg-" ++ Js.toString idx.
Proof.
  intros H. apply package_of_segments in H as (l & Hl & Hm).
  simpl in Hl. rewrite get_set_prop in Hl. injection Hl as <-.
  apply mapM_Some in Hm. split.
  - apply Forall2_length in Hm. rewrite <- Hm. apply length_imap.
  - intros idx seg Hseg.
    destruct (Forall2_lookup_r _ _ _ _ _ Hm Hseg) as (v & Hv & Hdec).
    apply segment_of_id in Hdec as (o & -> & Ho).
    apply with_id_lookup in Hv as (sp & [= <-] & Hsp).
    rewrite Hsp in Ho. by injection Ho as <-.
Qed.

(** The ids of a generated package are pairwise distinct, and
    [updateSegment] keeps them so: no object literal of the program
    names [id]. *)
Lemma generated_ids_distinct text j pkg :
  GeminiService.generateScriptPackage text = Resolved j ->
  Typed.package_of j = Some pkg ->
  NoDup (ScriptSegment.id <$> ScriptPackage.segments pkg).
Proof.
  intros Hrun Hpkg. apply generateScriptPackage_resolved in Hrun as (props & raw & _ & _ & ->).
  apply (generated_package_segments props raw) in Hpkg as [_ Hids].
  apply NoDup_alt. intros i k id. rewrite !list_lookup_fmap.
  destruct (ScriptPackage.segments pkg !! i) as [si|] eqn:Hi; [|done].
  destruct (ScriptPackage.segments pkg !! k) as [sk|] eqn:Hk; [|done].
  simpl. intros [= <-] [= Heq].
  rewrite (Hids _ _ Hi), (Hids _ _ Hk) in Heq.
  apply (inj (String.app _)) in Heq. by apply (inj pretty) in Heq.
Qed.

Lemma updated_ids_unchanged id imageUrl videoUrl isGenerating isVideoGenerating
    (segs : list ScriptSegment.t) :
  let updates := Updates.literal imageUrl videoUrl isGenerating isVideoGenerating in
  ScriptSegment.id <$> ((fun s => if String.eqb (ScriptSegment.id s) id
                                  then merge s updates else s) <$> segs)
  = ScriptSegment.id <$> segs.
Proof.
  intros updates. rewrite <- list_fmap_compose. apply list_fmap_ext.
  intros i s _. simpl. by destruct (String.eqb (ScriptSegment.id s) id).
Qed.

(** C1 (as amended).  [generateScriptPackage] accepts every response
    whose text parses to an object with an array under [segments], of
    any length, and only those.  The package it resolves with has the
    properties of the response and one segment per segment of the
    response, in order; the segment at position [idx] is an object whose
    [id] is [seg-<idx>].  Read at its declared type, the package has as
    many segments as the response and the same ids. *)
Theorem script_segments_follow_response :
  (forall props raw,
     get_prop "segments" props = Some (JArr raw) ->
     GeminiService.generateScriptPackage (Text (Parsed (JObj props)))
     = Resolved (JObj (set_prop "segments"
                         (JArr (imap (fun idx s => GeminiService.with_id "seg" s idx) raw))
                         props))) /\
  (forall text j,
     GeminiService.generateScriptPackage text = Resolved j ->
     exists props raw segs,
       text = Text (Parsed (JObj props)) /\
       get_prop "segments" props = Some (JArr raw) /\
       json_segments j = Some segs /\
       length segs = length raw /\
       (forall idx seg, segs !! idx = Some seg ->
          exists sp, seg = JObj sp /\
            get_prop "id" sp = Some (JStr ("seg-" ++ Js.toString idx))) /\
       (forall pkg, Typed.package_of j = Some pkg ->
          length (ScriptPackage.segments pkg) = length raw /\
          forall idx seg, ScriptPackage.segments pkg !! idx = Some seg ->
            ScriptSegment.id seg = "seg-" ++ Js.toString idx)).
Proof.
  split.
  - intros props raw H. unfold GeminiService.generateScriptPackage. simpl. by rewrite H.
  - intros text j Hrun.
    apply generateScriptPackage_resolved in Hrun as (props & raw & -> & Hraw & ->).
    exists props, raw, (imap (fun idx s => GeminiService.with_id "seg" s idx) raw).
    split; [done|]. split; [done|]. split; [|split; [|split]].
    + simpl. by rewrite get_set_prop.
    + apply length_imap.
    + intros idx seg H. by apply with_id_lookup in H.
    + intros pkg Hpkg. by apply (generated_package_segments props raw).
Qed.

(** C1, as stated, fails: a response with three segments is accepted,
    not rejected, and [selectIdea] publishes a package of three segments
    and enters the script step. *)
Lemma three_segment_script_is_published :
  exists j,
    GeminiService.generateScriptPackage three_segment_response = Resolved j /\
    Typed.package_of j = Some three_segment_package /\
    length (ScriptPackage.segments three_segment_package) = 3 /\
    3 <> 10 /\
    let after := AppState.state
                   (Run.final (run (script_env three_segment_package) 0
                                 (App.selectIdea sample_idea) AppState.initial)) in
    WorkflowState.scriptPackage after = Some three_segment_package /\
    WorkflowState.step after = SCRIPT.
Proof.
  eexists. split; [vm_compute; reflexivity|].
  split; [vm_compute; reflexivity|].
  repeat split; done.
Qed.

Lemma script_segments_follow_response_witness :
  exists j segs,
    GeminiService.generateScriptPackage three_segment_response = Resolved j /\
    json_segments j = Some segs /\
    length segs = 3 /\
    (forall pkg, Typed.package_of j = Some pkg -> length (ScriptPackage.segments pkg) = 3).
Proof.
  destruct (GeminiService.generateScriptPackage three_segment_response) as [j|e] eqn:Hrun;
    [|vm_compute in Hrun; discriminate].
  destruct (proj2 script_segments_follow_response _ _ Hrun)
    as (props & raw & segs & Htext & Hraw & Hsegs & Hlen & _ & Htyped).
  injection Htext as <-.
  vm_compute in Hraw. injection Hraw as <-.
  exists j, segs. split; [reflexivity|]. split; [exact Hsegs|]. split; [exact Hlen|].
  intros pkg Hpkg. exact (proj1 (Htyped pkg Hpkg)).
Defined.

(** ** [updateSegment] *)

Lemma segment_updater_package id updates prev pkg :
  WorkflowState.scriptPackage prev = Some pkg ->
  WorkflowState.scriptPackage (App.segment_updater id updates prev)
  = Some (ScriptPackage.with_segments (update_one id updates <$> ScriptPackage.segments pkg) pkg).
Proof. intros H. unfold App.segment_updater, App.on_package. by rewrite H. Qed.

Lemma segment_updater_no_package id updates prev :
  WorkflowState.scriptPackage prev = None ->
  App.segment_updater id updates prev = prev.
Proof. intros H. unfold App.segment_updater, App.on_package. by rewrite H. Qed.

(** [updateSegment] touches nothing but the segments of the package. *)
Lemma segment_updater_rest id updates prev :
  let next := App.segment_updater id updates prev in
  WorkflowState.step next = WorkflowState.step prev /\
  WorkflowState.selectedNews next = WorkflowState.selectedNews prev /\
  WorkflowState.ideationOptions next = WorkflowState.ideationOptions prev /\
  WorkflowState.selectedIdea next = WorkflowState.selectedIdea prev /\
  WorkflowState.refImages next = WorkflowState.refImages prev /\
  WorkflowState.selectedRefImageUrl next = WorkflowState.selectedRefImageUrl prev /\
  WorkflowState.needsApiKey next = WorkflowState.needsApiKey prev.
Proof.
  unfold App.segment_updater, App.on_package.
  by destruct (WorkflowState.scriptPackage prev).
Qed.

Lemma update_one_lookup id updates (segs : list ScriptSegment.t) k s :
  segs !! k = Some s ->
  (update_one id updates <$> segs) !! k = Some (update_one id updates s).
Proof. intros H. by rewrite list_lookup_fmap, H. Qed.

Lemma update_one_other id updates s :
  ScriptSegment.id s <> id -> update_one id updates s = s.
Proof.
  intros Hne. unfold update_one.
  destruct (String.eqb (ScriptSegment.id s) id) eqn:E; [|done].
  by apply String.eqb_eq in E.
Qed.

Lemma update_one_same id updates s :
  ScriptSegment.id s = id -> update_one id updates s = merge s updates.
Proof. intros <-. unfold update_one. by rewrite String.eqb_refl. Qed.

(** The frame of one update: a segment with another id, and the
    narration and thumbnail of the package, come out as they went in. *)
Lemma segment_updater_frame id updates prev pkg k s :
  WorkflowState.scriptPackage prev = Some pkg ->
  ScriptPackage.segments pkg !! k = Some s ->
  ScriptSegment.id s <> id ->
  exists pkg',
    WorkflowState.scriptPackage (App.segment_updater id updates prev) = Some pkg' /\
    ScriptPackage.segments pkg' !! k = Some s /\
    ScriptPackage.audioUrl pkg' = ScriptPackage.audioUrl pkg /\
    ScriptPackage.isAudioGenerating pkg' = ScriptPackage.isAudioGenerating pkg /\
    ScriptPackage.thumbnailUrl pkg' = ScriptPackage.thumbnailUrl pkg.
Proof.
  intros Hpkg Hk Hne. eexists. split; [by apply segment_updater_package|].
  simpl. split; [|done].
  by rewrite (update_one_lookup _ _ _ _ _ Hk), update_one_other.
Qed.

(** What [regenerateScene] does, event by event, once a reference image
    is selected. *)
Lemma regenerateScene_trace (env : Env) n state segment st c u :
  WorkflowState.selectedRefImageUrl state = Some (String c u) ->
  let id := ScriptSegment.id segment in
  let call := GenerateSceneImage (String c u) (ScriptSegment.imagePrompt segment) in
  let pending := apply_effect (SetState (App.segment_updater id (generating true))) st in
  let last := match env n _ call with
              | Resolved imageUrl => regenerated imageUrl
              | Rejected _ => generating false
              end in
  run env n (App.regenerateScene state segment) st
  = Run.mk [Performed (SetState (App.segment_updater id (generating true)));
            Issued call pending;
            Settled call (env n _ call);
            Performed (SetState (App.segment_updater id last))]
      (apply_effect (SetState (App.segment_updater id last)) pending)
      (Resolved tt) (S n).
Proof.
  intros Href. unfold App.regenerateScene. rewrite Href. simpl.
  by destruct (env n string _).
Qed.

Lemma packaged_set_state f st :
  packaged (apply_effect (SetState f) st)
  = WorkflowState.scriptPackage (f (AppState.state st)).
Proof. done. Qed.

Lemma on_package_some f prev pkg :
  WorkflowState.scriptPackage prev = Some pkg ->
  WorkflowState.scriptPackage (App.on_package f prev) = Some (f pkg).
Proof. intros H. unfold App.on_package. by rewrite H. Qed.

Lemma packaged_update id updates st pkg :
  packaged st = Some pkg ->
  packaged (apply_effect (SetState (App.segment_updater id updates)) st)
  = Some (ScriptPackage.with_segments (update_one id updates <$> ScriptPackage.segments pkg) pkg).
Proof. intros H. rewrite packaged_set_state. by apply segment_updater_package. Qed.

(** ** Regeneration *)

(** C2 (as amended).  With a reference image selected, regenerating a
    segment's image first marks the segment as generating and nothing
    else: when the scene-image call is issued the segment still has the
    [imageUrl] and the [videoUrl] it had.  When the call resolves, one
    update stores the new [imageUrl], sets [videoUrl] to null and clears
    the flag.  In every state the component goes through, the segment
    has either its previous image and motion, or the new image and no
    motion. *)
Theorem regenerateScene_resets_motion_with_new_image
    (env : Env) n state segment st c u pkg k s :
  WorkflowState.selectedRefImageUrl state = Some (String c u) ->
  packaged st = Some pkg ->
  ScriptPackage.segments pkg !! k = Some s ->
  ScriptSegment.id s = ScriptSegment.id segment ->
  let call := GenerateSceneImage (String c u) (ScriptSegment.imagePrompt segment) in
  let out := run env n (App.regenerateScene state segment) st in
  (exists pending pkg1 s1,
     states_at_issue (Run.trace out) = [pending] /\
     packaged pending = Some pkg1 /\
     ScriptPackage.segments pkg1 !! k = Some s1 /\
     ScriptSegment.imageUrl s1 = ScriptSegment.imageUrl s /\
     ScriptSegment.videoUrl s1 = ScriptSegment.videoUrl s /\
     ScriptSegment.isGenerating s1 = Some true) /\
  (forall imageUrl, env n _ call = Resolved imageUrl ->
     exists pkg2 s2,
       packaged (Run.final out) = Some pkg2 /\
       ScriptPackage.segments pkg2 !! k = Some s2 /\
       ScriptSegment.imageUrl s2 = Some imageUrl /\
       ScriptSegment.videoUrl s2 = None /\
       ScriptSegment.isGenerating s2 = Some false) /\
  (forall mid, mid ∈ states_after st (Run.trace out) ->
     exists pkgm sm,
       packaged mid = Some pkgm /\
       ScriptPackage.segments pkgm !! k = Some sm /\
       ((ScriptSegment.imageUrl sm = ScriptSegment.imageUrl s /\
         ScriptSegment.videoUrl sm = ScriptSegment.videoUrl s) \/
        (exists imageUrl, env n _ call = Resolved imageUrl /\
           ScriptSegment.imageUrl sm = Some imageUrl /\
           ScriptSegment.videoUrl sm = None))).
Proof.
  intros Href Hpkg Hk Hid call out.
  subst out. rewrite (regenerateScene_trace env n state segment st c u Href).
  cbn [Run.trace Run.final].
  set (id := ScriptSegment.id segment) in *.
  set (pending := apply_effect (SetState (App.segment_updater id (generating true))) st).
  pose proof (packaged_update id (generating true) st pkg Hpkg) as Hpending.
  fold pending in Hpending.
  pose proof (update_one_lookup id (generating true) _ _ _ Hk) as Hk1.
  rewrite (update_one_same _ _ _ Hid) in Hk1.
  split; [|split].
  - exists pending. eexists _, _. split; [done|]. split; [exact Hpending|]. split; [exact Hk1|]. done.
  - intros imageUrl Hcall. fold call. rewrite Hcall.
    eexists _, _. split; [exact (packaged_update id _ pending _ Hpending)|].
    split.
    + simpl. rewrite (update_one_lookup _ _ _ _ _ Hk1).
      rewrite update_one_same; [done|exact Hid].
    + done.
  - intros mid Hmid. simpl in Hmid. fold pending in Hmid. fold call in Hmid.
    apply elem_of_cons in Hmid as [->|Hmid].
    + eexists _, _. split; [exact Hpending|]. split; [exact Hk1|]. left; done.
    + apply elem_of_cons in Hmid as [->|Hmid]; [|by apply elem_of_nil in Hmid].
      eexists _, _. split; [exact (packaged_update id _ pending _ Hpending)|].
      split.
      * simpl. rewrite (update_one_lookup _ _ _ _ _ Hk1).
        rewrite update_one_same; [done|exact Hid].
      * destruct (env n string call) as [imageUrl|e] eqn:Hcall.
        -- right. exists imageUrl. done.
        -- left. done.
Qed.

(** C2, as stated, fails: when the new scene-image call is issued for an
    animated segment, the segment is marked as generating and still has
    its motion artifact; and when that call fails, it keeps it. *)
Lemma regenerateScene_keeps_motion_while_pending :
  let out := run (scene_env (Resolved "data:new")) 0
               (App.regenerateScene production_workflow animated_segment) production_state in
  let failed := run (scene_env (Rejected (Error "Scene image failed"))) 0
                  (App.regenerateScene production_workflow animated_segment) production_state in
  (exists pending pkg1 s1,
     states_at_issue (Run.trace out) = [pending] /\
     packaged pending = Some pkg1 /\
     ScriptPackage.segments pkg1 !! 0 = Some s1 /\
     ScriptSegment.isGenerating s1 = Some true /\
     ScriptSegment.videoUrl s1 = Some "https://video/0") /\
  (exists pkg2 s2,
     packaged (Run.final failed) = Some pkg2 /\
     ScriptPackage.segments pkg2 !! 0 = Some s2 /\
     ScriptSegment.videoUrl s2 = Some "https://video/0").
Proof.
  split.
  - eexists _, _, _. repeat split; reflexivity.
  - eexists _, _. repeat split; reflexivity.
Qed.

Lemma regenerateScene_resets_motion_with_new_image_witness :
  let out := run (scene_env (Resolved "data:new")) 0
               (App.regenerateScene production_workflow animated_segment) production_state in
  exists pkg2 s2,
    packaged (Run.final out) = Some pkg2 /\
    ScriptPackage.segments pkg2 !! 0 = Some s2 /\
    ScriptSegment.imageUrl s2 = Some "data:new" /\
    ScriptSegment.videoUrl s2 = None /\
    ScriptSegment.isGenerating s2 = Some false.
Proof.
  exact (proj1 (proj2
    (regenerateScene_resets_motion_with_new_image
       (scene_env (Resolved "data:new")) 0 production_workflow animated_segment
       production_state "d"%char "ata:ref" sample_package 0 animated_segment
       eq_refl eq_refl eq_refl eq_refl)) "data:new" eq_refl).
Defined.

(** C10.  When the scene-image call of a regeneration is rejected, every
    segment of the package keeps its [imageUrl] and [videoUrl], and all
    its other properties except [isGenerating], which is [false] on the
    segment that was being regenerated and as before on the others;
    nothing else in the workflow state changes, and nothing is thrown. *)
Theorem regenerateScene_failure_retains_artifacts
    (env : Env) n state segment st c u e pkg :
  WorkflowState.selectedRefImageUrl state = Some (String c u) ->
  packaged st = Some pkg ->
  env n _ (GenerateSceneImage (String c u) (ScriptSegment.imagePrompt segment)) = Rejected e ->
  let out := run env n (App.regenerateScene state segment) st in
  Run.result out = Resolved tt /\
  exists pkg',
    packaged (Run.final out) = Some pkg' /\
    AppState.state (Run.final out)
      = WorkflowState.with_scriptPackage pkg' (AppState.state st) /\
    pkg' = ScriptPackage.with_segments (ScriptPackage.segments pkg') pkg /\
    length (ScriptPackage.segments pkg') = length (ScriptPackage.segments pkg) /\
    forall k s, ScriptPackage.segments pkg !! k = Some s ->
      exists s',
        ScriptPackage.segments pkg' !! k = Some s' /\
        ScriptSegment.imageUrl s' = ScriptSegment.imageUrl s /\
        ScriptSegment.videoUrl s' = ScriptSegment.videoUrl s /\
        ScriptSegment.id s' = ScriptSegment.id s /\
        ScriptSegment.timestamp s' = ScriptSegment.timestamp s /\
        ScriptSegment.text s' = ScriptSegment.text s /\
        ScriptSegment.imagePrompt s' = ScriptSegment.imagePrompt s /\
        ScriptSegment.isVideoGenerating s' = ScriptSegment.isVideoGenerating s /\
        ScriptSegment.isGenerating s'
          = (if String.eqb (ScriptSegment.id s) (ScriptSegment.id segment)
             then Some false else ScriptSegment.isGenerating s).
Proof.
  intros Href Hpkg Hcall out. subst out.
  rewrite (regenerateScene_trace env n state segment st c u Href), Hcall.
  cbn [Run.result Run.final]. split; [done|].
  set (id := ScriptSegment.id segment).
  set (pending := apply_effect (SetState (App.segment_updater id (generating true))) st).
  pose proof (packaged_update id (generating true) st pkg Hpkg) as Hpending.
  fold pending in Hpending.
  eexists. split; [exact (packaged_update id (generating false) pending _ Hpending)|].
  split; [|split; [done|split]].
  - unfold packaged in Hpkg. simpl.
    unfold App.segment_updater at 1, App.on_package.
    rewrite (segment_updater_package _ _ _ _ Hpkg). simpl.
    destruct (AppState.state st); simpl in *. by rewrite Hpkg.
  - simpl. by rewrite !length_fmap.
  - intros k s Hk. simpl.
    rewrite (update_one_lookup _ _ _ _ _ (update_one_lookup _ _ _ _ _ Hk)).
    eexists. split; [done|].
    unfold update_one. fold id.
    destruct (String.eqb (ScriptSegment.id s) id) eqn:E; simpl.
    + rewrite E. done.
    + rewrite E. done.
Qed.

Lemma regenerateScene_failure_retains_artifacts_witness :
  let out := run (scene_env (Rejected (Error "Scene image failed"))) 0
               (App.regenerateScene production_workflow animated_segment) production_state in
  exists pkg' s',
    packaged (Run.final out) = Some pkg' /\
    ScriptPackage.segments pkg' !! 0 = Some s' /\
    ScriptSegment.imageUrl s' = Some "data:frame-0" /\
    ScriptSegment.videoUrl s' = Some "https://video/0" /\
    ScriptSegment.isGenerating s' = Some false.
Proof.
  destruct (regenerateScene_failure_retains_artifacts
              (scene_env (Rejected (Error "Scene image failed"))) 0
              production_workflow animated_segment production_state
              "d"%char "ata:ref" (Error "Scene image failed") sample_package
              eq_refl eq_refl eq_refl)
    as (_ & pkg' & Hpkg' & _ & _ & _ & Hsegs).
  destruct (Hsegs 0 animated_segment eq_refl)
    as (s' & Hs' & Himg & Hvid & _ & _ & _ & _ & _ & Hgen).
  exists pkg', s'. repeat split; assumption.
Defined.

Lemma distinct_positions_distinct_ids (segs : list ScriptSegment.t) i j si sj :
  NoDup (ScriptSegment.id <$> segs) ->
  segs !! i = Some si -> segs !! j = Some sj -> i <> j ->
  ScriptSegment.id sj <> ScriptSegment.id si.
Proof.
  intros Hnd Hi Hj Hij Heq. apply Hij.
  apply (NoDup_lookup _ i j (ScriptSegment.id si) Hnd).
  - by rewrite list_lookup_fmap, Hi.
  - rewrite list_lookup_fmap, Hj. simpl. by rewrite Heq.
Qed.

(** C3.  In a package whose segments have pairwise distinct ids,
    regenerating the image of the segment at position [i] leaves the
    segment at any other position [j] as it was, in all its properties,
    and leaves the narration and the thumbnail of the package as they
    were.  The same holds of each single update the regeneration makes,
    applied to whatever state the workflow is in at that moment. *)
Theorem regenerateScene_leaves_siblings (env : Env) n state st pkg i j si sj :
  packaged st = Some pkg ->
  NoDup (ScriptSegment.id <$> ScriptPackage.segments pkg) ->
  ScriptPackage.segments pkg !! i = Some si ->
  ScriptPackage.segments pkg !! j = Some sj ->
  i <> j ->
  let out := run env n (App.regenerateScene state si) st in
  (exists pkg',
     packaged (Run.final out) = Some pkg' /\
     ScriptPackage.segments pkg' !! j = Some sj /\
     ScriptPackage.audioUrl pkg' = ScriptPackage.audioUrl pkg /\
     ScriptPackage.isAudioGenerating pkg' = ScriptPackage.isAudioGenerating pkg /\
     ScriptPackage.thumbnailUrl pkg' = ScriptPackage.thumbnailUrl pkg) /\
  (forall updater, Performed (SetState updater) ∈ Run.trace out ->
     forall prev pkgp s,
       WorkflowState.scriptPackage prev = Some pkgp ->
       ScriptPackage.segments pkgp !! j = Some s ->
       ScriptSegment.id s = ScriptSegment.id sj ->
       exists pkgq,
         WorkflowState.scriptPackage (updater prev) = Some pkgq /\
         ScriptPackage.segments pkgq !! j = Some s /\
         ScriptPackage.audioUrl pkgq = ScriptPackage.audioUrl pkgp /\
         ScriptPackage.isAudioGenerating pkgq = ScriptPackage.isAudioGenerating pkgp /\
         ScriptPackage.thumbnailUrl pkgq = ScriptPackage.thumbnailUrl pkgp).
Proof.
  intros Hpkg Hnd Hi Hj Hij out.
  pose proof (distinct_positions_distinct_ids _ _ _ _ _ Hnd Hi Hj Hij) as Hne.
  subst out.
  destruct (WorkflowState.selectedRefImageUrl state) as [[|c u]|] eqn:Href.
  - unfold App.regenerateScene; rewrite Href; simpl. split.
    + exists pkg. done.
    + intros updater Hin. by apply elem_of_nil in Hin.
  - rewrite (regenerateScene_trace env n state si st c u Href).
    cbn [Run.trace Run.final]. split.
    + set (pending := apply_effect (SetState (App.segment_updater (ScriptSegment.id si)
                                                 (generating true))) st).
      pose proof (packaged_update (ScriptSegment.id si) (generating true) st pkg Hpkg) as Hp.
      fold pending in Hp.
      eexists. split; [exact (packaged_update _ _ pending _ Hp)|].
      simpl. split; [|done].
      rewrite (update_one_lookup _ _ _ _ _ (update_one_lookup _ _ _ _ _ Hj)).
      rewrite (update_one_other _ (generating true) sj Hne).
      by rewrite (update_one_other _ _ sj Hne).
    + intros updater Hin prev pkgp s Hprev Hs Hids.
      assert (Hs_ne : ScriptSegment.id s <> ScriptSegment.id si) by congruence.
      apply elem_of_cons in Hin as [Heq|Hin].
      { injection Heq as ->. by apply segment_updater_frame. }
      apply elem_of_cons in Hin as [Heq|Hin]; [discriminate|].
      apply elem_of_cons in Hin as [Heq|Hin]; [discriminate|].
      apply elem_of_cons in Hin as [Heq|Hin]; [|by apply elem_of_nil in Hin].
      injection Heq as ->. by apply segment_updater_frame.
  - unfold App.regenerateScene; rewrite Href; simpl. split.
    + exists pkg. done.
    + intros updater Hin. by apply elem_of_nil in Hin.
Qed.

Lemma regenerateScene_leaves_siblings_witness :
  let out := run (scene_env (Resolved "data:new")) 0
               (App.regenerateScene production_workflow animated_segment) production_state in
  exists pkg',
    packaged (Run.final out) = Some pkg' /\
    ScriptPackage.segments pkg' !! 1 = Some still_segment /\
    ScriptPackage.audioUrl pkg' = Some "blob:narration" /\
    ScriptPackage.thumbnailUrl pkg' = Some "data:thumb".
Proof.
  assert (Hnd : NoDup (ScriptSegment.id <$> ScriptPackage.segments sample_package)).
  { refine (bool_decide_unpack (NoDup _) _). vm_compute. exact I. }
  destruct (proj1 (regenerateScene_leaves_siblings
                     (scene_env (Resolved "data:new")) 0 production_workflow production_state
                     sample_package 0 1 animated_segment still_segment
                     eq_refl Hnd eq_refl eq_refl ltac:(discriminate)))
    as (pkg' & Hpkg' & Hseg & Haudio & _ & Hthumb).
  exists pkg'. repeat split; assumption.
Defined.

(** ** Animation *)

(** C8, as stated, fails: on a segment without an image [animateScene]
    returns normally; nothing is thrown and nothing is reported. *)
Lemma animateScene_without_image_raises_nothing :
  let out := run (scene_env (Resolved "data:new")) 0
               (App.animateScene segment_without_image) production_state in
  Run.result out = Resolved tt /\
  Run.trace out = [] /\
  ~ exists e, Run.result out = Rejected e.
Proof. simpl. repeat split. intros [e He]. discriminate. Qed.

(** C8 (as amended).  On a segment whose [imageUrl] is undefined, null
    or empty, [animateScene] returns at once and normally: it issues no
    call, performs no effect, throws nothing, and leaves the state, and
    with it the segment's motion, as it was. *)
Theorem animateScene_without_image_is_a_no_op (env : Env) n segment st :
  Js.truthy (ScriptSegment.imageUrl segment) = false ->
  run env n (App.animateScene segment) st = Run.mk [] st (Resolved tt) n.
Proof.
  unfold App.animateScene.
  by destruct (ScriptSegment.imageUrl segment) as [[|c u]|].
Qed.

Lemma animateScene_without_image_is_a_no_op_witness :
  Js.truthy (ScriptSegment.imageUrl segment_without_image) = false /\
  run (scene_env (Resolved "data:new")) 0 (App.animateScene segment_without_image)
    production_state
  = Run.mk [] production_state (Resolved tt) 0.
Proof.
  split; [reflexivity|].
  apply (animateScene_without_image_is_a_no_op _ 0 segment_without_image production_state).
  reflexivity.
Defined.

(** ** Selecting a news item *)

Lemma news_without_ideas_kept s :
  news_without_ideas s ->
  (forall item, news_without_ideas (WorkflowState.with_selectedNews item s)) /\
  (forall ideas, news_without_ideas (WorkflowState.with_ideation ideas s)) /\
  (forall idea, news_without_ideas (WorkflowState.with_selectedIdea idea s)) /\
  (forall pkg, news_without_ideas (WorkflowState.with_script pkg s)) /\
  (forall imgs, news_without_ideas (WorkflowState.with_refImages imgs s)) /\
  (forall url, news_without_ideas (WorkflowState.with_production url s)) /\
  (forall b, news_without_ideas (WorkflowState.with_needsApiKey b s)) /\
  (forall f, news_without_ideas (App.on_package f s)).
Proof.
  unfold news_without_ideas. intros H. repeat split; intros; simpl in *; try done; auto.
  unfold App.on_package in *. destruct (WorkflowState.scriptPackage s); simpl in *; auto.
Qed.

Lemma news_without_ideas_initial : news_without_ideas WorkflowState.initial.
Proof. done. Qed.

(** C7.  When the ideation call made by [selectNews] is rejected in the
    news step, the workflow is afterwards still in the news step, with
    [selectedNews] set to the chosen item and no ideation options; no
    other field of the workflow state has changed, the list of news is
    untouched, the loading flag is down again, and nothing is thrown. *)
Theorem selectNews_failure_stays_in_news (env : Env) n item st e :
  WorkflowState.step (AppState.state st) = NEWS ->
  WorkflowState.ideationOptions (AppState.state st) = [] ->
  env n _ (GenerateIdeation (NewsItem.title item) (NewsItem.snippet item)) = Rejected e ->
  let out := run env n (App.selectNews item) st in
  let after := AppState.state (Run.final out) in
  WorkflowState.step after = NEWS /\
  WorkflowState.selectedNews after = Some item /\
  WorkflowState.ideationOptions after = [] /\
  WorkflowState.selectedIdea after = WorkflowState.selectedIdea (AppState.state st) /\
  WorkflowState.scriptPackage after = WorkflowState.scriptPackage (AppState.state st) /\
  WorkflowState.refImages after = WorkflowState.refImages (AppState.state st) /\
  WorkflowState.selectedRefImageUrl after
    = WorkflowState.selectedRefImageUrl (AppState.state st) /\
  WorkflowState.needsApiKey after = WorkflowState.needsApiKey (AppState.state st) /\
  AppState.news (Run.final out) = AppState.news st /\
  AppState.loading (Run.final out) = false /\
  Run.result out = Resolved tt.
Proof.
  intros Hstep Hideas Hcall out after. subst after out.
  simpl. rewrite Hcall. simpl. repeat split; done.
Qed.

Lemma selectNews_failure_stays_in_news_witness :
  let out := run offline 0 (App.selectNews sample_item) AppState.initial in
  let after := AppState.state (Run.final out) in
  WorkflowState.step after = NEWS /\
  WorkflowState.selectedNews after = Some sample_item /\
  WorkflowState.ideationOptions after = [].
Proof.
  destruct (selectNews_failure_stays_in_news offline 0 sample_item AppState.initial
              (Error "Failed to fetch") eq_refl eq_refl eq_refl)
    as (Hstep & Hsel & Hideas & _).
  repeat split; assumption.
Defined.

(** ** The scene loop of production *)

Lemma generateScenes_cons (env : Env) refUrl seg rest n st :
  let id := ScriptSegment.id seg in
  let call := GenerateSceneImage refUrl (ScriptSegment.imagePrompt seg) in
  let o := env n _ call in
  let st1 := apply_effect (SetState (App.segment_updater id (generating true))) st in
  let st2 := apply_effect (SetState (App.segment_updater id (scene_result o))) st1 in
  run env n (App.generateScenes refUrl (seg :: rest)) st
  = Run.after [Performed (SetState (App.segment_updater id (generating true)));
               Issued call st1;
               Settled call o;
               Performed (SetState (App.segment_updater id (scene_result o)))]
      (run env (S n) (App.generateScenes refUrl rest) st2).
Proof.
  intros id call o st1 st2. cbn [App.generateScenes].
  rewrite run_bind. unfold then_run. cbn [App.updateSegment App.setState perform run
    Run.after Run.result Run.trace Run.final Run.awaited app].
  rewrite run_bind, run_try_catch. unfold then_run.
  cbn [mbind Async_bind await bind run Run.after Run.result Run.trace Run.final
       Run.awaited app].
  fold id call. fold st1. fold o.
  destruct o as [imageUrl|e] eqn:Ho; simpl.
  - by destruct (run env (S n) (App.generateScenes refUrl rest) _).
  - by destruct (run env (S n) (App.generateScenes refUrl rest) _).
Qed.

Lemma scene_events_app tr1 tr2 :
  scene_events (tr1 ++ tr2) = (scene_events tr1 ++ scene_events tr2)%list.
Proof. apply omap_app. Qed.

Lemma generateScenes_run (env : Env) refUrl segs :
  forall n st,
    let out := run env n (App.generateScenes refUrl segs) st in
    Run.result out = Resolved tt /\
    Run.awaited out = n + length segs /\
    scene_events (Run.trace out) = scene_marks env refUrl n segs /\
    forall pkg, packaged st = Some pkg ->
      packaged (Run.final out)
      = Some (ScriptPackage.with_segments
                (scenes_on env refUrl n segs <$> ScriptPackage.segments pkg) pkg).
Proof.
  induction segs as [|seg rest IH]; intros n st out; subst out.
  - simpl. repeat split; [lia|].
    intros pkg Hpkg. rewrite Hpkg. f_equal.
    destruct pkg; unfold ScriptPackage.with_segments; simpl. by rewrite list_fmap_id.
  - rewrite generateScenes_cons.
    set (id := ScriptSegment.id seg).
    set (call := GenerateSceneImage refUrl (ScriptSegment.imagePrompt seg)).
    set (st1 := apply_effect (SetState (App.segment_updater id (generating true))) st).
    set (st2 := apply_effect (SetState (App.segment_updater id (scene_result (env n _ call)))) st1).
    destruct (IH (S n) st2) as (Hres & Hawaited & Hevents & Hfinal).
    cbn [Run.after Run.result Run.awaited Run.trace Run.final].
    split; [exact Hres|]. split; [rewrite Hawaited; simpl; lia|]. split.
    + rewrite scene_events_app, Hevents. unfold scene_marks. rewrite imap_cons.
      cbn [concat]. fold call. rewrite Nat.add_0_r.
      change (scene_events _) with
        [SceneIssued refUrl (ScriptSegment.imagePrompt seg);
         SceneSettled refUrl (ScriptSegment.imagePrompt seg) (is_resolved (env n _ call))].
      simpl. do 3 f_equal. apply imap_ext. intros i x _. simpl.
      by rewrite Nat.add_succ_r.
    + intros pkg Hpkg.
      pose proof (packaged_update id (generating true) st pkg Hpkg) as H1. fold st1 in H1.
      pose proof (packaged_update id (scene_result (env n _ call)) st1 _ H1) as H2.
      fold st2 in H2.
      rewrite (Hfinal _ H2). f_equal.
      unfold ScriptPackage.with_segments; simpl. f_equal.
      rewrite <- !list_fmap_compose. done.
Qed.

Lemma scenes_on_other (env : Env) refUrl segs :
  forall n s,
    ScriptSegment.id s ∉ (ScriptSegment.id <$> segs) ->
    scenes_on env refUrl n segs s = s.
Proof.
  induction segs as [|seg rest IH]; intros n s Hnot; [done|].
  rewrite fmap_cons in Hnot. apply not_elem_of_cons in Hnot as [Hne Hrest].
  cbn [scenes_on]. rewrite (update_one_other _ (generating true) s Hne).
  rewrite (update_one_other _ _ s Hne). by apply IH.
Qed.

Lemma scenes_on_own (env : Env) refUrl segs :
  forall n i seg,
    NoDup (ScriptSegment.id <$> segs) ->
    segs !! i = Some seg ->
    scenes_on env refUrl n segs seg
    = merge (merge seg (generating true))
        (scene_result (env (n + i) _
                         (GenerateSceneImage refUrl (ScriptSegment.imagePrompt seg)))).
Proof.
  induction segs as [|hd rest IH]; intros n i seg Hnd Hi; [done|].
  rewrite fmap_cons in Hnd. apply NoDup_cons in Hnd as [Hhd Hnd].
  destruct i as [|i]; cbn [scenes_on].
  - injection Hi as ->. rewrite Nat.add_0_r.
    rewrite (update_one_same _ (generating true) seg eq_refl).
    rewrite update_one_same by done.
    apply scenes_on_other.
    by destruct (env n string _).
  - assert (Hne : ScriptSegment.id seg <> ScriptSegment.id hd).
    { intros Heq. apply Hhd. rewrite <- Heq.
      apply list_elem_of_fmap. exists seg. split; [done|].
      by apply list_elem_of_lookup_2 with i. }
    rewrite (update_one_other _ (generating true) seg Hne).
    rewrite (update_one_other _ _ seg Hne).
    rewrite (IH (S n) i seg Hnd Hi). by rewrite Nat.add_succ_r.
Qed.

Lemma generateProductionAssets_prefix (env : Env) n state refUrl st pkg :
  WorkflowState.scriptPackage state = Some pkg ->
  let thumb := GenerateThumbnail (ScriptPackage.thumbnailPrompt pkg) in
  let st1 := apply_effect
               (SetState (App.on_package (ScriptPackage.with_isAudioGenerating true))) st in
  let after_thumb :=
    match env n _ thumb with
    | Resolved thumbUrl => SetState (App.on_package (ScriptPackage.with_thumbnailUrl thumbUrl))
    | Rejected e => ConsoleError "Thumbnail failed" e
    end in
  run env n (App.generateProductionAssets state refUrl) st
  = Run.after
      [Performed (SetState (App.on_package (ScriptPackage.with_isAudioGenerating true)));
       Started (GenerateSpeech (ScriptPackage.fullScriptPara pkg)) App.speech_settled;
       Issued thumb st1;
       Settled thumb (env n _ thumb);
       Performed after_thumb]
      (run env (S n) (App.generateScenes refUrl (ScriptPackage.segments pkg))
         (apply_effect after_thumb st1)).
Proof.
  intros Hpkg thumb st1 after_thumb. unfold App.generateProductionAssets. rewrite Hpkg.
  rewrite run_bind. unfold then_run.
  cbn [App.setState perform run Run.after Run.result Run.trace Run.final Run.awaited app].
  rewrite run_bind. unfold then_run.
  cbn [run Run.after Run.result Run.trace Run.final Run.awaited app].
  rewrite run_bind, run_try_catch. unfold then_run.
  cbn [mbind Async_bind await bind run Run.after Run.result Run.trace Run.final
       Run.awaited app].
  fold thumb. fold st1. subst after_thumb.
  destruct (env n string thumb) as [thumbUrl|e]; simpl.
  - by destruct (run env (S n) _ _).
  - by destruct (run env (S n) _ _).
Qed.

(** C4.  In production the scene-image calls are made one at a time in
    the order of the segments: the call of a segment is issued, then it
    settles, and only then is the call of the next segment issued, and
    this goes on to the last segment whichever calls are rejected.
    Afterwards every segment is marked as not generating; a segment
    whose call resolved has the new image, a segment whose call was
    rejected keeps the image it had, and no other property of any
    segment has changed.  (The segments of the package have pairwise
    distinct ids, and the loop starts from the package it was given.) *)
Theorem scenes_are_generated_in_order_despite_failures
    (env : Env) n state refUrl st pkg :
  WorkflowState.scriptPackage state = Some pkg ->
  packaged st = Some pkg ->
  NoDup (ScriptSegment.id <$> ScriptPackage.segments pkg) ->
  let out := run env n (App.generateProductionAssets state refUrl) st in
  let outcome i seg :=
    env (S n + i) _ (GenerateSceneImage refUrl (ScriptSegment.imagePrompt seg)) in
  Run.result out = Resolved tt /\
  scene_events (Run.trace out)
  = concat (imap (fun i seg =>
                    [SceneIssued refUrl (ScriptSegment.imagePrompt seg);
                     SceneSettled refUrl (ScriptSegment.imagePrompt seg)
                       (is_resolved (outcome i seg))])
              (ScriptPackage.segments pkg)) /\
  exists pkg',
    packaged (Run.final out) = Some pkg' /\
    length (ScriptPackage.segments pkg') = length (ScriptPackage.segments pkg) /\
    forall i seg, ScriptPackage.segments pkg !! i = Some seg ->
      exists seg',
        ScriptPackage.segments pkg' !! i = Some seg' /\
        ScriptSegment.isGenerating seg' = Some false /\
        ScriptSegment.imageUrl seg'
          = match outcome i seg with
            | Resolved imageUrl => Some imageUrl
            | Rejected _ => ScriptSegment.imageUrl seg
            end /\
        ScriptSegment.videoUrl seg' = ScriptSegment.videoUrl seg /\
        ScriptSegment.isVideoGenerating seg' = ScriptSegment.isVideoGenerating seg /\
        ScriptSegment.id seg' = ScriptSegment.id seg /\
        ScriptSegment.timestamp seg' = ScriptSegment.timestamp seg /\
        ScriptSegment.text seg' = ScriptSegment.text seg /\
        ScriptSegment.imagePrompt seg' = ScriptSegment.imagePrompt seg.
Proof.
  intros Hstate Hpkg Hnd out outcome. subst out.
  rewrite (generateProductionAssets_prefix env n state refUrl st pkg Hstate).
  set (thumb := GenerateThumbnail (ScriptPackage.thumbnailPrompt pkg)).
  set (st1 := apply_effect
                (SetState (App.on_package (ScriptPackage.with_isAudioGenerating true))) st).
  set (after_thumb := match env n _ thumb with
                      | Resolved thumbUrl =>
                          SetState (App.on_package (ScriptPackage.with_thumbnailUrl thumbUrl))
                      | Rejected e => ConsoleError "Thumbnail failed" e
                      end).
  set (st2 := apply_effect after_thumb st1).
  destruct (generateScenes_run env refUrl (ScriptPackage.segments pkg) (S n) st2)
    as (Hres & _ & Hevents & Hfinal).
  assert (Hst2 : exists pkg2, packaged st2 = Some pkg2 /\
                   ScriptPackage.segments pkg2 = ScriptPackage.segments pkg).
  { assert (H1 : packaged st1 = Some (ScriptPackage.with_isAudioGenerating true pkg)).
    { unfold st1. rewrite packaged_set_state. by apply on_package_some. }
    subst st2 after_thumb. destruct (env n string thumb) as [thumbUrl|e].
    - exists (ScriptPackage.with_thumbnailUrl thumbUrl
                (ScriptPackage.with_isAudioGenerating true pkg)).
      split; [|done]. rewrite packaged_set_state. by apply on_package_some.
    - eexists. split; [exact H1|done]. }
  destruct Hst2 as (pkg2 & Hpkg2 & Hsegs2).
  cbn [Run.after Run.result Run.trace Run.final].
  split; [exact Hres|]. split.
  - rewrite scene_events_app, Hevents.
    replace (scene_events _) with (@nil SceneEvent); [done|].
    subst after_thumb. by destruct (env n string thumb).
  - eexists. split; [exact (Hfinal _ Hpkg2)|]. rewrite Hsegs2.
    cbn [ScriptPackage.segments ScriptPackage.with_segments].
    split; [by rewrite length_fmap|].
    intros i seg Hi. rewrite list_lookup_fmap, Hi. simpl.
    eexists. split; [done|].
    rewrite (scenes_on_own env refUrl _ (S n) i seg Hnd Hi).
    fold (outcome i seg). by destruct (outcome i seg).
Qed.

(** ** Entry names *)

Lemma length_append (s t : string) :
  String.length (s ++ t) = String.length s + String.length t.
Proof. induction s as [|c s IH]; simpl; [done|]. by rewrite IH. Qed.

Lemma append_inv_tail (s1 s2 t : string) : s1 ++ t = s2 ++ t -> s1 = s2.
Proof.
  revert s2; induction s1 as [|c s1 IH]; intros [|d s2] H; simpl in H.
  - done.
  - apply (f_equal String.length) in H. rewrite !length_append in H. simpl in H. lia.
  - apply (f_equal String.length) in H. rewrite !length_append in H. simpl in H. lia.
  - injection H as -> H. f_equal. by apply IH.
Qed.

Lemma last_char_append (s t : string) :
  t <> EmptyString -> last_char (s ++ t) = last_char t.
Proof.
  intros Ht. induction s as [|c s IH]; simpl; [done|].
  rewrite IH. destruct t as [|d t]; [done|]. simpl. by destruct (last_char t).
Qed.

(** Decimal numerals of positive numbers do not start with a zero. *)
Lemma pretty_N_go_head (x : N) (s : string) :
  (0 < x)%N -> exists c s', pretty_N_go x s = String c s' /\ c <> "0"%char.
Proof.
  revert s. induction (N.lt_wf_0 x) as [x _ IH]; intros s Hx.
  rewrite pretty_N_go_step by done.
  assert (x < 10 \/ 10 <= x)%N as [Hsmall|Hbig] by lia.
  - rewrite N.div_small, N.mod_small, pretty_N_go_0 by done.
    eexists _, _. split; [done|].
    assert (x = 1 \/ x = 2 \/ x = 3 \/ x = 4 \/ x = 5 \/ x = 6
            \/ x = 7 \/ x = 8 \/ x = 9)%N as Hcases by lia.
    destruct Hcases as [->|[->|[->|[->|[->|[->|[->|[->| ->]]]]]]]]; done.
  - apply IH.
    + by apply N.div_lt.
    + apply N.div_str_pos. lia.
Qed.

Lemma toString_head (n : nat) :
  0 < n -> exists c s', Js.toString n = String c s' /\ c <> "0"%char.
Proof.
  intros Hn. unfold Js.toString, pretty, pretty_nat, pretty, pretty_N.
  destruct (decide (N.of_nat n = 0%N)) as [H0|_]; [lia|].
  apply pretty_N_go_head. lia.
Qed.

Lemma segment_index_inj i j : App.segment_index i = App.segment_index j -> i = j.
Proof.
  unfold App.segment_index, Js.padStart. intros H.
  destruct (toString_head (i + 1)) as (ci & si & Hi & Hci); [lia|].
  destruct (toString_head (j + 1)) as (cj & sj & Hj & Hcj); [lia|].
  assert (Heq : Js.toString (i + 1) = Js.toString (j + 1)).
  { rewrite Hi, Hj in *. destruct si as [|di si], sj as [|dj sj]; simpl in H.
    - by injection H as ->.
    - injection H as H _. congruence.
    - injection H as H _. congruence.
    - done. }
  apply (inj pretty) in Heq. lia.
Qed.

Lemma motion_name_inj i j : App.motion_name i = App.motion_name j -> i = j.
Proof.
  unfold App.motion_name. intros H. apply (inj (String.app _)) in H.
  apply append_inv_tail in H. by apply segment_index_inj.
Qed.

Lemma frame_name_inj i j : App.frame_name i = App.frame_name j -> i = j.
Proof.
  unfold App.frame_name. intros H. apply (inj (String.app _)) in H.
  apply append_inv_tail in H. by apply segment_index_inj.
Qed.

Lemma motion_name_last i : last_char (App.motion_name i) = Some "4"%char.
Proof.
  unfold App.motion_name. rewrite !last_char_append; [done|done|].
  by destruct (App.segment_index i).
Qed.

Lemma frame_name_last i : last_char (App.frame_name i) = Some "g"%char.
Proof.
  unfold App.frame_name. rewrite !last_char_append; [done|done|].
  by destruct (App.segment_index i).
Qed.

Lemma motion_name_not_frame i j : App.motion_name i <> App.frame_name j.
Proof.
  intros H. apply (f_equal last_char) in H.
  rewrite motion_name_last, frame_name_last in H. discriminate.
Qed.

Lemma scene_names_not_fixed i name :
  name ∈ fixed_names -> App.motion_name i <> name /\ App.frame_name i <> name.
Proof.
  unfold fixed_names. rewrite !elem_of_cons, elem_of_nil.
  intros [->|[->|[->|[->|[]]]]]; split; discriminate.
Qed.

(** ** Export: what a trace shows *)


Lemma downloads_only_weaken {A} (P Q : string -> Prop) st (r : Run.t A) :
  (forall url, P url -> Q url) -> downloads_only P st r -> downloads_only Q st r.
Proof.
  intros HPQ (H1 & H2 & H3 & H4 & H5 & H6). repeat split; try done; try apply H6.
  eapply Forall_impl; [exact H5|done].
Qed.

Section Downloads.
Context (env : Env).




Lemma run_fetchAsBlob url n st :
  run env n (App.fetchAsBlob url) st
  = Run.mk [Issued (Fetch url) st; Settled (Fetch url) (env n _ (Fetch url))] st
      (blob_of url (env n _ (Fetch url))) (S n).
Proof.
  unfold App.fetchAsBlob. simpl.
  destruct (env n FetchResponse.t (Fetch url)) as [[[] [b|e]]|e]; done.
Qed.


End Downloads.

(** ** Export: segments *)

Section ExportSegments.
Context (env : Env).

Lemma run_promise_all_cons {A} (p : Async A) ps n st :
  run env n (promise_all (p :: ps)) st
  = let r1 := run env n p st in
    let r2 := run env (Run.awaited r1) (promise_all ps) (Run.final r1) in
    Run.mk (Run.trace r1 ++ Run.trace r2) (Run.final r2)
      (match Run.result r1, Run.result r2 with
       | Resolved a, Resolved l => Resolved (a :: l)
       | Rejected e, _ => Rejected e
       | Resolved _, Rejected e => Rejected e
       end)
      (Run.awaited r2).
Proof.
  cbn [promise_all]. rewrite run_bind, run_attempt. unfold then_run.
  cbn [Run.result Run.trace Run.final Run.awaited].
  rewrite run_bind, run_attempt. unfold then_run.
  cbn [Run.result Run.trace Run.final Run.awaited Run.after].
  destruct (run env n p st) as [tr1 fin1 res1 k1]; simpl.
  destruct (run env k1 (promise_all ps) fin1) as [tr2 fin2 res2 k2]; simpl.
  destruct res1, res2; unfold Run.after; simpl; by rewrite ?app_nil_r.
Qed.


Lemma promise_all_result {A} (ps : list (Async A)) :
  forall n st l,
    Run.result (run env n (promise_all ps) st) = Resolved l ->
    Forall2 (fun p a => exists n' st', Run.result (run env n' p st') = Resolved a) ps l.
Proof.
  induction ps as [|p ps IH]; intros n st l.
  - simpl. intros [= <-]. constructor.
  - rewrite run_promise_all_cons. cbn [Run.result].
    destruct (Run.result (run env n p st)) as [a|e] eqn:H1; [|discriminate].
    destruct (Run.result (run env _ (promise_all ps) _)) as [l'|e] eqn:H2; [|discriminate].
    intros [= <-]. constructor; [by eauto|]. by eapply IH.
Qed.

Lemma add_segment_result i seg n st add :
  Run.result (run env n (App.add_segment i seg) st) = Resolved add ->
  adds_entry i seg add.
Proof.
  unfold App.add_segment, adds_entry, entry_name.
  destruct (ScriptSegment.videoUrl seg) as [[|c u]|]; cbn [Js.truthy].
  1,3: destruct (ScriptSegment.imageUrl seg) as [[|c' u']|]; cbn [Js.truthy];
    try (by intros [= <-]).
  all: rewrite run_bind, run_fetchAsBlob; unfold then_run; simpl;
    destruct (blob_of _ _) as [b|e]; simpl; [|discriminate];
    intros [= <-]; by exists b.
Qed.


Lemma add_optional_result url name zip n st zip' :
  Run.result (run env n (App.add_optional url name zip) st) = Resolved zip' ->
  if Js.truthy url then exists blob, zip' = zip_file name (ZBlob blob) zip else zip' = zip.
Proof.
  unfold App.add_optional. destruct url as [[|c u]|]; cbn [Js.truthy]; try (by intros [= <-]).
  rewrite run_bind, run_fetchAsBlob. unfold then_run; simpl.
  destruct (blob_of _ _) as [b|e]; simpl; [|discriminate].
  intros [= <-]. by exists b.
Qed.


End ExportSegments.

(** ** Export: the archive *)

Lemma adds_entry_lookup i seg add (zip : JSZip) name :
  adds_entry i seg add ->
  is_Some (add zip !! name) <-> entry_name i seg = Some name \/ is_Some (zip !! name).
Proof.
  unfold adds_entry. destruct (entry_name i seg) as [nm|].
  - intros [blob ->]. unfold zip_file. rewrite lookup_insert_is_Some'.
    split; intros [H|H]; auto; left; congruence.
  - intros ->. split; [by auto|]. by intros [H|H].
Qed.

Lemma foldl_adds_lookup (isegs : list (nat * ScriptSegment.t)) (adds : list (JSZip -> JSZip)) :
  Forall2 (fun iseg add => adds_entry iseg.1 iseg.2 add) isegs adds ->
  forall (zip : JSZip) name,
    is_Some (foldl (fun z add => add z) zip adds !! name) <->
    is_Some (zip !! name) \/
    exists iseg, iseg ∈ isegs /\ entry_name iseg.1 iseg.2 = Some name.
Proof.
  induction 1 as [|iseg add isegs adds Hadd _ IH]; intros zip name; simpl.
  - split; [by auto|]. intros [H|(iseg & Hin & _)]; [done|]. by apply elem_of_nil in Hin.
  - rewrite IH, (adds_entry_lookup _ _ _ _ _ Hadd). split.
    + intros [[H|H]|(is' & Hin & H)]; eauto.
      * right. exists iseg. split; [apply list_elem_of_here|done].
      * right. exists is'. split; [by apply list_elem_of_further|done].
    + intros [H|(is' & Hin & H)]; [by auto|].
      apply elem_of_cons in Hin as [->|Hin]; [by auto|].
      right. by exists is'.
Qed.

Section Assemble.
Context (env : Env).


Lemma assemble_result pkg now n st zip :
  Run.result (run env n (App.assemble pkg now) st) = Resolved zip ->
  exists (zip1 zip2 : JSZip) adds,
    (if Js.truthy (ScriptPackage.audioUrl pkg)
     then exists blob, zip1 = zip_file "narration.wav" (ZBlob blob) ∅
     else zip1 = ∅) /\
    (if Js.truthy (ScriptPackage.thumbnailUrl pkg)
     then exists blob, zip2 = zip_file "thumbnail.png" (ZBlob blob) zip1
     else zip2 = zip1) /\
    Forall2 (fun iseg add => adds_entry iseg.1 iseg.2 add)
      (imap pair (ScriptPackage.segments pkg)) adds /\
    zip = zip_file "full_script.txt" (ZText (ScriptPackage.fullScriptPara pkg))
            (zip_file "production_metadata.json" (ZJson (App.meta pkg now))
               (foldl (fun z add => add z) zip2 adds)).
Proof.
  unfold App.assemble. rewrite run_bind. unfold then_run.
  destruct (Run.result (run env n (App.add_optional _ "narration.wav" ∅) st))
    as [zip1|e] eqn:H1; [|discriminate].
  apply add_optional_result in H1.
  cbn [Run.result Run.after]. rewrite run_bind. unfold then_run.
  destruct (Run.result (run env _ (App.add_optional _ "thumbnail.png" zip1) _))
    as [zip2|e] eqn:H2; [|discriminate].
  apply add_optional_result in H2.
  cbn [Run.result Run.after]. rewrite run_bind. unfold then_run.
  destruct (Run.result (run env _ (promise_all _) _)) as [adds|e] eqn:H3; [|discriminate].
  apply promise_all_result in H3.
  cbn [Run.result Run.after run]. intros [= <-].
  exists zip1, zip2, adds. repeat split; try done.
  assert (Himap : imap App.add_segment (ScriptPackage.segments pkg)
                  = (fun iseg => App.add_segment iseg.1 iseg.2)
                      <$> imap pair (ScriptPackage.segments pkg)).
  { rewrite fmap_imap. by apply imap_ext. }
  rewrite Himap in H3. apply Forall2_fmap_l in H3.
  eapply Forall2_impl; [exact H3|].
  intros [i seg] add (n' & st' & Hrun). by eapply add_segment_result.
Qed.

(** The entries of an assembled archive. *)
Lemma assemble_entries pkg now n st (zip : JSZip) name :
  Run.result (run env n (App.assemble pkg now) st) = Resolved zip ->
  is_Some (zip !! name) <->
  (name = "narration.wav" /\ Js.truthy (ScriptPackage.audioUrl pkg) = true) \/
  (name = "thumbnail.png" /\ Js.truthy (ScriptPackage.thumbnailUrl pkg) = true) \/
  (exists i seg, ScriptPackage.segments pkg !! i = Some seg /\ entry_name i seg = Some name) \/
  name = "production_metadata.json" \/
  name = "full_script.txt".
Proof.
  intros Hrun. apply assemble_result in Hrun as (zip1 & zip2 & adds & H1 & H2 & Hadds & ->).
  unfold zip_file at 1 2. rewrite !lookup_insert_is_Some'.
  rewrite (foldl_adds_lookup _ _ Hadds).
  assert (Hzip2 : is_Some (zip2 !! name) <->
            (name = "narration.wav" /\ Js.truthy (ScriptPackage.audioUrl pkg) = true) \/
            (name = "thumbnail.png" /\ Js.truthy (ScriptPackage.thumbnailUrl pkg) = true)).
  { destruct (Js.truthy (ScriptPackage.audioUrl pkg)),
             (Js.truthy (ScriptPackage.thumbnailUrl pkg)).
    - destruct H1 as [b1 ->], H2 as [b2 ->]. unfold zip_file.
      rewrite !lookup_insert_is_Some', lookup_empty. split.
      + intros [<-|[<-|H]]; [by auto|by auto|by destruct H].
      + intros [[-> _]|[-> _]]; auto.
    - destruct H1 as [b1 ->]; subst zip2. unfold zip_file.
      rewrite !lookup_insert_is_Some', lookup_empty. split.
      + intros [<-|H]; [by auto|by destruct H].
      + intros [[-> _]|[_ ?]]; [auto|done].
    - subst zip1. destruct H2 as [b2 ->]. unfold zip_file.
      rewrite !lookup_insert_is_Some', lookup_empty. split.
      + intros [<-|H]; [by auto|by destruct H].
      + intros [[_ ?]|[-> _]]; [done|auto].
    - subst zip1 zip2. rewrite lookup_empty. split.
      + intros H; by destruct H.
      + intros [[_ ?]|[_ ?]]; done. }
  rewrite Hzip2. split.
  - intros [<-|[<-|[[H|H]|(iseg & Hin & Hname)]]]; auto.
    apply elem_of_lookup_imap_1 in Hin as (i & seg & -> & Hseg).
    right; right; left. by exists i, seg.
  - intros [H|[H|[(i & seg & Hseg & Hname)|[->| ->]]]]; auto.
    right; right; right. exists (i, seg). split; [|done].
    by apply (elem_of_lookup_imap_2 pair).
Qed.

End Assemble.

(** ** Export: [downloadProduction] *)

Section DownloadProduction.
Context (env : Env).



End DownloadProduction.



(** ** Export: the entries of the bundle *)

Lemma entry_name_cases i seg name :
  entry_name i seg = Some name <->
  (name = App.motion_name i /\ Js.truthy (ScriptSegment.videoUrl seg) = true) \/
  (name = App.frame_name i /\ Js.truthy (ScriptSegment.videoUrl seg) = false /\
   Js.truthy (ScriptSegment.imageUrl seg) = true).
Proof.
  unfold entry_name.
  destruct (Js.truthy (ScriptSegment.videoUrl seg)),
           (Js.truthy (ScriptSegment.imageUrl seg)); split;
    try (intros [= <-]); try (intros [[-> ?]|[-> [? ?]]]); try done; auto.
Qed.

Lemma entry_name_not_fixed i seg name :
  entry_name i seg = Some name -> name ∉ fixed_names.
Proof.
  intros H Hfixed. destruct (scene_names_not_fixed i name Hfixed) as [Hm Hf].
  apply entry_name_cases in H as [[-> _]|[-> _]]; done.
Qed.




(** ** Sample runs *)




Lemma scenes_are_generated_in_order_despite_failures_witness :
  let out := run flaky_scenes 0 (App.generateProductionAssets bare_workflow "data:ref")
               bare_state in
  scene_events (Run.trace out)
  = [SceneIssued "data:ref" "lab"; SceneSettled "data:ref" "lab" true;
     SceneIssued "data:ref" "chip"; SceneSettled "data:ref" "chip" false;
     SceneIssued "data:ref" "wafer"; SceneSettled "data:ref" "wafer" true] /\
  exists pkg' s1 s2,
    packaged (Run.final out) = Some pkg' /\
    ScriptPackage.segments pkg' !! 1 = Some s1 /\
    ScriptSegment.imageUrl s1 = None /\
    ScriptSegment.isGenerating s1 = Some false /\
    ScriptPackage.segments pkg' !! 2 = Some s2 /\
    ScriptSegment.imageUrl s2 = Some "data:scene for wafer".
Proof.
  assert (Hnd : NoDup (ScriptSegment.id <$> ScriptPackage.segments three_segment_package)).
  { refine (bool_decide_unpack (NoDup _) _). vm_compute. exact I. }
  destruct (scenes_are_generated_in_order_despite_failures
              flaky_scenes 0 bare_workflow "data:ref" bare_state three_segment_package
              eq_refl eq_refl Hnd)
    as (_ & Hevents & pkg' & Hpkg' & _ & Hsegs).
  split; [exact Hevents|].
  destruct (Hsegs 1 _ eq_refl) as (s1 & Hs1 & Hgen1 & Himg1 & _).
  destruct (Hsegs 2 _ eq_refl) as (s2 & Hs2 & _ & Himg2 & _).
  exists pkg', s1, s2. repeat split; assumption.
Defined.

(** * Further properties

    ** Updaters and invariants *)

Lemma all_updaters_bind {A B} P (p : Async A) (f : A -> Async B) :
  all_updaters P p -> (forall a, all_updaters P (f a)) -> all_updaters P (p ≫= f).
Proof.
  unfold mbind, Async_bind. intros Hp Hf.
  induction p as [a|e|eff k IH|R c k IH|R c h k IH]; simpl in *; try done; try tauto.
  - intros o. by apply IH.
Qed.

Lemma all_updaters_attempt {A} P (p : Async A) :
  all_updaters P p -> all_updaters P (attempt p).
Proof.
  induction p as [a|e|eff k IH|R c k IH|R c h k IH]; simpl; try done; try tauto.
  intros H o. by apply IH.
Qed.

Lemma all_updaters_complete {A} P (o : Outcome A) : all_updaters P (complete o).
Proof. by destruct o. Qed.

Lemma all_updaters_await {R} P (c : Call R) : all_updaters P (await c).
Proof. intros o. apply all_updaters_complete. Qed.

Lemma all_updaters_try_catch {A} P (body : Async A) handler :
  all_updaters P body -> (forall e, all_updaters P (handler e)) ->
  all_updaters P (try_catch_async body handler).
Proof.
  intros Hb Hh. apply all_updaters_bind; [by apply all_updaters_attempt|].
  intros [a|e]; [done|apply Hh].
Qed.

Lemma all_updaters_try_finally {A} P (body : Async A) cleanup :
  all_updaters P body -> all_updaters P cleanup ->
  all_updaters P (try_finally body cleanup).
Proof.
  intros Hb Hc. apply all_updaters_bind; [by apply all_updaters_attempt|].
  intros o. apply all_updaters_bind; [done|]. intros _. apply all_updaters_complete.
Qed.

Lemma all_updaters_promise_all {A} P (ps : list (Async A)) :
  Forall (all_updaters P) ps -> all_updaters P (promise_all ps).
Proof.
  induction 1 as [|p ps Hp _ IH]; [done|]. cbn [promise_all].
  apply all_updaters_bind; [by apply all_updaters_attempt|]. intros o.
  apply all_updaters_bind; [by apply all_updaters_attempt|]. intros os.
  by destruct o, os.
Qed.

Lemma all_updaters_perform P eff : effect_ok P eff -> all_updaters P (perform eff).
Proof. by split. Qed.

Lemma all_updaters_fetchAsBlob P url : all_updaters P (App.fetchAsBlob url).
Proof.
  apply all_updaters_bind; [apply all_updaters_await|].
  intros r. destruct (FetchResponse.ok r); [apply all_updaters_complete|done].
Qed.

Section ProductionUpdaters.
Context (P : (WorkflowState.t -> WorkflowState.t) -> Prop).
Hypothesis P_segment :
  forall id imageUrl videoUrl isGenerating isVideoGenerating,
    P (App.segment_updater id (Updates.literal imageUrl videoUrl isGenerating isVideoGenerating)).

Lemma all_updaters_scenes refUrl segs : all_updaters P (App.generateScenes refUrl segs).
Proof.
  induction segs as [|seg rest IH]; [done|]. cbn [App.generateScenes].
  apply all_updaters_bind; [apply all_updaters_perform; apply P_segment|]. intros _.
  apply all_updaters_bind; [|done].
  apply all_updaters_try_catch.
  - apply all_updaters_bind; [apply all_updaters_await|].
    intros imageUrl. apply all_updaters_perform. apply P_segment.
  - intros e. apply all_updaters_perform. apply P_segment.
Qed.

Hypothesis P_audioFlag :
  forall flag, P (App.on_package (ScriptPackage.with_isAudioGenerating flag)).
Hypothesis P_audio :
  forall url flag, P (App.on_package (ScriptPackage.with_audio url flag)).
Hypothesis P_thumbnail :
  forall url, P (App.on_package (ScriptPackage.with_thumbnailUrl url)).

Lemma all_updaters_production state refUrl :
  all_updaters P (App.generateProductionAssets state refUrl).
Proof.
  unfold App.generateProductionAssets.
  destruct (WorkflowState.scriptPackage state) as [pkg|]; [|done].
  apply all_updaters_bind; [apply all_updaters_perform; apply P_audioFlag|]. intros _.
  apply all_updaters_bind.
  { split; [|done]. intros [audioUrl|err]; repeat constructor.
    - apply P_audio.
    - apply P_audioFlag. }
  intros _. apply all_updaters_bind; [|intros _; apply all_updaters_scenes].
  apply all_updaters_try_catch.
  - apply all_updaters_bind; [apply all_updaters_await|].
    intros thumbUrl. apply all_updaters_perform. apply P_thumbnail.
  - intros e. by apply all_updaters_perform.
Qed.

End ProductionUpdaters.

Lemma all_updaters_generateScenes b a refUrl segs :
  all_updaters (Updater b a) (App.generateScenes refUrl segs).
Proof. apply all_updaters_scenes. constructor. Qed.

Lemma all_updaters_generateProductionAssets b state refUrl :
  all_updaters (Updater b true) (App.generateProductionAssets state refUrl).
Proof. apply all_updaters_production; constructor. Qed.

Lemma all_updaters_downloadProduction P state now :
  all_updaters P (App.downloadProduction state now).
Proof.
  unfold App.downloadProduction.
  destruct (WorkflowState.scriptPackage state) as [pkg|]; [|done].
  apply all_updaters_bind; [by apply all_updaters_perform|]. intros _.
  apply all_updaters_try_finally; [|by apply all_updaters_perform].
  apply all_updaters_try_catch.
  - apply all_updaters_bind.
    + unfold App.assemble, App.add_optional.
      apply all_updaters_bind.
      { destruct (ScriptPackage.audioUrl pkg) as [[|c u]|]; try done.
        apply all_updaters_bind; [apply all_updaters_fetchAsBlob|done]. }
      intros zip1. apply all_updaters_bind.
      { destruct (ScriptPackage.thumbnailUrl pkg) as [[|c u]|]; try done.
        apply all_updaters_bind; [apply all_updaters_fetchAsBlob|done]. }
      intros zip2. apply all_updaters_bind; [|done].
      apply all_updaters_promise_all. apply Forall_forall. intros p Hp.
      apply elem_of_lookup_imap_1 in Hp as (i & seg & -> & _).
      unfold App.add_segment.
      destruct (ScriptSegment.videoUrl seg) as [[|c u]|].
      1,3: destruct (ScriptSegment.imageUrl seg) as [[|c' u']|]; try done.
      all: apply all_updaters_bind; [apply all_updaters_fetchAsBlob|done].
    + intros zip. apply all_updaters_bind; [apply all_updaters_await|].
      intros content. by apply all_updaters_perform.
  - intros err. apply all_updaters_bind; [by apply all_updaters_perform|].
    intros _. by apply all_updaters_perform.
Qed.

(** Every updater of every handler is one of [Updater]; only
    [selectIdea] stores a new package, and only entering production
    writes the narration fields. *)
Lemma handlers_use_updaters state h :
  all_updaters (Updater (replaces_script h) (starts_narration h)) (handle state h).
Proof.
  destruct h; cbn [handle replaces_script starts_narration].
  - (* loadNews *)
    apply all_updaters_bind; [by apply all_updaters_perform|]. intros _.
    apply all_updaters_try_finally; [|by apply all_updaters_perform].
    apply all_updaters_try_catch.
    + apply all_updaters_bind; [apply all_updaters_await|]. intros l.
      by apply all_updaters_perform.
    + intros e. by apply all_updaters_perform.
  - (* selectNews *)
    apply all_updaters_bind; [by apply all_updaters_perform|]. intros _.
    apply all_updaters_bind; [apply all_updaters_perform; constructor|]. intros _.
    apply all_updaters_try_finally; [|by apply all_updaters_perform].
    apply all_updaters_try_catch.
    + apply all_updaters_bind; [apply all_updaters_await|]. intros ideas.
      apply all_updaters_perform. constructor.
    + intros e. by apply all_updaters_perform.
  - (* selectIdea *)
    apply all_updaters_bind; [by apply all_updaters_perform|]. intros _.
    apply all_updaters_bind; [apply all_updaters_perform; constructor|]. intros _.
    apply all_updaters_try_finally; [|by apply all_updaters_perform].
    apply all_updaters_try_catch.
    + apply all_updaters_bind; [apply all_updaters_await|]. intros pkg.
      apply all_updaters_perform. constructor.
    + intros e. by apply all_updaters_perform.
  - (* generateReferenceImages *)
    unfold App.generateReferenceImages.
    destruct (WorkflowState.scriptPackage state) as [pkg|]; [|done].
    apply all_updaters_bind; [by apply all_updaters_perform|]. intros _.
    apply all_updaters_try_finally; [|by apply all_updaters_perform].
    apply all_updaters_try_catch.
    + apply all_updaters_bind; [apply all_updaters_await|]. intros urls.
      apply all_updaters_perform. constructor.
    + intros e. by apply all_updaters_perform.
  - (* selectRefImage *)
    apply all_updaters_bind; [apply all_updaters_perform; constructor|]. intros _.
    apply all_updaters_generateProductionAssets.
  - (* handleManualRefSelect *)
    apply all_updaters_bind; [by apply all_updaters_perform|]. intros _.
    apply all_updaters_bind; [apply all_updaters_perform; constructor|]. intros _.
    apply all_updaters_generateProductionAssets.
  - (* animateScene *)
    unfold App.animateScene.
    destruct (ScriptSegment.imageUrl segment) as [[|c u]|]; try done.
    apply all_updaters_bind; [apply all_updaters_await|].
    intros [[]|]; try (apply all_updaters_perform; constructor).
    apply all_updaters_bind; [apply all_updaters_perform; constructor|]. intros _.
    apply all_updaters_try_catch.
    + apply all_updaters_bind; [apply all_updaters_await|]. intros videoUrl.
      apply all_updaters_perform. constructor.
    + intros e. apply all_updaters_bind; [by apply all_updaters_perform|]. intros _.
      apply all_updaters_bind; [|intros _; apply all_updaters_perform; constructor].
      destruct (App.entity_not_found e); apply all_updaters_perform; [constructor|done].
  - (* regenerateScene *)
    unfold App.regenerateScene.
    destruct (WorkflowState.selectedRefImageUrl state) as [[|c u]|]; try done.
    apply all_updaters_bind; [apply all_updaters_perform; constructor|]. intros _.
    apply all_updaters_try_catch.
    + apply all_updaters_bind; [apply all_updaters_await|]. intros imageUrl.
      apply all_updaters_perform. constructor.
    + intros e. apply all_updaters_perform. constructor.
  - apply all_updaters_downloadProduction.
  - (* openApiKeyDialog *)
    apply all_updaters_bind; [apply all_updaters_await|]. intros _.
    apply all_updaters_perform. exact (U_needsApiKey _ _ false).
Qed.

Section Invariants.
Context (Inv : WorkflowState.t -> Prop) (P : (WorkflowState.t -> WorkflowState.t) -> Prop).
Hypothesis P_keeps : forall f, P f -> forall s, Inv s -> Inv (f s).

Lemma apply_effect_keeps eff st :
  effect_ok P eff -> Inv (AppState.state st) -> Inv (AppState.state (apply_effect eff st)).
Proof. destruct eff; simpl; try done. intros Hf Hs. by apply P_keeps. Qed.

Lemma settle_keeps effs : Forall (effect_ok P) effs -> keeps Inv effs.
Proof.
  induction 1 as [|eff effs Hok _ IH]; intros st Hst; [done|].
  simpl. apply IH. by apply apply_effect_keeps.
Qed.

(** A program whose updaters all keep a property of the workflow state
    keeps it: at its end, in every state on the way, and in every
    callback it leaves behind. *)
Lemma run_keeps_invariant {A} (env : Env) (p : Async A) :
  all_updaters P p ->
  forall n st,
    Inv (AppState.state st) ->
    let out := run env n p st in
    Inv (AppState.state (Run.final out)) /\
    Forall (fun s => Inv (AppState.state s)) (states_after st (Run.trace out)) /\
    callbacks_ok (keeps Inv) (Run.trace out).
Proof.
  induction p as [a|e|eff k IH|R c k IH|R c h k IH]; intros Hall n st Hst; simpl in *.
  - done.
  - done.
  - destruct Hall as [Heff Hk].
    pose proof (apply_effect_keeps eff st Heff Hst) as Hst'.
    destruct (IH Hk n _ Hst') as (H1 & H2 & H3).
    split; [done|]. split; [by constructor|done].
  - destruct (IH (env n R c) (Hall _) (S n) st Hst) as (H1 & H2 & H3). done.
  - destruct Hall as [Hh Hk].
    destruct (IH Hk n st Hst) as (H1 & H2 & H3).
    split; [done|]. split; [done|]. split; [|done].
    intros o. by apply settle_keeps.
Qed.

End Invariants.

Lemma updater_keeps_step_out_of_news b a f :
  Updater b a f ->
  forall s, WorkflowState.step s <> NEWS -> WorkflowState.step (f s) <> NEWS.
Proof.
  intros Hf s Hs.
  destruct Hf; simpl; try done;
    try (unfold App.on_package; by destruct (WorkflowState.scriptPackage s)).
  unfold App.segment_updater, App.on_package.
  by destruct (WorkflowState.scriptPackage s).
Qed.

Lemma updater_keeps_script a f :
  Updater false a f -> forall s, script_of (f s) = script_of s.
Proof.
  intros Hf. inversion Hf; subst; intros s; try done;
    unfold App.segment_updater, App.on_package, script_of;
    destruct (WorkflowState.scriptPackage s) as [pkg|] eqn:Hpkg; simpl;
    rewrite ?Hpkg; try done.
  unfold package_script. simpl. do 2 f_equal.
  rewrite <- list_fmap_compose. apply list_fmap_ext. intros i seg _. simpl.
  by destruct (String.eqb (ScriptSegment.id seg) id).
Qed.

(** X1.  Once the workflow has left the news step, no handler of the
    component brings it back there: not at its end, not in any state on
    the way, and not in a callback that runs later. *)
Theorem workflow_never_returns_to_news (env : Env) n state h st :
  WorkflowState.step (AppState.state st) <> NEWS ->
  let out := run env n (handle state h) st in
  let away := fun s => WorkflowState.step s <> NEWS in
  away (AppState.state (Run.final out)) /\
  Forall (fun s => away (AppState.state s)) (states_after st (Run.trace out)) /\
  callbacks_ok (keeps away) (Run.trace out).
Proof.
  intros Hst out away.
  apply (run_keeps_invariant away (Updater (replaces_script h) (starts_narration h)));
    [|apply handlers_use_updaters|done].
  intros f Hf s. by eapply updater_keeps_step_out_of_news.
Qed.

Lemma workflow_never_returns_to_news_witness :
  let out := run (scene_env (Resolved "data:new")) 0
               (handle production_workflow (RegenerateScene animated_segment))
               production_state in
  WorkflowState.step (AppState.state (Run.final out)) <> NEWS.
Proof.
  exact (proj1 (workflow_never_returns_to_news
                  (scene_env (Resolved "data:new")) 0 production_workflow
                  (RegenerateScene animated_segment) production_state
                  ltac:(discriminate))).
Defined.

(** X2.  Only [selectIdea] changes the script.  Under every other
    handler the texts of the package (title, description, tags, call to
    action, prompts, narration) and the ids, timestamps, texts and image
    prompts of its segments, in their order, stay what they were. *)
Theorem script_is_fixed_by_all_but_selectIdea (env : Env) n state h st :
  replaces_script h = false ->
  let out := run env n (handle state h) st in
  let same := fun s => script_of s = script_of (AppState.state st) in
  same (AppState.state (Run.final out)) /\
  Forall (fun s => same (AppState.state s)) (states_after st (Run.trace out)) /\
  callbacks_ok (keeps same) (Run.trace out).
Proof.
  intros Hh out same.
  apply (run_keeps_invariant same (Updater false (starts_narration h))); [| |done].
  - intros f Hf s Hs. unfold same in *. by erewrite updater_keeps_script.
  - pose proof (handlers_use_updaters state h) as Hall.
    by rewrite Hh in Hall.
Qed.

Lemma script_is_fixed_by_all_but_selectIdea_witness :
  let out := run flaky_scenes 0 (handle bare_workflow (SelectRefImage "data:ref"))
               bare_state in
  script_of (AppState.state (Run.final out)) = script_of bare_workflow.
Proof.
  exact (proj1 (script_is_fixed_by_all_but_selectIdea
                  flaky_scenes 0 bare_workflow (SelectRefImage "data:ref") bare_state
                  eq_refl)).
Defined.

Lemma run_keeps_invariant_at_issue {A} (Inv : WorkflowState.t -> Prop)
    (P : (WorkflowState.t -> WorkflowState.t) -> Prop) (env : Env) (p : Async A) :
  (forall f, P f -> forall s, Inv s -> Inv (f s)) ->
  all_updaters P p ->
  forall n st,
    Inv (AppState.state st) ->
    Forall (fun s => Inv (AppState.state s)) (states_at_issue (Run.trace (run env n p st))).
Proof.
  intros HP.
  induction p as [a|e|eff k IH|R c k IH|R c h k IH]; intros Hall n st Hst; simpl in *.
  - constructor.
  - constructor.
  - destruct Hall as [Heff Hk]. apply IH; [done|].
    by apply (apply_effect_keeps Inv P HP).
  - unfold states_at_issue. simpl. constructor; [done|]. by apply IH.
  - destruct Hall as [_ Hk]. by apply IH.
Qed.

(** ** Narration settles whenever it likes *)

(** A program never reads the state it updates, so an update that
    commutes with all its updaters can be moved across the whole run. *)
Lemma run_commutes {A} (g : WorkflowState.t -> WorkflowState.t) (env : Env) (p : Async A) :
  all_updaters (fun f => forall s, f (g s) = g (f s)) p ->
  forall n st,
    let moved := run env n p (apply_effect (SetState g) st) in
    let out := run env n p st in
    Run.final moved = apply_effect (SetState g) (Run.final out) /\
    Run.result moved = Run.result out /\
    Run.awaited moved = Run.awaited out.
Proof.
  induction p as [a|e|eff k IH|R c k IH|R c h k IH]; intros Hall n st;
    cbn [run Run.after Run.final Run.result Run.awaited Run.trace]; simpl in Hall.
  - done.
  - done.
  - destruct Hall as [Heff Hk].
    assert (Hswap : apply_effect eff (apply_effect (SetState g) st)
                    = apply_effect (SetState g) (apply_effect eff st)).
    { destruct eff; simpl in *; try done. by rewrite Heff. }
    rewrite Hswap. by apply IH.
  - by apply IH.
  - destruct Hall as [_ Hk]. by apply IH.
Qed.

Lemma updater_commutes_with_narration f :
  Updater false false f ->
  (forall url flag s,
     f (App.on_package (ScriptPackage.with_audio url flag) s)
     = App.on_package (ScriptPackage.with_audio url flag) (f s)) /\
  (forall flag s,
     f (App.on_package (ScriptPackage.with_isAudioGenerating flag) s)
     = App.on_package (ScriptPackage.with_isAudioGenerating flag) (f s)).
Proof.
  intros Hf. inversion Hf; subst; split; intros;
    match goal with s : WorkflowState.t |- _ =>
      destruct s as [st sn io si [pkg|] ri sr nk] end; reflexivity.
Qed.

(** X3.  It makes no difference to the workflow state whether the
    narration promise settles before or after the scene loop, a
    regeneration or an animation ran: these never write the narration
    fields, and the narration callbacks never write what they write. *)
Theorem narration_may_settle_before_or_after (env : Env) n (o : Outcome string) st :
  (forall refUrl segs,
     Run.final (run env n (App.generateScenes refUrl segs) (settle (App.speech_settled o) st))
     = settle (App.speech_settled o) (Run.final (run env n (App.generateScenes refUrl segs) st))) /\
  (forall state h,
     replaces_script h = false -> starts_narration h = false ->
     Run.final (run env n (handle state h) (settle (App.speech_settled o) st))
     = settle (App.speech_settled o) (Run.final (run env n (handle state h) st))).
Proof.
  assert (Hmove : forall (p : Async unit),
            all_updaters (Updater false false) p ->
            Run.final (run env n p (settle (App.speech_settled o) st))
            = settle (App.speech_settled o) (Run.final (run env n p st))).
  { intros p Hp.
    assert (Hg : forall g,
              (forall f, Updater false false f -> forall s, f (g s) = g (f s)) ->
              Run.final (run env n p (apply_effect (SetState g) st))
              = apply_effect (SetState g) (Run.final (run env n p st))).
    { intros g Hcomm. apply run_commutes.
      clear -Hp Hcomm. induction p as [a|e|eff k IH|R c k IH|R c h k IH]; simpl in *.
      - done.
      - done.
      - destruct Hp as [Heff Hk]. split; [|by apply IH].
        destruct eff; simpl in *; try done. by apply Hcomm.
      - intros o'. by apply IH.
      - destruct Hp as [Hh Hk]. split; [|by apply IH].
        intros o'. eapply Forall_impl; [apply Hh|].
        intros eff Heff. destruct eff; simpl in *; try done. by apply Hcomm. }
    destruct o as [url|e]; cbn [settle App.speech_settled foldl].
    - apply Hg. intros f Hf s. by apply (updater_commutes_with_narration f Hf).
    - change (apply_effect (ConsoleError "Audio failed" e) ?x) with x.
      apply Hg. intros f Hf s. by apply (updater_commutes_with_narration f Hf). }
  split.
  - intros refUrl segs. apply Hmove. apply all_updaters_generateScenes.
  - intros state h Hs Hn. apply Hmove.
    pose proof (handlers_use_updaters state h) as Hall.
    by rewrite Hs, Hn in Hall.
Qed.

Lemma narration_may_settle_before_or_after_witness :
  let late := settle (App.speech_settled (Resolved "blob:new-narration"))
                (Run.final (run (scene_env (Resolved "data:new")) 0
                              (handle production_workflow (RegenerateScene animated_segment))
                              production_state)) in
  Run.final (run (scene_env (Resolved "data:new")) 0
               (handle production_workflow (RegenerateScene animated_segment))
               (settle (App.speech_settled (Resolved "blob:new-narration")) production_state))
  = late.
Proof.
  exact (proj2 (narration_may_settle_before_or_after
                  (scene_env (Resolved "data:new")) 0 (Resolved "blob:new-narration")
                  production_state)
           production_workflow (RegenerateScene animated_segment) eq_refl eq_refl).
Defined.

(** ** Stage transitions *)

(** X4.  [loadNews] never touches the workflow state and never throws.
    When the news call resolves, the list of news is replaced by what it
    resolved with; when it is rejected, the list stays and the failure
    is reported in one alert.  The loading flag is down at the end. *)
Theorem loadNews_replaces_or_keeps_the_list (env : Env) n st :
  let out := run env n App.loadNews st in
  Run.result out = Resolved tt /\
  AppState.state (Run.final out) = AppState.state st /\
  AppState.loading (Run.final out) = false /\
  match env n _ FetchTrendingNews with
  | Resolved trending =>
      AppState.news (Run.final out) = trending /\ alerts (Run.trace out) = []
  | Rejected _ =>
      AppState.news (Run.final out) = AppState.news st /\
      alerts (Run.trace out) = ["Failed to fetch news."]
  end.
Proof. simpl. by destruct (env n (list NewsItem.t) FetchTrendingNews). Qed.

(** X5.  When ideation resolves, [selectNews] publishes the step
    [IDEATION] and the ideas in one update: every state the component
    goes through is either still in the news step or already has the
    ideas the call resolved with. *)
Theorem selectNews_success_is_atomic (env : Env) n item st ideas :
  WorkflowState.step (AppState.state st) = NEWS ->
  env n _ (GenerateIdeation (NewsItem.title item) (NewsItem.snippet item)) = Resolved ideas ->
  let out := run env n (App.selectNews item) st in
  let after := AppState.state (Run.final out) in
  WorkflowState.step after = IDEATION /\
  WorkflowState.ideationOptions after = ideas /\
  WorkflowState.selectedNews after = Some item /\
  AppState.loading (Run.final out) = false /\
  Forall (fun s =>
            WorkflowState.step (AppState.state s) = NEWS \/
            (WorkflowState.step (AppState.state s) = IDEATION /\
             WorkflowState.ideationOptions (AppState.state s) = ideas))
    (states_after st (Run.trace out)).
Proof.
  intros Hstep Hcall. simpl. rewrite Hcall. simpl.
  split; [done|]. split; [done|]. split; [done|]. split; [done|].
  repeat (apply Forall_cons; split;
          [first [by left | by right]|]).
  apply Forall_nil; exact I.
Qed.

Lemma selectNews_success_is_atomic_witness :
  let out := run (ideas_env [sample_idea]) 0 (App.selectNews sample_item) AppState.initial in
  WorkflowState.step (AppState.state (Run.final out)) = IDEATION /\
  WorkflowState.ideationOptions (AppState.state (Run.final out)) = [sample_idea].
Proof.
  destruct (selectNews_success_is_atomic (ideas_env [sample_idea]) 0 sample_item
              AppState.initial [sample_idea] eq_refl eq_refl) as (H1 & H2 & _).
  split; assumption.
Defined.

(** X6.  [selectIdea] records the chosen idea at once and commits the
    rest only on success: when script generation resolves, the step
    becomes [SCRIPT] and the package is the one it resolved with; when it
    is rejected, step and package stay as they were and one alert
    reports it.  In both cases nothing is thrown, the loading flag is
    down, and no other field of the workflow state changes. *)
Theorem selectIdea_commits_only_on_success (env : Env) n idea st :
  let call := GenerateScriptPackage (IdeationItem.title idea) (IdeationItem.description idea) in
  let out := run env n (App.selectIdea idea) st in
  let before := AppState.state st in
  let after := AppState.state (Run.final out) in
  Run.result out = Resolved tt /\
  AppState.loading (Run.final out) = false /\
  WorkflowState.selectedIdea after = Some idea /\
  WorkflowState.selectedNews after = WorkflowState.selectedNews before /\
  WorkflowState.ideationOptions after = WorkflowState.ideationOptions before /\
  WorkflowState.refImages after = WorkflowState.refImages before /\
  WorkflowState.selectedRefImageUrl after = WorkflowState.selectedRefImageUrl before /\
  WorkflowState.needsApiKey after = WorkflowState.needsApiKey before /\
  match env n _ call with
  | Resolved pkg =>
      WorkflowState.step after = SCRIPT /\
      WorkflowState.scriptPackage after = Some pkg /\
      alerts (Run.trace out) = []
  | Rejected _ =>
      WorkflowState.step after = WorkflowState.step before /\
      WorkflowState.scriptPackage after = WorkflowState.scriptPackage before /\
      alerts (Run.trace out) = ["Failed to generate script."]
  end.
Proof. simpl. by destruct (env n ScriptPackage.t _). Qed.

(** X7.  [generateReferenceImages] does nothing without a script
    package.  With one, it asks for variants of the package's
    [mainRefPrompt]; when that resolves, the step becomes [REF_IMAGE]
    and the reference images are the urls in the order received, the one
    at position [i] under the id [ref-<i>], so with pairwise distinct
    ids; when it is rejected, the workflow state is unchanged and one
    alert reports it. *)
Theorem generateReferenceImages_outcomes (env : Env) n state st :
  let out := run env n (App.generateReferenceImages state) st in
  match WorkflowState.scriptPackage state with
  | None => out = Run.mk [] st (Resolved tt) n
  | Some pkg =>
      Run.result out = Resolved tt /\
      AppState.loading (Run.final out) = false /\
      match env n _ (GenerateRefImages (ScriptPackage.mainRefPrompt pkg)) with
      | Resolved urls =>
          let imgs := WorkflowState.refImages (AppState.state (Run.final out)) in
          WorkflowState.step (AppState.state (Run.final out)) = REF_IMAGE /\
          WorkflowState.scriptPackage (AppState.state (Run.final out))
            = WorkflowState.scriptPackage (AppState.state st) /\
          length imgs = length urls /\
          (forall i url, urls !! i = Some url ->
             imgs !! i = Some (RefImage.mk ("ref-" ++ Js.toString i) url)) /\
          NoDup (RefImage.id <$> imgs)
      | Rejected _ =>
          AppState.state (Run.final out) = AppState.state st /\
          alerts (Run.trace out) = ["Failed to generate style variations."]
      end
  end.
Proof.
  unfold App.generateReferenceImages.
  destruct (WorkflowState.scriptPackage state) as [pkg|]; [|done].
  simpl. destruct (env n (list string) _) as [urls|e]; simpl; [|done].
  repeat split.
  - apply length_imap.
  - intros i url Hi. by rewrite list_lookup_imap, Hi.
  - apply NoDup_alt. intros i j id. rewrite !list_lookup_fmap, !list_lookup_imap.
    destruct (urls !! i) as [ui|]; [|done]. destruct (urls !! j) as [uj|]; [|done].
    simpl. intros [= <-] [= Heq].
    apply (inj (String.app _)) in Heq. by apply (inj pretty) in Heq.
Qed.

Lemma generateScenes_manualRef (env : Env) refUrl segs :
  forall n st,
    AppState.manualRef (Run.final (run env n (App.generateScenes refUrl segs) st))
    = AppState.manualRef st.
Proof.
  induction segs as [|seg rest IH]; intros n st; [done|].
  rewrite generateScenes_cons. cbn [Run.after Run.final]. by rewrite IH.
Qed.

(** X8.  [selectRefImage] enters production before anything else
    happens: every call it issues, and every state it goes through, is
    in the step [PRODUCTION] with the chosen url as the selected
    reference, and so is its final state.  A manual upload does the same
    with the file's data url, after recording the file.  Without a
    script package in the snapshot the step is entered all the same and
    no call is made. *)
Theorem selectRefImage_enters_production_first (env : Env) n state st :
  let entered url := fun s =>
    WorkflowState.step s = PRODUCTION /\ WorkflowState.selectedRefImageUrl s = Some url in
  (forall url,
     let out := run env n (App.selectRefImage state url) st in
     entered url (AppState.state (Run.final out)) /\
     Forall (fun s => entered url (AppState.state s)) (states_at_issue (Run.trace out)) /\
     Forall (fun s => entered url (AppState.state s)) (states_after st (Run.trace out)) /\
     (WorkflowState.scriptPackage state = None -> Run.awaited out = n)) /\
  (forall file,
     let out := run env n (App.handleManualRefSelect state file) st in
     entered (UploadedFile.base64 file) (AppState.state (Run.final out)) /\
     AppState.manualRef (Run.final out) = Some file /\
     Forall (fun s => entered (UploadedFile.base64 file) (AppState.state s))
       (states_at_issue (Run.trace out))).
Proof.
  intros entered.
  set (P := fun f : WorkflowState.t -> WorkflowState.t =>
              forall s, WorkflowState.step (f s) = WorkflowState.step s /\
                        WorkflowState.selectedRefImageUrl (f s)
                        = WorkflowState.selectedRefImageUrl s).
  assert (HP : forall url f, P f -> forall s, entered url s -> entered url (f s)).
  { intros url f Hf s [H1 H2]. destruct (Hf s) as [E1 E2].
    unfold entered. split; congruence. }
  assert (Hpkg : forall g, P (App.on_package g)).
  { intros g s. unfold App.on_package. by destruct (WorkflowState.scriptPackage s). }
  assert (Hprod : forall refUrl, all_updaters P (App.generateProductionAssets state refUrl)).
  { intros refUrl. apply all_updaters_production; intros; apply Hpkg. }
  assert (Hmanual : forall url n' st',
            AppState.manualRef (Run.final (run env n' (App.generateProductionAssets state url) st'))
            = AppState.manualRef st').
  { intros url n' st'.
    destruct (WorkflowState.scriptPackage state) as [pkg|] eqn:Hpkg'.
    - rewrite (generateProductionAssets_prefix env n' state url st' pkg Hpkg').
      cbn [Run.after Run.final]. rewrite generateScenes_manualRef.
      by destruct (env n' string _).
    - unfold App.generateProductionAssets. by rewrite Hpkg'. }
  split.
  - intros url out. subst out. unfold App.selectRefImage. rewrite run_bind. unfold then_run.
    cbn [App.setState perform run Run.after Run.result Run.trace Run.final Run.awaited app].
    set (st1 := apply_effect (SetState (WorkflowState.with_production url)) st).
    assert (Hst1 : entered url (AppState.state st1)) by done.
    destruct (run_keeps_invariant (entered url) P (HP url) env _ (Hprod url) n st1 Hst1)
      as (H1 & H2 & _).
    pose proof (run_keeps_invariant_at_issue (entered url) P env _ (HP url) (Hprod url)
                  n st1 Hst1) as H3.
    destruct (run env n (App.generateProductionAssets state url) st1) as [tr fin res k] eqn:Hrun.
    simpl in *. repeat split; try done; try apply H1.
    + by constructor.
    + intros Hnone. unfold App.generateProductionAssets in Hrun. rewrite Hnone in Hrun.
      simpl in Hrun. by injection Hrun as _ _ _ <-.
  - intros file out. subst out. unfold App.handleManualRefSelect, App.selectRefImage.
    rewrite run_bind. unfold then_run.
    cbn [perform run Run.after Run.result Run.trace Run.final Run.awaited app].
    rewrite run_bind. unfold then_run.
    cbn [App.setState perform run Run.after Run.result Run.trace Run.final Run.awaited app].
    set (url := UploadedFile.base64 file).
    set (st1 := apply_effect (SetState (WorkflowState.with_production url))
                  (apply_effect (SetManualRef file) st)).
    assert (Hst1 : entered url (AppState.state st1)) by done.
    destruct (run_keeps_invariant (entered url) P (HP url) env _ (Hprod url) n st1 Hst1)
      as (H1 & _ & _).
    pose proof (run_keeps_invariant_at_issue (entered url) P env _ (HP url) (Hprod url)
                  n st1 Hst1) as H3.
    pose proof (Hmanual url n st1) as H4.
    destruct (run env n (App.generateProductionAssets state url) st1) as [tr fin res k].
    simpl in *. repeat split; try done; apply H1.
Qed.

(** ** Animation *)

(** X9.  With an image to animate, [animateScene] first asks whether a
    key is selected, in the state as it is.  Only the answer [true] lets
    it go on to the video call.  On any other answer it sets
    [needsApiKey], leaves the rest of the workflow state alone and
    returns; when the question itself fails, the failure is not caught
    and nothing is changed. *)
Theorem animateScene_asks_for_a_key_first (env : Env) n segment st c u :
  ScriptSegment.imageUrl segment = Some (String c u) ->
  let out := run env n (App.animateScene segment) st in
  let after := AppState.state (Run.final out) in
  states_at_issue (Run.trace out) !! 0 = Some st /\
  match env n _ HasSelectedApiKey with
  | Resolved (Some true) => Run.awaited out = S (S n) /\ Run.result out = Resolved tt
  | Resolved _ =>
      Run.awaited out = S n /\ Run.result out = Resolved tt /\
      WorkflowState.needsApiKey after = Some true /\
      WorkflowState.scriptPackage after = packaged st /\
      WorkflowState.step after = WorkflowState.step (AppState.state st) /\
      alerts (Run.trace out) = []
  | Rejected e =>
      Run.awaited out = S n /\ Run.result out = Rejected e /\ Run.final out = st
  end.
Proof.
  intros Himg. unfold App.animateScene. rewrite Himg. simpl.
  split; [done|].
  destruct (env n (option bool) HasSelectedApiKey) as [[[|]|]|e]; simpl; try done.
  by destruct (env (S n) string _) as [videoUrl|e]; simpl;
    [|destruct (App.entity_not_found e)].
Qed.

Lemma animateScene_asks_for_a_key_first_witness :
  let out := run (scene_env (Resolved "data:new")) 0 (App.animateScene still_segment)
               production_state in
  Run.awaited out = 1 /\ Run.result out = Rejected (Error "unavailable") /\
  Run.final out = production_state.
Proof.
  exact (proj2 (animateScene_asks_for_a_key_first (scene_env (Resolved "data:new")) 0
                  still_segment production_state "d"%char "ata:frame-1" eq_refl)).
Defined.

(** X10.  With a key selected, [animateScene] marks the segment as
    animating before the video call is issued and clears the mark when
    it has settled, whatever the outcome; the image of the segment and
    its generation flag are not touched.  A resolved call stores the
    video url.  A rejected call keeps the video url the segment had, and
    is reported: by [needsApiKey] when the message says that the
    requested entity was not found, by an alert otherwise.  Nothing is
    thrown. *)
Theorem animateScene_settles_the_segment (env : Env) n segment st c u pkg k s :
  ScriptSegment.imageUrl segment = Some (String c u) ->
  env n _ HasSelectedApiKey = Resolved (Some true) ->
  packaged st = Some pkg ->
  ScriptPackage.segments pkg !! k = Some s ->
  ScriptSegment.id s = ScriptSegment.id segment ->
  let call := GenerateSceneVideo (String c u) (ScriptSegment.imagePrompt segment) in
  let out := run env n (App.animateScene segment) st in
  Run.result out = Resolved tt /\
  (exists pending pkg1 s1,
     states_at_issue (Run.trace out) = [st; pending] /\
     packaged pending = Some pkg1 /\
     ScriptPackage.segments pkg1 !! k = Some s1 /\
     ScriptSegment.isVideoGenerating s1 = Some true /\
     ScriptSegment.videoUrl s1 = ScriptSegment.videoUrl s) /\
  exists pkg2 s2,
    packaged (Run.final out) = Some pkg2 /\
    ScriptPackage.segments pkg2 !! k = Some s2 /\
    ScriptSegment.isVideoGenerating s2 = Some false /\
    ScriptSegment.imageUrl s2 = ScriptSegment.imageUrl s /\
    ScriptSegment.isGenerating s2 = ScriptSegment.isGenerating s /\
    match env (S n) _ call with
    | Resolved videoUrl =>
        ScriptSegment.videoUrl s2 = Some videoUrl /\
        WorkflowState.needsApiKey (AppState.state (Run.final out))
          = WorkflowState.needsApiKey (AppState.state st) /\
        alerts (Run.trace out) = []
    | Rejected e =>
        ScriptSegment.videoUrl s2 = ScriptSegment.videoUrl s /\
        if App.entity_not_found e
        then WorkflowState.needsApiKey (AppState.state (Run.final out)) = Some true /\
             alerts (Run.trace out) = []
        else WorkflowState.needsApiKey (AppState.state (Run.final out))
               = WorkflowState.needsApiKey (AppState.state st) /\
             alerts (Run.trace out) = ["Animation failed. Check API key billing."]
    end.
Proof.
  intros Himg Hkey Hpkg Hk Hid call out. subst out.
  unfold App.animateScene. rewrite Himg.
  cbn [mbind Async_bind await bind run complete Run.after Run.result Run.trace Run.final
       Run.awaited app].
  rewrite Hkey.
  set (id := ScriptSegment.id segment) in *.
  set (animating := fun b => Updates.literal None None None (Some (Some b))).
  set (pending := apply_effect (SetState (App.segment_updater id (animating true))) st).
  pose proof (packaged_update id (animating true) st pkg Hpkg) as Hpending.
  fold pending in Hpending.
  pose proof (update_one_lookup id (animating true) _ _ _ Hk) as Hk1.
  rewrite (update_one_same _ _ _ Hid) in Hk1.
  simpl. fold id. fold (animating true) (animating false). fold pending. fold call.
  destruct (env (S n) string call) as [videoUrl|e] eqn:Hcall; simpl.
  - split; [done|]. split.
    + exists pending. eexists _, _. split; [done|]. split; [exact Hpending|].
      split; [exact Hk1|]. done.
    + eexists _, _. split; [exact (packaged_update id _ pending _ Hpending)|].
      split.
      * simpl. rewrite (update_one_lookup _ _ _ _ _ Hk1).
        rewrite update_one_same; [done|exact Hid].
      * repeat split; try done.
        unfold pending. simpl.
        by rewrite !(proj2 (proj2 (proj2 (proj2 (proj2 (proj2 (segment_updater_rest _ _ _))))))).
  - split; [by destruct (App.entity_not_found e)|]. split.
    + exists pending. eexists _, _.
      split; [by destruct (App.entity_not_found e)|]. split; [exact Hpending|].
      split; [exact Hk1|]. done.
    + destruct (App.entity_not_found e) eqn:Hfound; simpl.
      * set (asked := apply_effect (SetState (WorkflowState.with_needsApiKey true)) pending).
        assert (Hasked : packaged asked = packaged pending) by done.
        rewrite Hpending in Hasked.
        eexists _, _. split; [exact (packaged_update id _ asked _ Hasked)|].
        split.
        -- simpl. rewrite (update_one_lookup _ _ _ _ _ Hk1).
           rewrite update_one_same; [done|exact Hid].
        -- repeat split; try done.
           unfold asked, pending. simpl.
           by rewrite !(proj2 (proj2 (proj2 (proj2 (proj2 (proj2 (segment_updater_rest _ _ _))))))).
      * eexists _, _. split; [exact (packaged_update id _ pending _ Hpending)|].
        split.
        -- simpl. rewrite (update_one_lookup _ _ _ _ _ Hk1).
           rewrite update_one_same; [done|exact Hid].
        -- repeat split; try done.
           unfold pending. simpl.
           by rewrite !(proj2 (proj2 (proj2 (proj2 (proj2 (proj2 (segment_updater_rest _ _ _))))))).
Qed.

Lemma animateScene_settles_the_segment_witness :
  let out := run (keyed (Rejected (Error "Requested entity was not found."))) 0
               (App.animateScene still_segment) production_state in
  Run.result out = Resolved tt /\
  WorkflowState.needsApiKey (AppState.state (Run.final out)) = Some true /\
  alerts (Run.trace out) = [].
Proof.
  destruct (animateScene_settles_the_segment
              (keyed (Rejected (Error "Requested entity was not found."))) 0
              still_segment production_state
              "d"%char "ata:frame-1" sample_package 1 still_segment
              eq_refl eq_refl eq_refl eq_refl eq_refl)
    as (Hres & _ & pkg2 & s2 & _ & _ & _ & _ & _ & Hrej).
  split; [exact Hres|]. exact (proj2 Hrej).
Defined.

(** ** [updateSegment], once more *)

Lemma update_one_commute id1 id2 i1 v1 g1 a1 i2 v2 g2 a2 s :
  id1 <> id2 ->
  update_one id1 (Updates.literal i1 v1 g1 a1) (update_one id2 (Updates.literal i2 v2 g2 a2) s)
  = update_one id2 (Updates.literal i2 v2 g2 a2) (update_one id1 (Updates.literal i1 v1 g1 a1) s).
Proof.
  intros Hne. unfold update_one.
  destruct (String.eqb (ScriptSegment.id s) id1) eqn:E1,
           (String.eqb (ScriptSegment.id s) id2) eqn:E2; simpl; rewrite ?E1, ?E2; try done.
  apply String.eqb_eq in E1, E2. congruence.
Qed.

Lemma update_one_twice id i v g a s :
  update_one id (Updates.literal i v g a) (update_one id (Updates.literal i v g a) s)
  = update_one id (Updates.literal i v g a) s.
Proof.
  unfold update_one.
  destruct (String.eqb (ScriptSegment.id s) id) eqn:E; simpl; rewrite ?E; [|done].
  unfold merge. simpl. by destruct i, v, g, a.
Qed.

(** X11.  [updateSegment] addresses segments by id and nothing else.
    Updates for two different ids can be applied in either order; an
    update applied twice is applied once; and an update for an id that
    no segment has changes nothing, as does any update when there is no
    package. *)
Theorem updateSegment_addresses_segments_by_id id1 id2 i1 v1 g1 a1 i2 v2 g2 a2 prev :
  let u1 := Updates.literal i1 v1 g1 a1 in
  let u2 := Updates.literal i2 v2 g2 a2 in
  (id1 <> id2 ->
   App.segment_updater id1 u1 (App.segment_updater id2 u2 prev)
   = App.segment_updater id2 u2 (App.segment_updater id1 u1 prev)) /\
  App.segment_updater id1 u1 (App.segment_updater id1 u1 prev) = App.segment_updater id1 u1 prev /\
  ((forall pkg, WorkflowState.scriptPackage prev = Some pkg ->
      Forall (fun s => ScriptSegment.id s <> id1) (ScriptPackage.segments pkg)) ->
   App.segment_updater id1 u1 prev = prev).
Proof.
  intros u1 u2.
  destruct prev as [step sn io si [pkg|] ri sr nk]; [|done].
  unfold App.segment_updater, App.on_package; simpl.
  unfold WorkflowState.with_scriptPackage, ScriptPackage.with_segments; simpl.
  split; [|split].
  - intros Hne. do 2 f_equal. f_equal.
    rewrite <- !list_fmap_compose. apply list_fmap_ext. intros k s _. simpl.
    by apply update_one_commute.
  - do 2 f_equal. f_equal.
    rewrite <- !list_fmap_compose. apply list_fmap_ext. intros k s _. simpl.
    apply update_one_twice.
  - intros Hnone. specialize (Hnone pkg eq_refl).
    destruct pkg as [t d tg ct tp tu au ag mr fs segs]; simpl in *.
    do 2 f_equal. f_equal.
    rewrite <- (list_fmap_id segs) at 2. apply list_fmap_ext. intros k s Hs. simpl.
    rewrite Forall_lookup in Hnone. specialize (Hnone k s Hs). simpl in Hnone.
    destruct (String.eqb (ScriptSegment.id s) id1) eqn:E; [|done].
    by apply String.eqb_eq in E.
Qed.

(** ** [generateIdeation] *)

(** X12.  [generateIdeation] resolves exactly when the text of the
    answer is missing or parses to an array.  It then returns one idea
    per element, in order, each with the id [idea-<position>] and with
    every other property of the element as it was.  On a text that does
    not parse, or parses to something else, it is rejected, where
    [fetchTrendingNews] returns no news instead. *)
Theorem generateIdeation_rejects_what_fetchTrendingNews_swallows (text : ResponseText) :
  match GeminiService.generateIdeation text with
  | Resolved ideas =>
      exists l,
        parse_text_or text (JArr []) = Resolved (JArr l) /\
        length ideas = length l /\
        forall idx item, l !! idx = Some item ->
          exists props,
            ideas !! idx = Some (JObj props) /\
            get_prop "id" props = Some (JStr ("idea-" ++ Js.toString idx)) /\
            forall k, k <> "id" -> get_prop k props = get_prop k (spread item)
  | Rejected e =>
      GeminiService.fetchTrendingNews text = Resolved [] /\
      (text = Text Unparseable \/
       exists data, text = Text (Parsed data) /\ forall l, data <> JArr l)
  end.
Proof.
  unfold GeminiService.generateIdeation, GeminiService.fetchTrendingNews.
  destruct text as [|[|data]]; simpl.
  - exists []. repeat split; try done.
  - split; [done|]. by left.
  - destruct data; simpl;
      try (split; [done|]; right; eexists; split; [done|]; intros l; discriminate).
    exists items. split; [done|]. split; [apply length_imap|].
    intros idx item Hidx. rewrite list_lookup_imap, Hidx. simpl.
    eexists. split; [done|]. split; [apply get_set_prop|].
    intros k Hk. by apply get_set_prop_ne.
Qed.

(** ** Export: what the entries hold *)

Section Delivered.
Context (env : Env).

Lemma delivered_app tr1 tr2 : delivered (tr1 ++ tr2) = (delivered tr1 ++ delivered tr2)%list.
Proof. unfold delivered. apply omap_app. Qed.

Lemma fetchAsBlob_delivers url n st b :
  Run.result (run env n (App.fetchAsBlob url) st) = Resolved b ->
  delivered (Run.trace (run env n (App.fetchAsBlob url) st)) = [(url, b)].
Proof.
  rewrite run_fetchAsBlob. cbn [Run.result Run.trace]. intros H.
  unfold delivered. simpl. by rewrite H.
Qed.

Lemma add_optional_delivers url name zip n st zip' :
  let out := run env n (App.add_optional url name zip) st in
  Run.result out = Resolved zip' ->
  match url with
  | Some (String c u) =>
      exists b, (String c u, b) ∈ delivered (Run.trace out) /\
        zip' = zip_file name (ZBlob b) zip
  | Some EmptyString | None => zip' = zip
  end.
Proof.
  unfold App.add_optional. cbv zeta.
  destruct url as [[|c u]|]; try (by simpl; intros [= <-]).
  rewrite run_bind. unfold then_run.
  destruct (Run.result (run env n (App.fetchAsBlob (String c u)) st)) as [b|e] eqn:Hb;
    [|discriminate].
  cbn [Run.result Run.after Run.trace run]. intros [= <-].
  exists b. split; [|done].
  rewrite app_nil_r, (fetchAsBlob_delivers _ _ _ _ Hb). apply list_elem_of_here.
Qed.

Lemma add_segment_delivers i seg n st add :
  let out := run env n (App.add_segment i seg) st in
  Run.result out = Resolved add ->
  adds_download (delivered (Run.trace out)) i seg add.
Proof.
  unfold App.add_segment, adds_download, entry_name, entry_url. cbv zeta.
  destruct (ScriptSegment.videoUrl seg) as [[|c u]|]; cbn [Js.truthy].
  1,3: destruct (ScriptSegment.imageUrl seg) as [[|c' u']|]; cbn [Js.truthy];
    try (by simpl; intros [= <-]).
  all: rewrite run_bind; unfold then_run;
    match goal with
    | |- context [run env ?k (App.fetchAsBlob ?url) ?s] =>
        destruct (Run.result (run env k (App.fetchAsBlob url) s)) as [b|e] eqn:Hb;
          [|discriminate];
        cbn [Run.result Run.after Run.trace run]; intros [= <-];
        exists url, b; split; [done|]; split; [|done];
        rewrite app_nil_r, (fetchAsBlob_delivers _ _ _ _ Hb); apply list_elem_of_here
    end.
Qed.

Lemma adds_download_weaken got got' i seg add :
  (forall x, x ∈ got -> x ∈ got') ->
  adds_download got i seg add -> adds_download got' i seg add.
Proof.
  unfold adds_download. intros Hsub. destruct (entry_name i seg); [|done].
  intros (url & b & Hurl & Hin & ->). exists url, b. auto.
Qed.

Lemma promise_all_delivers (isegs : list (nat * ScriptSegment.t)) :
  forall n st adds,
    let out := run env n (promise_all ((fun iseg => App.add_segment iseg.1 iseg.2) <$> isegs)) st in
    Run.result out = Resolved adds ->
    Forall2 (fun iseg add => adds_download (delivered (Run.trace out)) iseg.1 iseg.2 add)
      isegs adds.
Proof.
  induction isegs as [|[i seg] isegs IH]; intros n st adds.
  - simpl. intros [= <-]. constructor.
  - cbn [fmap list_fmap]. rewrite run_promise_all_cons. cbv zeta. cbn [Run.result Run.trace fst snd].
    destruct (Run.result (run env n (App.add_segment i seg) st)) as [add|e] eqn:H1;
      [|discriminate].
    destruct (Run.result (run env _ (promise_all _) _)) as [adds'|e] eqn:H2; [|discriminate].
    intros [= <-]. constructor.
    + apply add_segment_delivers in H1. simpl.
      eapply adds_download_weaken; [|exact H1].
      intros x Hx. rewrite delivered_app. apply elem_of_app. by left.
    + apply IH in H2. eapply Forall2_impl; [exact H2|].
      intros [j seg'] add' Hadd. simpl in *.
      eapply adds_download_weaken; [|exact Hadd].
      intros x Hx. rewrite delivered_app. apply elem_of_app. by right.
Qed.

Lemma foldl_adds_content got (isegs : list (nat * ScriptSegment.t)) (adds : list (JSZip -> JSZip)) :
  Forall2 (fun iseg add => adds_download got iseg.1 iseg.2 add) isegs adds ->
  forall (zip : JSZip) name content,
    foldl (fun z add => add z) zip adds !! name = Some content ->
    zip !! name = Some content \/
    exists iseg url b,
      iseg ∈ isegs /\ entry_name iseg.1 iseg.2 = Some name /\
      entry_url iseg.2 = Some url /\ (url, b) ∈ got /\ content = ZBlob b.
Proof.
  induction 1 as [|iseg add isegs adds Hadd _ IH]; intros zip name content; simpl.
  - by left.
  - intros H. apply IH in H as [H|(iseg' & url & b & Hin & Hrest)].
    + unfold adds_download in Hadd.
      destruct (entry_name iseg.1 iseg.2) as [nm|] eqn:Hnm.
      * destruct Hadd as (url & b & Hurl & Hgot & ->). unfold zip_file in H.
        destruct (decide (nm = name)) as [->|Hne].
        -- rewrite lookup_insert_eq in H. injection H as <-.
           right. exists iseg, url, b. split; [apply list_elem_of_here|done].
        -- rewrite lookup_insert_ne in H by done. by left.
      * subst add. by left.
    + right. exists iseg', url, b. split; [by apply list_elem_of_further|done].
Qed.

End Delivered.

Section AssembleContents.
Context (env : Env).

Lemma assemble_delivers pkg now n st (zip : JSZip) :
  let out := run env n (App.assemble pkg now) st in
  let got := delivered (Run.trace out) in
  Run.result out = Resolved zip ->
  exists (zip1 zip2 : JSZip) adds,
    match ScriptPackage.audioUrl pkg with
    | Some (String c u) =>
        exists b, (String c u, b) ∈ got /\ zip1 = zip_file "narration.wav" (ZBlob b) ∅
    | Some EmptyString | None => zip1 = ∅
    end /\
    match ScriptPackage.thumbnailUrl pkg with
    | Some (String c u) =>
        exists b, (String c u, b) ∈ got /\ zip2 = zip_file "thumbnail.png" (ZBlob b) zip1
    | Some EmptyString | None => zip2 = zip1
    end /\
    Forall2 (fun iseg add => adds_download got iseg.1 iseg.2 add)
      (imap pair (ScriptPackage.segments pkg)) adds /\
    zip = zip_file "full_script.txt" (ZText (ScriptPackage.fullScriptPara pkg))
            (zip_file "production_metadata.json" (ZJson (App.meta pkg now))
               (foldl (fun z add => add z) zip2 adds)).
Proof.
  intros out got. subst got out. unfold App.assemble.
  assert (Himap : imap App.add_segment (ScriptPackage.segments pkg)
                  = (fun iseg => App.add_segment iseg.1 iseg.2)
                      <$> imap pair (ScriptPackage.segments pkg)).
  { rewrite fmap_imap. by apply imap_ext. }
  rewrite Himap. clear Himap.
  rewrite run_bind. unfold then_run.
  pose proof (add_optional_delivers env (ScriptPackage.audioUrl pkg) "narration.wav" ∅ n st)
    as D1. cbv zeta in D1.
  destruct (run env n (App.add_optional (ScriptPackage.audioUrl pkg) "narration.wav" ∅) st)
    as [tr1 fin1 [zip1|e] k1]; cbn [Run.result Run.trace Run.final Run.awaited Run.after] in *;
    [|discriminate].
  specialize (D1 zip1 eq_refl).
  rewrite run_bind. unfold then_run.
  pose proof (add_optional_delivers env (ScriptPackage.thumbnailUrl pkg) "thumbnail.png"
                zip1 k1 fin1) as D2. cbv zeta in D2.
  destruct (run env k1 (App.add_optional (ScriptPackage.thumbnailUrl pkg) "thumbnail.png" zip1)
              fin1)
    as [tr2 fin2 [zip2|e] k2]; cbn [Run.result Run.trace Run.final Run.awaited Run.after] in *;
    [|discriminate].
  specialize (D2 zip2 eq_refl).
  rewrite run_bind. unfold then_run.
  pose proof (promise_all_delivers env (imap pair (ScriptPackage.segments pkg)) k2 fin2) as D3.
  cbv zeta in D3.
  destruct (run env k2 (promise_all _) fin2)
    as [tr3 fin3 [adds|e] k3]; cbn [Run.result Run.trace Run.final Run.awaited Run.after] in *;
    [|discriminate].
  specialize (D3 adds eq_refl).
  cbn [run Run.result Run.trace Run.after]. intros [= <-].
  exists zip1, zip2, adds. rewrite app_nil_r, !delivered_app.
  split; [|split; [|split; [|done]]].
  - destruct (ScriptPackage.audioUrl pkg) as [[|c u]|]; try done.
    destruct D1 as (b & Hb & ->). exists b. split; [|done].
    apply elem_of_app. by left.
  - destruct (ScriptPackage.thumbnailUrl pkg) as [[|c u]|]; try done.
    destruct D2 as (b & Hb & ->). exists b. split; [|done].
    apply elem_of_app. right. apply elem_of_app. by left.
  - eapply Forall2_impl; [exact D3|].
    intros [i seg] add Hadd. eapply adds_download_weaken; [|exact Hadd].
    intros x Hx. apply elem_of_app. right. apply elem_of_app. by right.
Qed.

End AssembleContents.

Lemma entry_name_inj i j seg seg' name :
  entry_name i seg = Some name -> entry_name j seg' = Some name -> i = j.
Proof.
  intros Hi Hj.
  apply entry_name_cases in Hi as [[-> _]|[-> _]];
    apply entry_name_cases in Hj as [[Hj _]|[Hj _]].
  - by apply motion_name_inj.
  - by apply motion_name_not_frame in Hj.
  - symmetry in Hj. by apply motion_name_not_frame in Hj.
  - by apply frame_name_inj.
Qed.

(** X13.  What the entries of an assembled archive hold.  The script
    text and the manifest are those of the package.  Every other entry
    holds a blob that a download of this export delivered for the url
    the entry stands for: [narration.wav] for the audio url,
    [thumbnail.png] for the thumbnail url, and the entry of a segment
    for the segment's video url or, without one, its image url.  The
    entry of one segment never holds the download of another. *)
Theorem bundle_entries_hold_their_own_downloads (env : Env) n pkg now st (zip : JSZip) :
  let out := run env n (App.assemble pkg now) st in
  let got := delivered (Run.trace out) in
  Run.result out = Resolved zip ->
  zip !! "full_script.txt" = Some (ZText (ScriptPackage.fullScriptPara pkg)) /\
  zip !! "production_metadata.json" = Some (ZJson (App.meta pkg now)) /\
  holds_download got (ScriptPackage.audioUrl pkg) "narration.wav" zip /\
  holds_download got (ScriptPackage.thumbnailUrl pkg) "thumbnail.png" zip /\
  (forall i seg name,
     ScriptPackage.segments pkg !! i = Some seg ->
     entry_name i seg = Some name ->
     exists url b,
       entry_url seg = Some url /\ (url, b) ∈ got /\ zip !! name = Some (ZBlob b)).
Proof.
  intros out got Hrun.
  pose proof (fun name => assemble_entries env pkg now n st zip name Hrun) as Hent.
  destruct (assemble_delivers env pkg now n st zip Hrun)
    as (zip1 & zip2 & adds & H1 & H2 & Hadds & Hzip).
  fold out in H1, H2, Hadds. fold got in H1, H2, Hadds.
  pose proof (foldl_adds_content got _ _ Hadds zip2) as Hfold.
  assert (Hscene : forall name content,
            name ∉ fixed_names ->
            zip !! name = Some content ->
            exists iseg url b,
              iseg ∈ imap pair (ScriptPackage.segments pkg) /\
              entry_name iseg.1 iseg.2 = Some name /\
              entry_url iseg.2 = Some url /\ (url, b) ∈ got /\ content = ZBlob b).
  { intros name content Hname Hlook. rewrite Hzip in Hlook. unfold zip_file in Hlook.
    rewrite !lookup_insert_ne in Hlook
      by (intros <-; apply Hname; in_fixed).
    apply Hfold in Hlook as [Hlook|Hlook]; [|done].
    exfalso.
    assert (Hz1 : zip1 !! name = None).
    { destruct (ScriptPackage.audioUrl pkg) as [[|c u]|]; subst; try apply lookup_empty.
      destruct H1 as (b & _ & ->). unfold zip_file.
      rewrite lookup_insert_ne by (intros <-; apply Hname; in_fixed). apply lookup_empty. }
    destruct (ScriptPackage.thumbnailUrl pkg) as [[|c u]|]; subst; try congruence.
    destruct H2 as (b & _ & ->). unfold zip_file in Hlook.
    rewrite lookup_insert_ne in Hlook by (intros <-; apply Hname; in_fixed). congruence. }
  assert (Hfixed : forall name,
            name ∈ fixed_names ->
            foldl (fun z add => add z) zip2 adds !! name = zip2 !! name).
  { intros name Hname.
    destruct (foldl (fun z add => add z) zip2 adds !! name) as [content|] eqn:Hlook.
    - apply Hfold in Hlook as [Hlook|(iseg & url & b & _ & He & _)]; [done|].
      by apply entry_name_not_fixed in He.
    - destruct (zip2 !! name) as [content|] eqn:Hz2; [|done].
      assert (Hsome : is_Some (foldl (fun z add => add z) zip2 adds !! name)).
      { eapply foldl_adds_lookup.
        - eapply Forall2_impl; [exact Hadds|].
          intros iseg add. unfold adds_download, adds_entry.
          destruct (entry_name iseg.1 iseg.2); [|done].
          intros (url & b & _ & _ & ->). by exists b.
        - left. by rewrite Hz2. }
      rewrite Hlook in Hsome. by destruct Hsome. }
  split; [|split; [|split; [|split]]].
  - rewrite Hzip. unfold zip_file. apply lookup_insert_eq.
  - rewrite Hzip. unfold zip_file. rewrite lookup_insert_ne by done. apply lookup_insert_eq.
  - unfold holds_download. rewrite Hzip. unfold zip_file.
    rewrite !lookup_insert_ne by done. rewrite Hfixed by in_fixed.
    destruct (ScriptPackage.audioUrl pkg) as [[|c u]|].
    + subst zip1.
      destruct (ScriptPackage.thumbnailUrl pkg) as [[|c' u']|]; subst; try apply lookup_empty.
      destruct H2 as (b & _ & ->). unfold zip_file.
      rewrite lookup_insert_ne by done. apply lookup_empty.
    + destruct H1 as (b & Hb & ->). exists b. split; [done|].
      destruct (ScriptPackage.thumbnailUrl pkg) as [[|c' u']|]; subst;
        try (unfold zip_file; apply lookup_insert_eq).
      destruct H2 as (b' & _ & ->). unfold zip_file.
      rewrite lookup_insert_ne by done. apply lookup_insert_eq.
    + subst zip1.
      destruct (ScriptPackage.thumbnailUrl pkg) as [[|c' u']|]; subst; try apply lookup_empty.
      destruct H2 as (b & _ & ->). unfold zip_file.
      rewrite lookup_insert_ne by done. apply lookup_empty.
  - unfold holds_download. rewrite Hzip. unfold zip_file.
    rewrite !lookup_insert_ne by done. rewrite Hfixed by in_fixed.
    destruct (ScriptPackage.thumbnailUrl pkg) as [[|c u]|].
    + subst zip2.
      destruct (ScriptPackage.audioUrl pkg) as [[|c' u']|]; subst; try apply lookup_empty.
      destruct H1 as (b & _ & ->). unfold zip_file.
      rewrite lookup_insert_ne by done. apply lookup_empty.
    + destruct H2 as (b & Hb & ->). exists b. split; [done|].
      unfold zip_file. apply lookup_insert_eq.
    + subst zip2.
      destruct (ScriptPackage.audioUrl pkg) as [[|c' u']|]; subst; try apply lookup_empty.
      destruct H1 as (b & _ & ->). unfold zip_file.
      rewrite lookup_insert_ne by done. apply lookup_empty.
  - intros i seg name Hseg Hname.
    assert (Hsome : is_Some (zip !! name)).
    { apply Hent. right; right; left. by exists i, seg. }
    destruct Hsome as [content Hlook].
    destruct (Hscene name content (entry_name_not_fixed _ _ _ Hname) Hlook)
      as ([j seg'] & url & b & Hin & Hname' & Hurl & Hgot & ->).
    simpl in *.
    apply elem_of_lookup_imap_1 in Hin as (j' & seg'' & [= -> ->] & Hseg').
    assert (j' = i) as -> by (symmetry; by eapply entry_name_inj).
    assert (seg'' = seg) as -> by congruence.
    by exists url, b.
Qed.

Lemma bundle_entries_hold_their_own_downloads_witness :
  exists zip : JSZip,
    Run.result (run (network []) 0 (App.assemble sample_package "2024-01-01T00:00:00.000Z")
                  production_state) = Resolved zip /\
    zip !! "full_script.txt" = Some (ZText "One. Two.") /\
    zip !! "scenes/segment_02_frame.png" = Some (ZBlob "bytes of data:frame-1").
Proof.
  assert (Hok : is_resolved
                  (Run.result (run (network []) 0
                                 (App.assemble sample_package "2024-01-01T00:00:00.000Z")
                                 production_state)) = true) by (vm_compute; reflexivity).
  assert (Hgot : delivered
                   (Run.trace (run (network []) 0
                                 (App.assemble sample_package "2024-01-01T00:00:00.000Z")
                                 production_state))
                 = [("blob:narration", "bytes of blob:narration");
                    ("data:thumb", "bytes of data:thumb");
                    ("https://video/0", "bytes of https://video/0");
                    ("data:frame-1", "bytes of data:frame-1")]) by (vm_compute; reflexivity).
  destruct (Run.result (run (network []) 0
                          (App.assemble sample_package "2024-01-01T00:00:00.000Z")
                          production_state)) as [zip|e] eqn:Hrun; [|discriminate Hok].
  destruct (bundle_entries_hold_their_own_downloads _ _ _ _ _ zip Hrun)
    as (Hscript & _ & _ & _ & Hsegs).
  destruct (Hsegs 1 still_segment "scenes/segment_02_frame.png" eq_refl eq_refl)
    as (url & b & Hurl & Hin & Hlook).
  exists zip. split; [reflexivity|]. split; [exact Hscript|].
  rewrite Hgot in Hin. injection Hurl as <-.
  rewrite Hlook. do 2 f_equal.
  repeat (apply elem_of_cons in Hin as [Heq|Hin];
          [first [discriminate Heq | by injection Heq as ->]|]).
  by apply elem_of_nil in Hin.
Defined.

(** ** The image functions of the service *)

Lemma without_prefix_app prefix s : Media.without_prefix prefix (prefix ++ s) = Some s.
Proof.
  induction prefix as [|a prefix IH]; simpl; [done|].
  by rewrite Ascii.eqb_refl.
Qed.

Lemma without_prefix_startsWith prefix s :
  Js.startsWith prefix s = false -> Media.without_prefix prefix s = None.
Proof.
  revert s. induction prefix as [|a prefix IH]; intros [|b s]; simpl; try done.
  destruct (Ascii.eqb a b); [apply IH|done].
Qed.

Lemma without_prefix_Some prefix s s' :
  Media.without_prefix prefix s = Some s' -> s = prefix ++ s'.
Proof.
  revert s. induction prefix as [|a prefix IH]; intros [|b s]; simpl; try done.
  - by intros [= <-].
  - by intros [= <-].
  - destruct (Ascii.eqb a b) eqn:E; [|done].
    apply Ascii.eqb_eq in E as ->. intros H. by rewrite (IH _ H).
Qed.

(** X14.  The prefix that [generateSceneImage] and [generateSceneVideo]
    strip from an image url is exactly the one the service puts in front
    of the data it returns, so an image of the service is sent back as
    the data it came with; the prefixes of jpeg, jpg and webp data urls
    are stripped as well.  One prefix is stripped, at the start only; a
    string that starts with none of the four is passed on as it is. *)
Theorem cleanBase64_strips_one_known_prefix :
  (forall data, Media.cleanBase64 (Media.image_url data) = data) /\
  (forall prefix data,
     prefix ∈ Media.image_prefixes -> Media.cleanBase64 (prefix ++ data) = data) /\
  (forall s,
     (forall prefix, prefix ∈ Media.image_prefixes -> Js.startsWith prefix s = false) ->
     Media.cleanBase64 s = s) /\
  (forall s,
     Media.cleanBase64 s = s \/
     exists prefix, prefix ∈ Media.image_prefixes /\ s = prefix ++ Media.cleanBase64 s).
Proof.
  split; [|split; [|split]].
  - intros data. unfold Media.cleanBase64, Media.image_url, Media.image_prefixes.
    cbn [Media.strip_first]. by rewrite without_prefix_app.
  - intros prefix data Hin. unfold Media.image_prefixes in Hin.
    repeat (apply elem_of_cons in Hin as [->|Hin]; [reflexivity|]).
    by apply elem_of_nil in Hin.
  - intros s Hs. unfold Media.cleanBase64, Media.image_prefixes in *.
    cbn [Media.strip_first].
    rewrite !without_prefix_startsWith; [done| | | |]; apply Hs;
      repeat first [apply list_elem_of_here | apply list_elem_of_further].
  - intros s. unfold Media.cleanBase64, Media.image_prefixes.
    cbn [Media.strip_first].
    repeat match goal with
    | |- context [Media.without_prefix ?p s] =>
        destruct (Media.without_prefix p s) as [s'|] eqn:?;
          [right; exists p; split;
             [repeat first [apply list_elem_of_here | apply list_elem_of_further]
             |by apply without_prefix_Some]|]
    end.
    by left.
Qed.

Lemma first_data_find parts c d :
  Media.part_data (List.find Media.has_inlineData parts) = Some (String c d) ->
  Earlier.first_data parts = Some (String c d).
Proof.
  induction parts as [|[[data|]] parts IH]; simpl; [done| |exact IH].
  destruct data as [[|c' d']|]; simpl; try done.
Qed.

Lemma earlier_image_or failure failure' content url :
  (Media.find_inline content ≫= Media.image_or failure) = Resolved url ->
  Earlier.image_or failure' content = Resolved url.
Proof.
  destruct content as [|[parts|]]; simpl; try done.
  unfold Media.image_or, Earlier.image_or. simpl.
  destruct (Media.part_data (List.find Media.has_inlineData parts)) as [[|c d]|] eqn:Hfind;
    try done.
  intros [= <-]. by rewrite (first_data_find _ _ _ Hfind).
Qed.

(** X15.  Whenever [generateThumbnail] or [generateSceneImage] of the
    service returns an image, the earlier copy returns the same image
    for the same answer.  The converse fails: the service looks at the
    first part with [inlineData] only and gives up when that part has no
    data, where the earlier copy goes on to the next part; and the
    service throws a [TypeError] on a content without [parts], where the
    earlier copy reports that no image was generated. *)
Theorem earlier_copy_finds_every_image_the_service_finds :
  (forall response url,
     Media.generateThumbnail response = Resolved url ->
     Earlier.generateThumbnail response = Resolved url) /\
  (forall response url,
     Media.generateSceneImage response = Resolved url ->
     Earlier.generateSceneImage response = Resolved url) /\
  (forall data c d,
     let answer := Resolved (HasParts (Some [Part.mk (Some data); Part.mk (Some (Some (String c d)))])) in
     Js.truthy data = false ->
     Earlier.generateSceneImage answer = Resolved (Media.image_url (String c d)) /\
     Media.generateSceneImage answer = Rejected (Error "Scene image failed")) /\
  (Media.generateThumbnail (Resolved (HasParts None))
     = Rejected (TypeError "Cannot read properties of undefined (reading 'find')") /\
   Earlier.generateThumbnail (Resolved (HasParts None))
     = Rejected (Error "Thumbnail generation failed")).
Proof.
  split; [|split; [|split]].
  - intros [content|e] url; [|done]. apply earlier_image_or.
  - intros [content|e] url; [|done]. apply earlier_image_or.
  - intros [[|c' d']|] c d answer; try done.
  - done.
Qed.

Lemma refImages_from_spec responses count :
  forall i results,
    match Media.refImages_from responses i count results with
    | Resolved urls =>
        exists more,
          urls = (results ++ more)%list /\
          length more <= count /\
          Forall (fun url => exists c d, url = Media.image_url (String c d)) more /\
          forall j, i <= j < i + count ->
            is_resolved (responses j ≫= Media.find_inline) = true
    | Rejected e =>
        exists j, i <= j < i + count /\
          (responses j ≫= Media.find_inline) = Rejected e /\
          forall j', i <= j' < j ->
            is_resolved (responses j' ≫= Media.find_inline) = true
    end.
Proof.
  induction count as [|count IH]; intros i results; simpl.
  - exists []. rewrite app_nil_r. repeat split; try done. intros j Hj. lia.
  - destruct (responses i) as [content|e] eqn:Hi; simpl.
    + destruct (Media.find_inline content) as [part|e] eqn:Hpart; simpl.
      * match goal with
        | |- context [Media.refImages_from responses (S i) count ?acc] =>
            specialize (IH (S i) acc);
            destruct (Media.refImages_from responses (S i) count acc) as [urls|e]
        end.
        -- destruct IH as (more & -> & Hlen & Hall & Hres).
           destruct (Media.part_data part) as [[|c d]|].
           ++ exists more. repeat split; try done; [lia|].
              intros j Hj. destruct (decide (j = i)) as [->|Hne].
              ** by rewrite Hi; simpl; rewrite Hpart.
              ** apply Hres. lia.
           ++ exists (Media.image_url (String c d) :: more).
              rewrite <- app_assoc. repeat split; try done; [simpl; lia| |].
              ** constructor; [by eauto|done].
              ** intros j Hj. destruct (decide (j = i)) as [->|Hne].
                 --- by rewrite Hi; simpl; rewrite Hpart.
                 --- apply Hres. lia.
           ++ exists more. repeat split; try done; [lia|].
              intros j Hj. destruct (decide (j = i)) as [->|Hne].
              ** by rewrite Hi; simpl; rewrite Hpart.
              ** apply Hres. lia.
        -- destruct IH as (j & Hj & Hrej & Hbefore).
           exists j. split; [lia|]. split; [done|].
           intros j' Hj'. destruct (decide (j' = i)) as [->|Hne].
           ++ by rewrite Hi; simpl; rewrite Hpart.
           ++ apply Hbefore. lia.
      * exists i. split; [lia|]. split; [by rewrite Hi; simpl; rewrite Hpart|].
        intros j' Hj'. lia.
    + exists i. split; [lia|]. split; [by rewrite Hi|]. intros j' Hj'. lia.
Qed.

(** X16.  [generateRefImages] asks for four variations, one after the
    other.  When it resolves, all four calls resolved, and it returns at
    most four urls, each a png data url of data that is not empty: a
    variation that came without image data is left out without a word.
    When it is rejected, it is with the error of the first variation
    whose call was rejected or whose content had no [parts]; the images
    of the variations before it are lost. *)
Theorem generateRefImages_returns_at_most_four responses :
  match Media.generateRefImages responses with
  | Resolved urls =>
      length urls <= 4 /\
      Forall (fun url => exists c d, url = Media.image_url (String c d)) urls /\
      forall j, j < 4 -> is_resolved (responses j ≫= Media.find_inline) = true
  | Rejected e =>
      exists j, j < 4 /\
        (responses j ≫= Media.find_inline) = Rejected e /\
        forall j', j' < j -> is_resolved (responses j' ≫= Media.find_inline) = true
  end.
Proof.
  unfold Media.generateRefImages.
  pose proof (refImages_from_spec responses 4 0 []) as H.
  destruct (Media.refImages_from responses 0 4 []) as [urls|e].
  - destruct H as (more & -> & Hlen & Hall & Hres). simpl.
    repeat split; try done. intros j Hj. apply Hres. lia.
  - destruct H as (j & Hj & Hrej & Hbefore). exists j.
    split; [lia|]. split; [done|]. intros j' Hj'. apply Hbefore. lia.
Qed.

(** ** Video generation *)

Lemma poll_skips_pending polls k :
  forall fuel made operation,
    Operation.done operation = false ->
    (forall j, made <= j < made + k ->
       exists next, polls j = Resolved next /\ Operation.done next = false) ->
    k <= fuel ->
    exists operation',
      Operation.done operation' = false /\
      Media.poll polls fuel made operation = Media.poll polls (fuel - k) (made + k) operation'.
Proof.
  induction k as [|k IH]; intros fuel made operation Hop Hpending Hk.
  - exists operation. split; [done|]. by rewrite Nat.sub_0_r, Nat.add_0_r.
  - destruct fuel as [|fuel]; [lia|].
    destruct (Hpending made ltac:(lia)) as (next & Hnext & Hdone).
    destruct (IH fuel (S made) next Hdone) as (operation' & Hop' & Heq).
    { intros j Hj. apply Hpending. lia. }
    { lia. }
    exists operation'. split; [done|].
    simpl. rewrite Hop, Hnext, Heq. f_equal. lia.
Qed.

(** X17.  [generateSceneVideo] polls until an operation is done or a
    poll is rejected, and then returns at once.  If the operation is
    pending when it is started and the first [k] polls find it pending,
    the poll after them decides: a done operation gives its link with
    the key appended, or the error that no link was found; a rejected
    poll rejects the function.  Enough iterations give that result, and
    more do not change it.  An operation that is done when it is started
    is not polled at all, and a start that is rejected rejects the
    function. *)
Theorem generateSceneVideo_ends_with_the_first_settled_poll
    apiKey (polls : nat -> Outcome Operation.t) operation k fuel :
  Operation.done operation = false ->
  (forall j, j < k ->
     exists next, polls j = Resolved next /\ Operation.done next = false) ->
  k < fuel ->
  (forall last,
     polls k = Resolved last -> Operation.done last = true ->
     Media.generateSceneVideo apiKey (Resolved operation) polls fuel
     = Some (Media.video_link apiKey last, S k)) /\
  (forall e,
     polls k = Rejected e ->
     Media.generateSceneVideo apiKey (Resolved operation) polls fuel
     = Some (Rejected e, S k)) /\
  (forall started,
     Operation.done started = true ->
     Media.generateSceneVideo apiKey (Resolved started) polls fuel
     = Some (Media.video_link apiKey started, 0)) /\
  (forall e,
     Media.generateSceneVideo apiKey (Rejected e) polls fuel = Some (Rejected e, 0)).
Proof.
  intros Hop Hpending Hk.
  assert (Hskip : exists operation',
            Operation.done operation' = false /\
            Media.poll polls fuel 0 operation
            = Media.poll polls (fuel - k) k operation').
  { destruct (poll_skips_pending polls k fuel 0 operation Hop) as (operation' & Hop' & Heq).
    - intros j Hj. apply Hpending. lia.
    - lia.
    - by exists operation'. }
  destruct Hskip as (operation' & Hop' & Hskip).
  destruct (fuel - k) as [|fuel'] eqn:Hfuel; [lia|].
  split; [|split; [|split]].
  - intros last Hlast Hdone. unfold Media.generateSceneVideo. rewrite Hskip.
    simpl. rewrite Hop', Hlast. destruct fuel'; simpl; by rewrite Hdone.
  - intros e He. unfold Media.generateSceneVideo. rewrite Hskip.
    simpl. by rewrite Hop', He.
  - intros started Hdone. unfold Media.generateSceneVideo.
    destruct fuel; simpl; by rewrite Hdone.
  - done.
Qed.

Lemma generateSceneVideo_ends_with_the_first_settled_poll_witness :
  Media.generateSceneVideo (Some "KEY") (Resolved pending_operation) done_at_third_poll 5
  = Some (Resolved "https://video/1&key=KEY", 3).
Proof.
  refine (proj1 (generateSceneVideo_ends_with_the_first_settled_poll
                   (Some "KEY") done_at_third_poll pending_operation 2 5 eq_refl _ _)
            done_operation eq_refl eq_refl).
  - intros j Hj. exists pending_operation. split; [|done].
    unfold done_at_third_poll. by destruct j as [|[|j]]; [| |lia].
  - lia.
Defined.

(** X18.  [generateSceneVideo] has no limit of its own: as long as every
    poll finds the operation pending, it goes on polling, however many
    iterations it is given. *)
Theorem generateSceneVideo_never_gives_up
    apiKey (polls : nat -> Outcome Operation.t) operation :
  Operation.done operation = false ->
  (forall j, exists next, polls j = Resolved next /\ Operation.done next = false) ->
  forall fuel, Media.generateSceneVideo apiKey (Resolved operation) polls fuel = None.
Proof.
  intros Hop Hpending fuel. unfold Media.generateSceneVideo.
  destruct (poll_skips_pending polls fuel fuel 0 operation Hop) as (operation' & Hop' & ->).
  { intros j _. apply Hpending. }
  { lia. }
  rewrite Nat.sub_diag. simpl. by rewrite Hop'.
Qed.

Lemma generateSceneVideo_never_gives_up_witness :
  Media.generateSceneVideo None (Resolved pending_operation) never_done 1000 = None.
Proof.
  apply (generateSceneVideo_never_gives_up None never_done pending_operation eq_refl).
  intros j. by exists pending_operation.
Defined.

(** ** Speech *)

Lemma number_of_four_bytes (value : Z) :
  DataView.number (DataView.bytes_of 4 value true) = (value mod 2 ^ 32)%Z.
Proof.
  unfold DataView.number, DataView.bytes_of, DataView.byte. simpl.
  change 255%Z with (Z.ones 8). rewrite !Z.land_ones by lia.
  rewrite !Z.shiftr_div_pow2 by lia.
  change (2 ^ 0)%Z with 1%Z. change (2 ^ 8)%Z with 256%Z.
  change (2 ^ 16)%Z with 65536%Z. change (2 ^ 24)%Z with 16777216%Z.
  change (2 ^ 32)%Z with 4294967296%Z.
  rewrite Z.div_1_r. Z.div_mod_to_equations. lia.
Qed.

Lemma number_of_two_bytes (value : Z) :
  DataView.number (DataView.bytes_of 2 value true) = (value mod 2 ^ 16)%Z.
Proof.
  unfold DataView.number, DataView.bytes_of, DataView.byte. simpl.
  change 255%Z with (Z.ones 8). rewrite !Z.land_ones by lia.
  rewrite !Z.shiftr_div_pow2 by lia.
  change (2 ^ 0)%Z with 1%Z. change (2 ^ 8)%Z with 256%Z.
  change (2 ^ 16)%Z with 65536%Z.
  rewrite Z.div_1_r. Z.div_mod_to_equations. lia.
Qed.

Lemma pcmToWav_header (pcmData : list Z) (sampleRate : Z) :
  let size := Z.of_nat (length pcmData) in
  Speech.pcmToWav pcmData sampleRate
  = Resolved
      (AudioBlob.mk
         ([82; 73; 70; 70]%Z ++ DataView.bytes_of 4 (36 + size) true ++ [87; 65; 86; 69]%Z
          ++ [102; 109; 116; 32]%Z ++ [16; 0; 0; 0]%Z ++ [1; 0]%Z ++ [1; 0]%Z
          ++ DataView.bytes_of 4 sampleRate true ++ DataView.bytes_of 4 (sampleRate * 2) true
          ++ [2; 0]%Z ++ [16; 0]%Z ++ [100; 97; 116; 97]%Z ++ DataView.bytes_of 4 size true
          ++ pcmData)%list
         "audio/wav").
Proof.
  intros size. unfold Speech.pcmToWav. fold size. generalize size. clear size. intros size.
  reflexivity.
Qed.

Lemma byte_range value k : (0 <= DataView.byte value k < 256)%Z.
Proof.
  unfold DataView.byte. change 255%Z with (Z.ones 8). rewrite Z.land_ones by lia.
  apply Z.mod_pos_bound. lia.
Qed.

Lemma bytes_range size value littleEndian :
  Forall (fun b => 0 <= b < 256)%Z (DataView.bytes_of size value littleEndian).
Proof.
  assert (H : Forall (fun b => 0 <= b < 256)%Z (DataView.byte value <$> seq 0 size)).
  { apply Forall_fmap, Forall_forall. intros k _. apply byte_range. }
  unfold DataView.bytes_of. destruct littleEndian; [done|]. by apply Forall_reverse.
Qed.

(** X19.  [pcmToWav] never fails.  The blob it returns has the type
    [audio/wav] and consists of a header of 44 bytes followed by the
    samples as they were given.  Read back, the header has the tags
    [RIFF], [WAVE], [fmt ] and [data]; it declares uncompressed audio,
    one channel, 16 bits a sample and 2 bytes a frame; and, each in its
    32-bit field, the sample rate, twice the sample rate as the byte
    rate, the number of sample bytes as the data size and 36 more as the
    size of the file after its first 8 bytes. *)
Theorem pcmToWav_writes_a_consistent_header (pcmData : list Z) (sampleRate : Z) :
  exists wav,
    Speech.pcmToWav pcmData sampleRate = Resolved wav /\
    AudioBlob.type wav = "audio/wav" /\
    length (AudioBlob.bytes wav) = 44 + length pcmData /\
    drop 44 (AudioBlob.bytes wav) = pcmData /\
    let header := take 44 (AudioBlob.bytes wav) in
    let size := Z.of_nat (length pcmData) in
    Forall (fun b => 0 <= b < 256)%Z header /\
    DataView.getUint32 0 false header = 0x52494646%Z /\
    DataView.getUint32 8 false header = 0x57415645%Z /\
    DataView.getUint32 12 false header = 0x666d7420%Z /\
    DataView.getUint32 36 false header = 0x64617461%Z /\
    DataView.getUint32 16 true header = 16%Z /\
    DataView.getUint16 20 true header = 1%Z /\
    DataView.getUint16 22 true header = 1%Z /\
    DataView.getUint16 32 true header = 2%Z /\
    DataView.getUint16 34 true header = 16%Z /\
    DataView.getUint32 24 true header = (sampleRate mod 2 ^ 32)%Z /\
    DataView.getUint32 28 true header = ((sampleRate * 2) mod 2 ^ 32)%Z /\
    DataView.getUint32 40 true header = (size mod 2 ^ 32)%Z /\
    DataView.getUint32 4 true header = ((36 + size) mod 2 ^ 32)%Z.
Proof.
  eexists. split; [apply pcmToWav_header|].
  cbn [AudioBlob.type AudioBlob.bytes].
  split; [done|]. split; [by rewrite !length_app; simpl; lia|]. split; [reflexivity|].
  set (size := Z.of_nat (length pcmData)). split.
  - change (Forall (fun b => 0 <= b < 256)%Z
              ([82; 73; 70; 70]%Z ++ DataView.bytes_of 4 (36 + size) true ++ [87; 65; 86; 69]%Z
               ++ [102; 109; 116; 32]%Z ++ [16; 0; 0; 0]%Z ++ [1; 0]%Z ++ [1; 0]%Z
               ++ DataView.bytes_of 4 sampleRate true ++ DataView.bytes_of 4 (sampleRate * 2) true
               ++ [2; 0]%Z ++ [16; 0]%Z ++ [100; 97; 116; 97]%Z
               ++ DataView.bytes_of 4 size true)%list).
    repeat (apply Forall_app; split); try apply bytes_range;
      repeat (apply Forall_cons; split; [lia|]); apply Forall_nil; exact I.
  - repeat split; try reflexivity.
    + exact (number_of_four_bytes sampleRate).
    + exact (number_of_four_bytes (sampleRate * 2)).
    + exact (number_of_four_bytes size).
    + exact (number_of_four_bytes (36 + size)).
Qed.

Lemma decoded_bytes_range (binaryString : string) :
  Forall (fun b => 0 <= b < 256)%Z
    ((fun c => Z.of_nat (nat_of_ascii c)) <$> list_ascii_of_string binaryString).
Proof.
  apply Forall_fmap, Forall_forall. intros c _. simpl.
  pose proof (nat_ascii_bounded c). lia.
Qed.

(** X20.  [generateSpeech] is rejected with [Audio generation failed]
    when the answer carries no audio data, and with whatever [atob]
    throws when the data cannot be decoded.  Otherwise it returns the
    url made for a blob that has one byte per decoded character after
    its 44 header bytes, every byte between 0 and 255, and a header
    that declares 24000 samples and 48000 bytes a second. *)
Theorem generateSpeech_wraps_the_decoded_audio
    (atob : string -> Outcome string) (createObjectURL : AudioBlob.t -> string)
    (response : Outcome (option string)) :
  match response with
  | Rejected e => Speech.generateSpeech atob createObjectURL response = Rejected e
  | Resolved (Some (String c d)) =>
      match atob (String c d) with
      | Rejected e => Speech.generateSpeech atob createObjectURL response = Rejected e
      | Resolved binaryString =>
          exists wav,
            Speech.generateSpeech atob createObjectURL response
            = Resolved (createObjectURL wav) /\
            AudioBlob.type wav = "audio/wav" /\
            length (AudioBlob.bytes wav) = 44 + String.length binaryString /\
            Forall (fun b => 0 <= b < 256)%Z (AudioBlob.bytes wav) /\
            DataView.getUint32 24 true (AudioBlob.bytes wav) = 24000%Z /\
            DataView.getUint32 28 true (AudioBlob.bytes wav) = 48000%Z
      end
  | Resolved _ =>
      Speech.generateSpeech atob createObjectURL response
      = Rejected (Error "Audio generation failed")
  end.
Proof.
  destruct response as [[[|c d]|]|e]; try done.
  unfold Speech.generateSpeech, Speech.decodeBase64. cbn [mbind Outcome_bind].
  destruct (atob (String c d)) as [binaryString|e]; [|done]. cbn [mbind Outcome_bind].
  set (pcm := (fun c => Z.of_nat (nat_of_ascii c)) <$> list_ascii_of_string binaryString).
  destruct (pcmToWav_writes_a_consistent_header pcm 24000)
    as (wav & Hwav & Htype & Hlen & Hdrop & Hrange & _ & _ & _ & _ & _ & _ & _ & _ & _
        & Hrate & Hbytes & _).
  rewrite Hwav. cbn [mbind Outcome_bind]. exists wav. split; [done|]. split; [done|]. split.
  - rewrite Hlen. unfold pcm. rewrite length_fmap. f_equal.
    clear. induction binaryString as [|a s IH]; simpl; [done|]. by rewrite IH.
  - split.
    + rewrite <- (take_drop 44 (AudioBlob.bytes wav)). apply Forall_app. split; [done|].
      rewrite Hdrop. apply decoded_bytes_range.
    + unfold DataView.getUint32, DataView.load in *.
      assert (Htake : forall off, off + 4 <= 44 ->
                take 4 (drop off (take 44 (AudioBlob.bytes wav)))
                = take 4 (drop off (AudioBlob.bytes wav))).
      { intros off Hoff. rewrite <- (take_drop 44 (AudioBlob.bytes wav)) at 2.
        rewrite drop_app_le by (rewrite length_take; lia).
        rewrite take_app_le; [done|]. rewrite length_drop, length_take. lia. }
      rewrite !Htake in * by lia. split; [exact Hrate | exact Hbytes].
Qed.
